(** * CytoTable / pycytominer-transform: conversion pipeline

  A shallow embedding of [src/cytotable/utils.py] and
  [src/pycytominer_transform/convert.py], and the properties of the
  pipeline that follow from it.

  Conventions of the embedding:
  - Python [str] is [string]; [str.lower] is modelled on ASCII letters.
  - [pathlib.Path] is a record of its root ("", "/" or "//") and the
    list of its components (POSIX flavour).
  - A Python dict used as a mapping is a [gmap]; the record dictionaries
    with the fixed keys "source_path", "table", "destination_path" are a
    Rocq record with optional fields.
  - Code that touches the file system or raises runs in the monad [M]:
    explicit state (files and an event trace) and an exception result. *)

From Stdlib Require Import ZArith Ascii String.
From stdpp Require Import gmap strings list sorting.

Open Scope string_scope.

(** ** Python string operations *)
Module PyStr.

(** [c.lower()] for one ASCII character. *)
Definition lower_ascii (c : ascii) : ascii :=
  let n := nat_of_ascii c in
  if (65 <=? n)%nat && (n <=? 90)%nat then ascii_of_nat (n + 32) else c.

(** [s.lower()] *)
Fixpoint lower (s : string) : string :=
  match s with
  | EmptyString => EmptyString
  | String c r => String (lower_ascii c) (lower r)
  end.

(** [s.startswith(p)] *)
Fixpoint startswith (s p : string) : bool :=
  match p, s with
  | EmptyString, _ => true
  | String _ _, EmptyString => false
  | String a p', String b s' => if decide (a = b) then startswith s' p' else false
  end.

(** [sub in s] for two strings: [sub] occurs somewhere in [s]. *)
Fixpoint contains (s sub : string) : bool :=
  startswith s sub ||
  match s with
  | EmptyString => false
  | String _ r => contains r sub
  end.

(** [x in l] for a list of strings. *)
Definition in_list (x : string) (l : list string) : bool :=
  bool_decide (x ∈ l).

(** [l.index(x)], as an option ([None] where Python raises ValueError). *)
Fixpoint index_of (x : string) (l : list string) : option nat :=
  match l with
  | [] => None
  | y :: l' => if decide (x = y) then Some 0%nat else S <$> index_of x l'
  end.

(** [s.split(sep)] for a one-character separator. *)
Fixpoint split (sep : ascii) (s : string) : list string :=
  match s with
  | EmptyString => [EmptyString]
  | String c r =>
      if decide (c = sep) then EmptyString :: split sep r
      else match split sep r with
           | [] => [String c EmptyString]
           | h :: t => String c h :: t
           end
  end.

(** [l[-1]] on a list of strings that [split] returned (never empty). *)
Definition last_item (l : list string) : string := default EmptyString (last l).

(** [s.rfind(c)] for one character: index of the last occurrence. *)
Fixpoint rfind (c : ascii) (s : string) : option nat :=
  match s with
  | EmptyString => None
  | String a r =>
      match rfind c r with
      | Some i => Some (S i)
      | None => if decide (a = c) then Some 0%nat else None
      end
  end.

(** ["sep".join(l)] *)
Fixpoint join (sep : string) (l : list string) : string :=
  match l with
  | [] => EmptyString
  | [x] => x
  | x :: l' => x ++ sep ++ join sep l'
  end.

End PyStr.

(** ** pathlib.PurePosixPath *)
Module PurePath.

(** The root of a path string: none for a relative path, "/" for an
    absolute one, and "//" for a string that starts with exactly two
    slashes, which POSIX sets apart and [pathlib] keeps. *)
Definition root_of (s : string) : string :=
  if PyStr.startswith s "/" then
    if PyStr.startswith s "//" && negb (PyStr.startswith s "///") then "//" else "/"
  else "".

Record Path := MkPath { root : string; parts : list string }.

Global Instance Path_eq_dec : EqDecision Path.
Proof. solve_decision. Defined.

(** [Path(s)]: the root, then the components between slashes, the empty
    ones and "." dropped. *)
Definition of_string (s : string) : Path :=
  {| root := root_of s;
     parts := filter (λ c, c ≠ "" ∧ c ≠ ".") (PyStr.split "/" s) |}.

(** [str(p)] *)
Definition to_string (p : Path) : string :=
  match root p, parts p with
  | EmptyString, [] => "."
  | r, ps => r ++ PyStr.join "/" ps
  end.

(** [p.name]: the final component, "" when there is none. *)
Definition name (p : Path) : string := default "" (last (parts p)).

(** [p.parent] *)
Definition parent (p : Path) : Path :=
  {| root := root p; parts := removelast (parts p) |}.

(** The test [0 < i < len(name) - 1] on [i = name.rfind(".")] shared by
    [stem] and [suffix]. *)
Definition dot_index (nm : string) : option nat :=
  match PyStr.rfind "." nm with
  | Some i => if (0 <? i)%nat && (i <? String.length nm - 1)%nat then Some i else None
  | None => None
  end.

(** [p.stem] *)
Definition stem (p : Path) : string :=
  let nm := name p in
  match dot_index nm with
  | Some i => substring 0 i nm
  | None => nm
  end.

(** [p.suffix] *)
Definition suffix (p : Path) : string :=
  let nm := name p in
  match dot_index nm with
  | Some i => substring i (String.length nm - i) nm
  | None => ""
  end.

End PurePath.

(** ** Python values, Arrow tables *)
Module Arrow.

(** The Python values that cross the sqlite3 / pyarrow boundary. A float
    is carried as its IEEE-754 bit pattern; it is never computed with. *)
Inductive pyvalue :=
| PNone
| PInt (z : Z)
| PFloat (bits : Z)
| PStr (s : string)
| PBytes (b : string).

Global Instance pyvalue_eq_dec : EqDecision pyvalue.
Proof. solve_decision. Defined.

Inductive DataType := NullType | Int64 | Float64 | Utf8 | Binary.

Global Instance DataType_eq_dec : EqDecision DataType.
Proof. solve_decision. Defined.

Record Column := MkColumn {
  col_name : string;
  col_type : DataType;
  col_data : list pyvalue }.

Global Instance Column_eq_dec : EqDecision Column.
Proof. solve_decision. Defined.

(** A [pyarrow.Table]: its columns in order. *)
Definition Table := list Column.

(** [table.column_names] *)
Definition column_names (t : Table) : list string := col_name <$> t.

(** [table.schema]: names and types, in order. *)
Definition schema (t : Table) : list (string * DataType) :=
  (λ c, (col_name c, col_type c)) <$> t.

(** The column called [n], the first one if several are. *)
Definition find_column (n : string) (t : Table) : option Column :=
  snd <$> list_find (λ c, col_name c = n) t.

(** [table.select(names)], also the projection that
    [parquet.read_table(path, columns=names)] applies: the named columns
    in the order asked for; [None] when a name is missing. *)
Definition select (names : list string) (t : Table) : option Table :=
  mapM (λ n, find_column n t) names.

(** Rows of [b] appended below the rows of [a], column by column. *)
Definition append_rows (a b : Table) : Table :=
  zip_with (λ ca cb, MkColumn (col_name ca) (col_type ca) (col_data ca ++ col_data cb)) a b.

(** A table with the columns of [t] and no rows. *)
Definition empty_like (t : Table) : Table :=
  (λ c, MkColumn (col_name c) (col_type c) []) <$> t.

(** [pa.concat_tables(tables)] with the default [promote=False]: every
    table must have the schema of the first one, field for field and in
    the same order; the result has that schema and all rows in order.
    [None] where pyarrow raises ArrowInvalid. *)
Definition concat_tables (ts : list Table) : option Table :=
  match ts with
  | [] => None
  | t0 :: rest =>
      if forallb (λ t, bool_decide (schema t = schema t0)) rest
      then Some (foldl append_rows t0 rest)
      else None
  end.

(** Type inference of [pa.array] over Python values: [None] fits every
    type, ints and floats unify to double, anything else must agree. *)
Definition type_of_value (v : pyvalue) : DataType :=
  match v with
  | PNone => NullType
  | PInt _ => Int64
  | PFloat _ => Float64
  | PStr _ => Utf8
  | PBytes _ => Binary
  end.

Definition unify (a b : DataType) : option DataType :=
  match a, b with
  | NullType, t | t, NullType => Some t
  | Int64, Float64 | Float64, Int64 => Some Float64
  | _, _ => if decide (a = b) then Some a else None
  end.

Fixpoint infer_type (acc : DataType) (vs : list pyvalue) : option DataType :=
  match vs with
  | [] => Some acc
  | v :: vs' =>
      match unify acc (type_of_value v) with
      | Some t => infer_type t vs'
      | None => None
      end
  end.

(** [dict.get(k)] on a row held as the key/value pairs of a dict. *)
Definition row_get (k : string) (row : list (string * pyvalue)) : pyvalue :=
  match list_find (λ kv : string * pyvalue, kv.1 = k) row with
  | Some (_, kv) => kv.2
  | None => PNone
  end.

(** [pa.Table.from_pylist(rows)]: the columns are the keys of the first
    row, in its order; no rows, no columns. [None] where pyarrow raises
    on values of one column that do not unify. *)
Definition from_pylist (rows : list (list (string * pyvalue))) : option Table :=
  match rows with
  | [] => Some []
  | r0 :: _ =>
      mapM (λ k,
              let vs := row_get k <$> rows in
              (λ t, MkColumn k t vs) <$> infer_type NullType vs)
           (fst <$> r0)
  end.

(** A table of an SQLite database: the declared columns (name, declared
    type as written in the CREATE TABLE) and the stored rows, one value
    per column. SQLite stores any storage class in any column. *)
Record SqliteTable := MkSqliteTable {
  tbl_columns : list (string * string);
  tbl_rows : list (list pyvalue) }.

Global Instance SqliteTable_eq_dec : EqDecision SqliteTable.
Proof. solve_decision. Defined.

End Arrow.

(** ** File system, exceptions and the monad of effects *)
Module Fs.
Import Arrow.

(** What a path holds: a delimited text file (given by the table that
    parsing it yields), a complete columnar file, a columnar file that
    an open writer has created and not yet closed (unreadable while the
    writer is open), or an SQLite database (its tables by name). Files
    are keyed by the path string handed to the operating system. *)
Inductive file :=
| CsvFile (t : Table)
| ParquetFile (t : Table)
| PartialParquet
| SqliteFile (db : gmap string SqliteTable).

Global Instance file_eq_dec : EqDecision file.
Proof. solve_decision. Defined.

Inductive event :=
| EvMkdir (p : string)
| EvRead (p : string)
| EvWrite (p : string)
| EvOpenWriter (p : string)
| EvAppend (dest : string) (t : Table)
| EvCloseWriter (p : string)
| EvUnlink (p : string).

Global Instance event_eq_dec : EqDecision event.
Proof. solve_decision. Defined.

(** Exceptions the code raises or lets through. The two datatype errors
    and the missing-input error are plain [Exception]s in the source,
    told apart by their message. *)
Inductive exn :=
| NoInputData
| AmbiguousDatatype
| UnavailableDatatype
| TypeError
| IndexError
| KeyError
| UnboundLocalError
| FileNotFoundError
| ArrowInvalid
| ValueError
| OperationalError.

Global Instance exn_eq_dec : EqDecision exn.
Proof. solve_decision. Defined.

Record state := MkState {
  files : gmap string file;
  trace : list event }.

Definition result (A : Type) : Type := exn + A.

Definition M (A : Type) : Type := state → state * result A.

Definition ret {A} (x : A) : M A := λ s, (s, inr x).
Definition raise {A} (e : exn) : M A := λ s, (s, inl e).
Definition bind {A B} (m : M A) (k : A → M B) : M B :=
  λ s, match m s with
       | (s', inr x) => k x s'
       | (s', inl e) => (s', inl e)
       end.

Definition get_files : M (gmap string file) := λ s, (s, inr (files s)).
Definition set_files (f : gmap string file → gmap string file) : M unit :=
  λ s, (MkState (f (files s)) (trace s), inr tt).
Definition emit (e : event) : M unit :=
  λ s, (MkState (files s) (trace s ++ [e]), inr tt).

(** A task handed to the runner: it runs, and its outcome, value or
    exception, is kept in the future. Tasks are run one after the other
    in submission order. *)
Definition submit {A} (m : M A) : M (result A) :=
  λ s, let '(s', r) := m s in (s', inr r).

(** [future.result()]: the value, or the task's exception raised here. *)
Definition future_result {A} (r : result A) : M A := λ s, (s, r).

(** The outcome of code that does not touch the state. *)
Definition lift {A} (r : result A) : M A := λ s, (s, r).

Global Instance M_ret : MRet M := @ret.
Global Instance M_bind : MBind M := λ A B k m, bind m k.
Global Instance M_fmap : FMap M := λ A B f m, bind m (λ x, ret (f x)).

(** Run [f] on every element in order; the first exception stops it. *)
Fixpoint for_each {A B} (f : A → M B) (l : list A) : M (list B) :=
  match l with
  | [] => mret []
  | x :: l' => y ← f x; ys ← for_each f l'; mret (y :: ys)
  end.

End Fs.


(** ** src/cytotable/utils.py *)
Module Utils.
Import Arrow Fs.

(** first sorted values (by list index) *)
Definition sort_first : list string :=
  [ "tablenumber"; "metadata_tablenumber"; "imagenumber";
    "metadata_imagenumber"; "objectnumber"; "object_number" ].

(** middle sort value *)
Definition sort_middle : string := "metadata".

(** sorted last (by list order enumeration) *)
Definition sort_later : list string := [ "image"; "cytoplasm"; "cells"; "nuclei" ].

(** The loop [for _k, _v in enumerate(sort_later, start=k): if
    value_lower.startswith(_v): return _k]; [None] when it runs out. *)
Fixpoint first_prefix (value_lower : string) (k : nat) (l : list string) : option nat :=
  match l with
  | [] => None
  | v :: l' => if PyStr.startswith value_lower v then Some k
               else first_prefix value_lower (S k) l'
  end.

(** [_column_sort(value)]: the sort key of a column name. *)
Definition _column_sort (value : string) : nat :=
  let value_lower := PyStr.lower value in
  if PyStr.in_list value_lower sort_first then
    default 0%nat (PyStr.index_of value_lower sort_first)
  else if PyStr.contains value_lower sort_middle then
    length sort_first
  else
    let fallthrough := (length sort_first + length sort_later + 1)%nat in
    if existsb (PyStr.startswith value_lower) sort_later then
      default fallthrough
        (first_prefix value_lower (length sort_first + 1) sort_later)
    else fallthrough.

(** Python's [sorted(l, key=key)]: a stable sort by ascending key. *)
Section Sorted.
Context {A : Type} (key : A → nat).

Fixpoint insert_by_key (x : A) (l : list A) : list A :=
  match l with
  | [] => [x]
  | y :: l' => if (key x <=? key y)%nat then x :: y :: l'
               else y :: insert_by_key x l'
  end.

Definition sorted (l : list A) : list A := foldr insert_by_key [] l.
End Sorted.

(** The documented use of the key: [sorted(column_names, key=_column_sort)]. *)
Definition sorted_columns (names : list string) : list string :=
  sorted _column_sort names.

(** SQLite's [typeof(X)]. *)
Definition typeof (v : pyvalue) : string :=
  match v with
  | PNone => "null"
  | PInt _ => "integer"
  | PFloat _ => "real"
  | PStr _ => "text"
  | PBytes _ => "blob"
  end.

Record ColumnInfo := MkColumnInfo {
  table_name : string;
  column_name : string;
  column_type : string }.

(** [SELECT :table_name, name, type FROM pragma_table_info(:table_name)]:
    one row per declared column; no rows for a table that is not there. *)
Definition table_info (db : gmap string SqliteTable) (tname : string) : list ColumnInfo :=
  match db !! tname with
  | Some t => (λ c, MkColumnInfo tname c.1 c.2) <$> tbl_columns t
  | None => []
  end.

(** One element of [query_parts], evaluated on the stored value [v] of
    the column: [CASE WHEN typeof(col) != '<declared type, lowercased>'
    THEN NULL ELSE col END]. *)
Definition case_expr (col : ColumnInfo) (v : pyvalue) : pyvalue :=
  if decide (typeof v ≠ PyStr.lower (column_type col)) then PNone else v.

(** [LIMIT chunk_size OFFSET offset] on the rows of a table: a negative
    offset counts as 0, a negative limit is no limit. *)
Definition limit_offset (chunk_size offset : Z) (rows : list (list pyvalue))
  : list (list pyvalue) :=
  let rest := drop (Z.to_nat offset) rows in
  if (chunk_size <? 0)%Z then rest else take (Z.to_nat chunk_size) rest.

(** One result row as [dict(zip(names, row))]: the key/value pairs in
    column order (column names of a table are distinct). *)
Definition select_row (column_info : list ColumnInfo) (row : list pyvalue)
  : list (string * pyvalue) :=
  zip_with (λ col v, (column_name col, case_expr col v)) column_info row.

(** The variable [results] of [_sqlite_mixed_type_query_to_parquet]:
    the rows of the chunk after the per-column CASE. A SELECT with no
    column (unknown table) is an SQL error. Column and table names are
    taken to be plain identifiers, as the source splices them unquoted. *)
Definition mixed_type_query (db : gmap string SqliteTable) (tname : string)
    (chunk_size offset : Z) : result (list (list (string * pyvalue))) :=
  let column_info := table_info db tname in
  match column_info, db !! tname with
  | _ :: _, Some t =>
      inr (select_row column_info <$> limit_offset chunk_size offset (tbl_rows t))
  | _, _ => inl OperationalError
  end.

(** [_sqlite_mixed_type_query_to_parquet] *)
Definition _sqlite_mixed_type_query_to_parquet (source_path tname : string)
    (chunk_size offset : Z) (result_filepath : string) : M string :=
  fs ← get_files;
  match fs !! source_path with
  | Some (SqliteFile db) =>
      results ← lift (mixed_type_query db tname chunk_size offset);
      match from_pylist results with
      | Some t =>
          set_files (<[result_filepath := ParquetFile t]>);;
          emit (EvWrite result_filepath);;
          mret result_filepath
      | None => raise ArrowInvalid
      end
  | _ => raise OperationalError
  end.

End Utils.

(** ** src/pycytominer_transform/convert.py *)
Module Convert.
Import Arrow Fs PurePath.

Definition DEFAULT_TARGETS : list string := ["image"; "cells"; "nuclei"; "cytoplasm"].

(** A record dictionary: "source_path" is always there, "table" and
    "destination_path" are keys that may be absent. *)
Record record := MkRecord {
  source_path : Path;
  table : option Table;
  destination_path : option Path }.

Global Instance record_eq_dec : EqDecision record.
Proof. solve_decision. Defined.

(** One result of [pathlib.Path(path).glob("**/*")] with what
    [is_file()] answers for it. *)
Record dir_entry := MkEntry { entry_path : Path; entry_is_file : bool }.

(** The test of the gathering loop on one entry: [file.is_file() and
    (str(file.stem).lower() in targets or targets is None)]. With
    [targets] None the membership test raises before [targets is None]
    is looked at. *)
Definition is_target (targets : option (list string)) (e : dir_entry) : result bool :=
  if entry_is_file e then
    match targets with
    | Some ts =>
        inr (PyStr.in_list (PyStr.lower (stem (entry_path e))) ts
             || bool_decide (targets = None))
    | None => inl TypeError
    end
  else inr false.

(** The gathering loop: [records.append({"source_path": file})]. *)
Fixpoint gather_files (targets : option (list string)) (entries : list dir_entry)
  : result (list record) :=
  match entries with
  | [] => inr []
  | e :: es =>
      match is_target targets e with
      | inl err => inl err
      | inr keep =>
          match gather_files targets es with
          | inl err => inl err
          | inr rs => inr (if keep then MkRecord (entry_path e) None None :: rs else rs)
          end
      end
  end.

(** The grouping loop: one key per distinct [source_path.name], holding
    the records of that name in gathering order. *)
Definition group_records (records : list record) : gmap string (list record) :=
  let names : gset string := list_to_set ((λ r, name (source_path r)) <$> records) in
  list_to_map
    ((λ unique_source,
        (unique_source,
         filter (λ r, name (source_path r) = unique_source) records))
       <$> elements names).

(** [get_source_filepaths], on the entries the glob yields. *)
Definition get_source_filepaths (entries : list dir_entry) (targets : option (list string))
  : result (gmap string (list record)) :=
  match gather_files targets entries with
  | inl err => inl err
  | inr records =>
      if (length records <? 1)%nat then inl NoInputData
      else inr (group_records records)
  end.

(** [(group.split(".")[-1]).lower()] *)
Definition key_suffix (group : string) : string :=
  PyStr.lower (PyStr.last_item (PyStr.split "." group)).

(** [list(set(... for group in records))] *)
Definition suffixes {V} (records : gmap string V) : list string :=
  elements (set_map key_suffix (dom records) : gset string).

(** [infer_source_datatype] *)
Definition infer_source_datatype {V} (records : gmap string V)
    (target_datatype : option string) : result string :=
  let sfx := suffixes records in
  match target_datatype with
  | None =>
      if (1 <? length sfx)%nat then inl AmbiguousDatatype
      else match sfx !! 0%nat with
           | Some s => inr s
           | None => inl IndexError
           end
  | Some t =>
      if bool_decide (t ∉ sfx) then inl UnavailableDatatype
      else inr t
  end.

(** [filter_source_filepaths] *)
Definition filter_source_filepaths (records : gmap string (list record))
    (target_datatype : string) : gmap string (list record) :=
  filter (λ kv, suffix (of_string kv.1) = "." ++ target_datatype) records.

(** [gather_records] *)
Definition gather_records (entries : list dir_entry) (source_datatype : option string)
    (targets : option (list string)) : result (gmap string (list record)) :=
  let targets := match targets with None => DEFAULT_TARGETS | Some ts => ts end in
  match get_source_filepaths entries (Some targets) with
  | inl err => inl err
  | inr records =>
      match infer_source_datatype records source_datatype with
      | inl err => inl err
      | inr dt => inr (filter_source_filepaths records dt)
      end
  end.

(** [parquet.read_table(path)] and [parquet.read_table(path, columns=c)] *)
Definition read_table (path : string) (columns : option (list string)) : M Table :=
  fs ← get_files;
  emit (EvRead path);;
  match fs !! path with
  | Some (ParquetFile t) =>
      match columns with
      | None => mret t
      | Some names =>
          match select names t with
          | Some t' => mret t'
          | None => raise ArrowInvalid
          end
      end
  | Some _ => raise ArrowInvalid
  | None => raise FileNotFoundError
  end.

(** [pathlib.Path(p).unlink()] *)
Definition unlink (path : string) : M unit :=
  fs ← get_files;
  match fs !! path with
  | Some _ => set_files (delete path);; emit (EvUnlink path)
  | None => raise FileNotFoundError
  end.

(** [read_csv] *)
Definition read_csv (r : record) : M record :=
  fs ← get_files;
  let path := to_string (source_path r) in
  emit (EvRead path);;
  match fs !! path with
  | Some (CsvFile t) => mret (MkRecord (source_path r) (Some t) (destination_path r))
  | Some _ => raise ArrowInvalid
  | None => raise FileNotFoundError
  end.

(** [task.map(...)] followed by [[f.result() for f in futures]] *)
Definition map_task {A B} (task : A → M B) (l : list A) : M (list B) :=
  futures ← for_each (λ x, submit (task x)) l;
  for_each future_result futures.

(** [read_files] *)
Definition read_files (record_group_name : string) (record_group : list record)
  : M (list record) :=
  if decide (suffix (of_string record_group_name) = ".csv")
  then map_task read_csv record_group
  else raise UnboundLocalError.

(** [f"{dest_path}"] for an optional string. *)
Definition fmt_opt (dest_path : option string) : string := default "None" dest_path.

(** [parquet.ParquetWriter]: the path it writes, the schema it was
    created against and the rows appended so far. *)
Record writer := MkWriter {
  w_path : string;
  w_schema : list (string * DataType);
  w_rows : Table }.

(** [parquet.ParquetWriter(path, schema)]: creates the file. *)
Definition open_writer (path : string) (basis : Table) : M writer :=
  set_files (<[path := PartialParquet]>);;
  emit (EvOpenWriter path);;
  mret (MkWriter path (schema basis) (empty_like basis)).

(** [writer.write_table(t)]: refuses a table of another schema. *)
Definition write_table (w : writer) (t : Table) : M writer :=
  if decide (schema t = w_schema w) then
    emit (EvAppend (w_path w) t);;
    mret (MkWriter (w_path w) (w_schema w) (append_rows (w_rows w) t))
  else raise ValueError.

(** [writer.close()]: the file is complete. *)
Definition close_writer (w : writer) : M unit :=
  set_files (<[w_path w := ParquetFile (w_rows w)]>);;
  emit (EvCloseWriter (w_path w)).

(** [ParquetWriter.__del__]: a writer that is still open when an
    exception leaves the function is released with the frame of the
    failed call and closes itself, so the file it was writing is
    complete, with the rows written so far. *)
Definition release_on_error {A} (w : writer) (m : M A) : M A :=
  λ s, match m s with
       | (s', inl e) => ((close_writer w s').1, inl e)
       | (s', inr x) => (s', inr x)
       end.

(** The loop of the streaming concatenation: read a member with the
    columns of the first file, append it, remove it. *)
Fixpoint append_members (w : writer) (columns : list string) (tables : list string)
  : M writer :=
  match tables with
  | [] => mret w
  | tbl :: rest =>
      t ← release_on_error w (read_table tbl (Some columns));
      w' ← release_on_error w (write_table w t);
      release_on_error w' (unlink tbl);;
      append_members w' columns rest
  end.

(** [[record[key] for record in record_group]]: KeyError on a record
    without the key. *)
Definition collect_key {A} (get : record → option A) (record_group : list record)
  : M (list A) :=
  match mapM get record_group with
  | Some l => mret l
  | None => raise KeyError
  end.

(** The name of the merged columnar file. *)
Definition concat_destination (dest_path : option string) (first : Path) : Path :=
  of_string (fmt_opt dest_path ++ "/" ++ name (parent (parent first))
             ++ "." ++ stem first ++ ".parquet").

(** The source path of the merged record: the parent's parent directory
    with the stem of the first member. *)
Definition concat_source_path (first : Path) : Path :=
  of_string (to_string (parent (parent first)) ++ "/" ++ stem first).

(** [concat_record_group] *)
Definition concat_record_group (record_group : list record) (dest_path : option string)
  : M (list record) :=
  match record_group with
  | [] => raise IndexError
  | first :: _ =>
      let sp := source_path first in
      let concatted_source := concat_source_path sp in
      match table first, destination_path first with
      | Some _, _ =>
          tables ← collect_key table record_group;
          match concat_tables tables with
          | Some t => mret [MkRecord concatted_source (Some t) None]
          | None => raise ArrowInvalid
          end
      | None, Some first_dest =>
          let destination := concat_destination dest_path sp in
          fs ← get_files;
          (if bool_decide (is_Some (fs !! to_string destination))
           then unlink (to_string destination) else mret tt);;
          writer_basis ← read_table (to_string first_dest) None;
          w ← open_writer (to_string destination) writer_basis;
          tables ← release_on_error w (collect_key destination_path record_group);
          w' ← append_members w (column_names writer_basis) (to_string <$> tables);
          close_writer w';;
          mret [MkRecord concatted_source None (Some destination)]
      | None, None => mret [MkRecord concatted_source None None]
      end
  end.

(** A value of the [records] dict during [concat_records]: a record
    group, or the future of a submitted concatenation. *)
Inductive slot :=
| Plain (record_group : list record)
| Future (outcome : result (list record)).

(** The body of the loop of [concat_records] for one group. *)
Definition concat_records_step (dest_path : option string) (record_group : list record)
  : M slot :=
  if (length record_group <? 2)%nat then mret (Plain record_group)
  else Future <$> submit (concat_record_group record_group dest_path).

(** [value.result() if isinstance(value, PrefectFuture) else value] *)
Definition slot_result (v : slot) : M (list record) :=
  match v with
  | Plain g => mret g
  | Future r => future_result r
  end.

(** Run [f] on the values of a dict, in the order of its items. *)
Definition for_items {A B} (f : string → A → M B) (m : gmap string A)
  : M (gmap string B) :=
  list_to_map <$> for_each (λ kv, v ← f kv.1 kv.2; mret (kv.1, v)) (map_to_list m).

(** [concat_records] *)
Definition concat_records (records : gmap string (list record))
    (dest_path : option string) : M (gmap string (list record)) :=
  slots ← for_items (λ _ g, concat_records_step dest_path g) records;
  for_items (λ _ v, slot_result v) slots.

(** The destination that [write_parquet] computes. *)
Definition write_destination (r : record) (dest_path : string) (unique_name : bool)
  : Path :=
  if unique_name
  then of_string (dest_path ++ "/" ++ name (parent (source_path r))
                  ++ "." ++ stem (source_path r) ++ ".parquet")
  else of_string (dest_path ++ "/" ++ stem (source_path r) ++ ".parquet").

(** [write_parquet] *)
Definition write_parquet (r : record) (dest_path : string) (unique_name : bool)
  : M record :=
  emit (EvMkdir dest_path);;
  let destination := write_destination r dest_path unique_name in
  match table r with
  | Some t =>
      set_files (<[to_string destination := ParquetFile t]>);;
      emit (EvWrite (to_string destination));;
      mret (MkRecord (source_path r) None (Some destination))
  | None => raise KeyError
  end.

(** [unique_name] as [to_parquet] sets it for a group. *)
Definition needs_unique_name (record_group : list record) : bool :=
  (2 <=? length record_group)%nat.

(** The body of the loop of [to_parquet] for one group. *)
Definition to_parquet_group (dest_path : string) (record_group_name : string)
    (record_group : list record) : M (list record) :=
  record_group ←
    (if decide (length (filter (λ r, is_Some (table r)) record_group)
                ≠ length record_group)
     then read_files record_group_name record_group
     else mret record_group);
  let unique_name := needs_unique_name record_group in
  map_task (λ r, write_parquet r dest_path unique_name) record_group.

(** [to_parquet] *)
Definition to_parquet (records : gmap string (list record)) (dest_path : string)
    (concat : bool) : M (gmap string (list record)) :=
  records ← for_items (to_parquet_group dest_path) records;
  if concat then concat_records records (Some dest_path) else mret records.

(** [to_arrow] *)
Definition to_arrow (records : gmap string (list record)) (concat : bool)
  : M (gmap string (list record)) :=
  records ← for_items read_files records;
  if concat then concat_records records None else mret records.

(** [convert], on the entries that the glob of [source_path] yields. *)
Definition convert (entries : list dir_entry) (dest_path : string)
    (dest_datatype : string) (source_datatype : option string)
    (targets : option (list string)) (concat : bool)
  : M (gmap string (list record)) :=
  let targets := match targets with None => DEFAULT_TARGETS | Some ts => ts end in
  records ← lift (gather_records entries source_datatype (Some targets));
  if decide (dest_datatype = "arrow") then to_arrow records concat
  else if decide (dest_datatype = "parquet") then to_parquet records dest_path concat
  else raise UnboundLocalError.

End Convert.

(** ** Vocabulary of the statements *)
Module Props.
Import Arrow Fs PurePath Utils Convert.

(** A file the gathering loop keeps for the target list [ts]. *)
Definition eligible (ts : list string) (e : dir_entry) : Prop :=
  entry_is_file e = true ∧ PyStr.lower (stem (entry_path e)) ∈ ts.

Global Instance eligible_dec ts e : Decision (eligible ts e).
Proof. unfold eligible. apply _. Defined.

(** The record that gathering makes of an entry. *)
Definition record_of (e : dir_entry) : record := MkRecord (entry_path e) None None.

(** The records of the eligible entries, in traversal order. *)
Definition eligible_records (ts : list string) (entries : list dir_entry) : list record :=
  record_of <$> filter (eligible ts) entries.

(** The set of lowercased suffixes of the grouping keys. *)
Definition suffix_set {V} (records : gmap string V) : gset string :=
  set_map key_suffix (dom records).

(** A path whose components hold no "/", as every parsed path does. *)
Definition well_formed (p : Path) : Prop :=
  Forall (λ c, PyStr.contains c "/" = false) (parts p).

(** The events of one turn of the streaming loop on the member file [p]
    holding the rows [t]: read, append to the writer of [dest], remove. *)
Definition member_events (dest : string) (pt : string * Table) : list event :=
  [ EvRead pt.1; EvAppend dest pt.2; EvUnlink pt.1 ].

(** The state once the open writer [w] has been released: its file is
    complete, with the rows written so far. *)
Definition released (w : writer) (s : state) : state :=
  MkState (<[w_path w := ParquetFile (w_rows w)]> (files s))
          (trace s ++ [EvCloseWriter (w_path w)]).

(** No removal of a file among the events. *)
Definition no_unlink (tr : list event) : Prop :=
  Forall (λ e, ∀ p, e ≠ EvUnlink p) tr.

(** The files are the same in the two states. *)
Definition same_files (s s' : state) : Prop := files s' = files s.

Global Instance same_files_refl : Reflexive same_files.
Proof. by intros s. Qed.

Global Instance same_files_trans : Transitive same_files.
Proof. intros s1 s2 s3 H12 H23. unfold same_files in *. congruence. Qed.

(** The values of the first column called [n] in a table, none when the
    table has no such column. *)
Fixpoint column_data (n : string) (t : Table) : list pyvalue :=
  match t with
  | [] => []
  | c :: t' => if decide (col_name c = n) then col_data c else column_data n t'
  end.

(** Every complete columnar file of the first state is still a complete
    columnar file in the second, with these or other rows. *)
Definition parquet_kept (s s' : state) : Prop :=
  ∀ p t, files s !! p = Some (ParquetFile t) →
         ∃ t', files s' !! p = Some (ParquetFile t').

Global Instance parquet_kept_refl : Reflexive parquet_kept.
Proof. intros s p t Hp. by exists t. Qed.

Global Instance parquet_kept_trans : Transitive parquet_kept.
Proof.
  intros s1 s2 s3 H12 H23 p t Hp.
  destruct (H12 p t Hp) as [t' Hp']. by apply (H23 p t').
Qed.

End Props.

Import Arrow Fs PurePath Utils Convert Props.

(** A concrete string is none of the strings of a concrete list. *)
Ltac not_in_list :=
  let H := fresh in
  intros H; vm_compute in H;
  repeat (apply elem_of_cons in H as [H|H]; [discriminate H|]);
  by apply not_elem_of_nil in H.

(** ** Gathering and grouping *)

Lemma gather_files_Some ts entries :
  gather_files (Some ts) entries = inr (eligible_records ts entries).
Proof.
  unfold eligible_records.
  induction entries as [|e es IH]; [done|].
  cbn [gather_files]. rewrite IH. unfold is_target.
  rewrite filter_cons. unfold PyStr.in_list.
  destruct (entry_is_file e) eqn:Hf.
  - rewrite orb_false_r.
    destruct (decide (PyStr.lower (stem (entry_path e)) ∈ ts)) as [Hin|Hin].
    + rewrite bool_decide_eq_true_2 by done.
      rewrite decide_True by (by split). done.
    + rewrite bool_decide_eq_false_2 by done.
      rewrite decide_False by (intros [_ ?]; done). done.
  - rewrite decide_False by (intros [? _]; congruence). done.
Qed.

Lemma lookup_group_records records k :
  group_records records !! k =
    let g := filter (λ r, name (source_path r) = k) records in
    if decide (g = []) then None else Some g.
Proof.
  unfold group_records. cbn zeta.
  set (names := list_to_set _ : gset string).
  set (g := filter _ records).
  assert (Hk : k ∈ names ↔ g ≠ []).
  { unfold names, g. rewrite elem_of_list_to_set, list_elem_of_fmap. split.
    - intros (r & -> & Hr) Hnil.
      assert (r ∈ filter (λ r0, name (source_path r0) = name (source_path r)) records) as Hin
        by (apply list_elem_of_filter; done).
      rewrite Hnil in Hin. by apply not_elem_of_nil in Hin.
    - intros Hne. destruct (filter _ records) as [|r l] eqn:Heq; [done|].
      assert (r ∈ filter (λ r0, name (source_path r0) = k) records) as Hin
        by (rewrite Heq; left).
      apply list_elem_of_filter in Hin as [Hn Hin]. eauto. }
  destruct (decide (g = [])) as [Hg|Hg].
  - apply not_elem_of_list_to_map_1. rewrite <- list_fmap_compose.
    intros Hin. apply list_elem_of_fmap in Hin as (n & -> & Hn). cbn in Hk.
    apply elem_of_elements in Hn. tauto.
  - apply elem_of_list_to_map_1.
    + rewrite <- list_fmap_compose.
      replace (fst ∘ _) with (@id string) by done.
      rewrite list_fmap_id. apply NoDup_elements.
    + apply list_elem_of_fmap. exists k. split; [done|].
      apply elem_of_elements. tauto.
Qed.

Lemma filter_all_id {A} (P : A → Prop) `{∀ x, Decision (P x)} (l : list A) :
  Forall P l → filter P l = l.
Proof.
  induction 1 as [|x l Hx _ IH]; [done|].
  rewrite filter_cons, decide_True by done. by rewrite IH.
Qed.

Lemma filter_none_nil {A} (P : A → Prop) `{∀ x, Decision (P x)} (l : list A) :
  Forall (λ x, ¬ P x) l → filter P l = [].
Proof.
  induction 1 as [|x l Hx _ IH]; [done|].
  by rewrite filter_cons, decide_False.
Qed.

(** C6. Grouping is by full filename only: the result of
    [get_source_filepaths] has, for every filename [k] borne by at least
    one eligible file, exactly one group, and that group is the list of all
    eligible files named [k], whatever their directories and depth; there
    is no other group. In particular, when the eligible files are N files
    all named [k] (N sibling directories each holding image.csv), the
    result is the single group [k] with exactly those N files. *)
Theorem get_source_filepaths_groups (entries : list dir_entry) (ts : list string) :
  eligible_records ts entries ≠ [] →
  ∃ groups,
    get_source_filepaths entries (Some ts) = inr groups ∧
    (∀ k g, groups !! k = Some g ↔
            g ≠ [] ∧ g = filter (λ r, name (source_path r) = k) (eligible_records ts entries)) ∧
    (∀ k, Forall (λ r, name (source_path r) = k) (eligible_records ts entries) →
          groups = {[ k := eligible_records ts entries ]}).
Proof.
  intros Hne. set (files := eligible_records ts entries) in *.
  exists (group_records files). split; [|split].
  - unfold get_source_filepaths. rewrite gather_files_Some. fold files.
    destruct files; [done|]. done.
  - intros k g. rewrite lookup_group_records. cbn zeta.
    case_decide as Hg; split.
    + done.
    + intros [Hg1 ->]. done.
    + intros [= <-]. done.
    + intros [_ ->]. done.
  - intros k Hall. apply map_eq. intros k'.
    rewrite lookup_group_records. cbn zeta.
    destruct (decide (k' = k)) as [->|Hk].
    + rewrite lookup_singleton_eq, filter_all_id by done.
      by rewrite decide_False.
    + rewrite lookup_singleton_ne by done.
      rewrite filter_none_nil; [done|].
      eapply Forall_impl; [exact Hall|]. cbn. congruence.
Qed.

(** Three sibling directories, at different depths, each with an
    image.csv, among other entries. *)
Lemma get_source_filepaths_groups_witness :
  ∃ groups,
    get_source_filepaths
      [ MkEntry (of_string "/data/plate1") false;
        MkEntry (of_string "/data/plate1/image.csv") true;
        MkEntry (of_string "/data/plate2/image.csv") true;
        MkEntry (of_string "/data/run/b/plate3/image.csv") true;
        MkEntry (of_string "/data/run/b/plate3/notes.txt") true ]
      (Some DEFAULT_TARGETS) = inr groups ∧
    groups = {[ "image.csv" :=
                  [ MkRecord (of_string "/data/plate1/image.csv") None None;
                    MkRecord (of_string "/data/plate2/image.csv") None None;
                    MkRecord (of_string "/data/run/b/plate3/image.csv") None None ] ]}.
Proof.
  edestruct (get_source_filepaths_groups
               [ MkEntry (of_string "/data/plate1") false;
                 MkEntry (of_string "/data/plate1/image.csv") true;
                 MkEntry (of_string "/data/plate2/image.csv") true;
                 MkEntry (of_string "/data/run/b/plate3/image.csv") true;
                 MkEntry (of_string "/data/run/b/plate3/notes.txt") true ]
               DEFAULT_TARGETS) as (groups & Hget & _ & Hone).
  - vm_compute. discriminate.
  - exists groups. split; [exact Hget|].
    apply (Hone "image.csv"). vm_compute. repeat constructor.
Defined.

(** C4, as the claim states it, fails: with the target set left unset and
    the default entry point, a file whose stem is not a default target is
    not accepted; and [get_source_filepaths] itself, handed [None], raises
    on the first file instead of accepting it. *)
Lemma unset_targets_do_not_accept_all :
  let entries := [ MkEntry (of_string "/data/p1/image.csv") true;
                   MkEntry (of_string "/data/p1/notes.csv") true ] in
  gather_records entries None None
    = inr {[ "image.csv" := [ MkRecord (of_string "/data/p1/image.csv") None None ] ]}
  ∧ get_source_filepaths entries None = inl TypeError.
Proof. split; vm_compute; reflexivity. Qed.

(** C4 (amended). With a target list, a file under the source root is kept
    for grouping if and only if its lowercased stem is in the list; a
    caller that leaves the targets unset gets the default targets (image,
    cells, nuclei, cytoplasm), in [gather_records] and in [convert]. *)
Theorem eligible_iff_stem_in_targets (entries : list dir_entry) (ts : list string) :
  (∃ records,
     gather_files (Some ts) entries = inr records ∧
     ∀ e, e ∈ entries → entry_is_file e = true →
          (record_of e ∈ records ↔ PyStr.lower (stem (entry_path e)) ∈ ts)) ∧
  (∀ source_datatype,
     gather_records entries source_datatype None
       = gather_records entries source_datatype (Some DEFAULT_TARGETS)) ∧
  (∀ dest_path dest_datatype source_datatype concat,
     convert entries dest_path dest_datatype source_datatype None concat
       = convert entries dest_path dest_datatype source_datatype (Some DEFAULT_TARGETS) concat).
Proof.
  split; [|split; reflexivity].
  exists (eligible_records ts entries). split; [apply gather_files_Some|].
  intros e He Hfile. unfold eligible_records. rewrite list_elem_of_fmap. split.
  - intros (e' & Heq & Hin). apply list_elem_of_filter in Hin as [[_ Hstem] _].
    unfold record_of in Heq. injection Heq as Hpath. by rewrite Hpath.
  - intros Hstem. exists e. split; [done|]. apply list_elem_of_filter. by repeat split.
Qed.

Lemma eligible_iff_stem_in_targets_witness :
  record_of (MkEntry (of_string "/data/p1/Image.csv") true)
    ∈ eligible_records ["image"]
        [ MkEntry (of_string "/data/p1/Image.csv") true;
          MkEntry (of_string "/data/p1/notes.csv") true ].
Proof.
  destruct (eligible_iff_stem_in_targets
              [ MkEntry (of_string "/data/p1/Image.csv") true;
                MkEntry (of_string "/data/p1/notes.csv") true ] ["image"])
    as [(records & Hrec & Hiff) _].
  rewrite gather_files_Some in Hrec. injection Hrec as <-.
  apply Hiff; [left | reflexivity | vm_compute; left].
Defined.


(** ** Datatype inference *)

Lemma suffixes_elements {V} (records : gmap string V) :
  suffixes records = elements (suffix_set records).
Proof. reflexivity. Qed.



Example infer_csv_db_ambiguous :
  infer_source_datatype ({[ "image.csv" := (); "cells.db" := () ]} : gmap string ()) None
    = inl AmbiguousDatatype.
Proof. reflexivity. Qed.

Example infer_db_unavailable :
  infer_source_datatype ({[ "image.csv" := () ]} : gmap string ()) (Some "db")
    = inl UnavailableDatatype.
Proof. reflexivity. Qed.

(** ** Strings and paths *)

Lemma contains_slash_cons a r :
  PyStr.contains (String a r) "/" = bool_decide ("/"%char = a) || PyStr.contains r "/".
Proof.
  cbn [PyStr.contains PyStr.startswith].
  destruct (decide ("/"%char = a)) as [Heq|Hne].
  - rewrite bool_decide_eq_true_2 by done. by destruct r.
  - rewrite bool_decide_eq_false_2 by done. done.
Qed.

Lemma contains_slash_app a b :
  PyStr.contains (a ++ b) "/" = PyStr.contains a "/" || PyStr.contains b "/".
Proof.
  induction a as [|c a IH]; [done|].
  change (String c a ++ b) with (String c (a ++ b)).
  rewrite !contains_slash_cons, IH. by rewrite orb_assoc.
Qed.

Lemma contains_slash_substring s n m :
  PyStr.contains s "/" = false → PyStr.contains (substring n m s) "/" = false.
Proof.
  revert n m. induction s as [|c s IH]; intros n m Hs.
  - by destruct n, m.
  - rewrite contains_slash_cons in Hs. apply orb_false_iff in Hs as [Hc Hs].
    destruct n as [|n]; cbn [substring].
    + destruct m as [|m]; [done|].
      rewrite contains_slash_cons, Hc. cbn. by apply IH.
    + by apply IH.
Qed.

Lemma split_nonempty sep s : PyStr.split sep s ≠ [].
Proof.
  destruct s as [|c r]; cbn; [done|].
  case_decide; [done|]. by destruct (PyStr.split sep r).
Qed.

Lemma split_no_slash s :
  PyStr.contains s "/" = false → PyStr.split "/" s = [s].
Proof.
  induction s as [|c r IH]; [done|].
  rewrite contains_slash_cons. intros [Hc Hr]%orb_false_iff.
  apply bool_decide_eq_false in Hc. cbn [PyStr.split].
  rewrite decide_False by congruence. by rewrite IH.
Qed.

Lemma split_app_slash a b :
  PyStr.split "/" (a ++ "/" ++ b) = (PyStr.split "/" a ++ PyStr.split "/" b)%list.
Proof.
  induction a as [|c r IH]; [done|].
  change (String c r ++ "/" ++ b) with (String c (r ++ "/" ++ b)).
  cbn [PyStr.split]. rewrite IH. case_decide; [done|].
  pose proof (split_nonempty "/" r). by destruct (PyStr.split "/" r).
Qed.

Lemma split_pieces_no_slash s :
  Forall (λ c, PyStr.contains c "/" = false) (PyStr.split "/" s).
Proof.
  induction s as [|c r IH]; [by repeat constructor|].
  cbn [PyStr.split]. case_decide as Hc.
  - by constructor.
  - pose proof (split_nonempty "/" r).
    destruct (PyStr.split "/" r) as [|h t]; [done|].
    apply Forall_cons in IH as [Hh Ht]. constructor; [|done].
    rewrite contains_slash_cons, Hh, bool_decide_eq_false_2 by congruence. done.
Qed.

(** Every path that [Path(s)] builds has components free of "/". *)
Lemma of_string_well_formed s : well_formed (of_string s).
Proof.
  unfold well_formed, of_string. cbn [parts].
  apply Forall_forall. intros c [_ Hc]%list_elem_of_filter.
  by eapply Forall_forall in Hc; [|apply split_pieces_no_slash].
Qed.

(** Roots and components as [pathlib] prints them: exactly two leading
    slashes are kept, any other number is one; empty components and "."
    are dropped, ".." is kept. *)
Example of_string_to_string :
  to_string <$> (of_string <$> [ "/data/cells.csv"; "//cells"; "///cells"; "//"; "/";
                                 ""; "./cells"; "data//p1/./cells.csv/"; "a/.." ])
    = [ "/data/cells.csv"; "//cells"; "/cells"; "//"; "/";
        "."; "cells"; "data/p1/cells.csv"; "a/.." ].
Proof. reflexivity. Qed.

(** The source path of a merged record, for first members at several
    depths: two levels below the root the formatted string starts with
    two slashes, which the path keeps. *)
Example concat_source_path_depths :
  to_string <$> (concat_source_path <$>
                   (of_string <$> [ "/data/plate1/cells.csv"; "/data/cells.csv";
                                    "/cells.csv"; "plate1/cells.csv"; "cells.csv" ]))
    = [ "/data/cells"; "//cells"; "//cells"; "cells"; "cells" ].
Proof. reflexivity. Qed.

Lemma name_of_string_app d x :
  PyStr.contains x "/" = false → x ≠ "" → x ≠ "." →
  name (of_string (d ++ "/" ++ x)) = x.
Proof.
  intros Hx Hne Hdot. unfold name, of_string. cbn [parts].
  rewrite split_app_slash, (split_no_slash x) by done.
  rewrite filter_app, filter_cons, decide_True by done.
  by rewrite filter_nil, last_snoc.
Qed.

Lemma name_well_formed p : well_formed p → PyStr.contains (name p) "/" = false.
Proof.
  unfold well_formed, name. intros Hwf.
  destruct (last (parts p)) as [c|] eqn:Hlast; [|done].
  eapply Forall_forall in Hwf; [exact Hwf|]. by apply last_Some_elem_of.
Qed.

Lemma stem_well_formed p : well_formed p → PyStr.contains (stem p) "/" = false.
Proof.
  intros Hwf%name_well_formed. unfold stem.
  destruct (dot_index (name p)); [|done]. by apply contains_slash_substring.
Qed.

Lemma parent_well_formed p : well_formed p → well_formed (parent p).
Proof.
  unfold well_formed, parent. cbn [parts]. intros Hwf.
  apply Forall_forall. intros c Hc. eapply Forall_forall in Hwf; [exact Hwf|].
  apply list_elem_of_In. apply list_elem_of_In in Hc.
  destruct (parts p) as [|a l] eqn:Hp; [done|].
  assert (a :: l ≠ []) as Hne by done.
  rewrite (app_removelast_last "" Hne). apply in_or_app. by left.
Qed.

Lemma append_parquet_ne x : x ++ ".parquet" ≠ "" ∧ x ++ ".parquet" ≠ ".".
Proof. destruct x as [|a [|b x]]; split; done. Qed.

Lemma string_length_app (a b : string) :
  String.length (a ++ b) = (String.length a + String.length b)%nat.
Proof. induction a as [|c a IH]; [done|]. simpl. by rewrite IH. Qed.

Lemma string_app_assoc (a b c : string) : (a ++ b) ++ c = a ++ b ++ c.
Proof.
  induction a as [|x a IH]; [done|].
  change (String x ((a ++ b) ++ c) = String x (a ++ b ++ c)). by rewrite IH.
Qed.

Lemma unique_name_differs (p s : string) :
  p ++ "." ++ s ++ ".parquet" ≠ s ++ ".parquet".
Proof.
  intros Heq. apply (f_equal String.length) in Heq.
  rewrite !string_length_app in Heq. cbn in Heq. lia.
Qed.

(** The filename that [write_parquet] computes, by the flag. *)
Lemma write_destination_name (r : record) (dest_path : string) (unique_name : bool) :
  well_formed (source_path r) →
  name (write_destination r dest_path unique_name) =
    if unique_name
    then name (parent (source_path r)) ++ "." ++ stem (source_path r) ++ ".parquet"
    else stem (source_path r) ++ ".parquet".
Proof.
  intros Hwf. unfold write_destination.
  pose proof (stem_well_formed _ Hwf) as Hstem.
  pose proof (name_well_formed _ (parent_well_formed _ Hwf)) as Hpar.
  destruct unique_name.
  - replace (dest_path ++ "/" ++ name (parent (source_path r)) ++ "."
               ++ stem (source_path r) ++ ".parquet")
      with (dest_path ++ "/" ++ ((name (parent (source_path r)) ++ "."
               ++ stem (source_path r)) ++ ".parquet")).
    2:{ by rewrite !string_app_assoc. }
    rewrite name_of_string_app.
    + by rewrite !string_app_assoc.
    + rewrite !contains_slash_app, Hpar, Hstem. done.
    + apply append_parquet_ne.
    + apply append_parquet_ne.
  - rewrite name_of_string_app; [done| |apply append_parquet_ne..].
    rewrite contains_slash_app, Hstem. done.
Qed.

(** The filename that [write_parquet] is asked for a member of a group of
    [to_parquet]: with the parent directory exactly when the group has two
    or more members, the stem alone exactly when it has one. *)
Lemma write_destination_by_group_size
    (dest_path : string) (record_group : list record) (r : record) :
  record_group ≠ [] →
  well_formed (source_path r) →
  (name (write_destination r dest_path (needs_unique_name record_group))
     = name (parent (source_path r)) ++ "." ++ stem (source_path r) ++ ".parquet"
   ↔ (2 ≤ length record_group)%nat) ∧
  (name (write_destination r dest_path (needs_unique_name record_group))
     = stem (source_path r) ++ ".parquet"
   ↔ length record_group = 1%nat).
Proof.
  intros Hne Hwf. rewrite write_destination_name by done.
  assert (1 ≤ length record_group)%nat as Hlen.
  { destruct record_group; [done | cbn; lia]. }
  unfold needs_unique_name.
  destruct (2 <=? length record_group)%nat eqn:Hsz.
  - apply Nat.leb_le in Hsz. split; split; try done.
    + intros Heq. by apply unique_name_differs in Heq.
    + lia.
  - apply Nat.leb_gt in Hsz. split; split; try done.
    + intros Heq. symmetry in Heq. by apply unique_name_differs in Heq.
    + lia.
    + lia.
Qed.

(** C7 on the code: two distinct source files of one record group, in
    directories of the same name under different parents, are given the
    same destination; the second write replaces the first, and the
    conversion ends with one file for the two sources. *)
Theorem write_destination_collision :
  let r1 := MkRecord (of_string "/data/plate1/out/cells.csv") None None in
  let r2 := MkRecord (of_string "/data/plate2/out/cells.csv") None None in
  let entries := [ MkEntry (source_path r1) true; MkEntry (source_path r2) true ] in
  let t1 := [ MkColumn "ImageNumber" Int64 [PInt 1] ] in
  let t2 := [ MkColumn "ImageNumber" Int64 [PInt 2] ] in
  let st := MkState {[ to_string (source_path r1) := CsvFile t1;
                       to_string (source_path r2) := CsvFile t2 ]} [] in
  source_path r1 ≠ source_path r2 ∧
  get_source_filepaths entries (Some DEFAULT_TARGETS) = inr {[ "cells.csv" := [r1; r2] ]} ∧
  write_destination r1 "dest" (needs_unique_name [r1; r2])
    = write_destination r2 "dest" (needs_unique_name [r1; r2]) ∧
  files (convert entries "dest" "parquet" None None false st).1
    !! "dest/out.cells.parquet" = Some (ParquetFile t2) ∧
  trace (convert entries "dest" "parquet" None None false st).1
    = [ EvRead "/data/plate1/out/cells.csv"; EvRead "/data/plate2/out/cells.csv";
        EvMkdir "dest"; EvWrite "dest/out.cells.parquet";
        EvMkdir "dest"; EvWrite "dest/out.cells.parquet" ].
Proof. repeat split; try (vm_compute; reflexivity). vm_compute. discriminate. Qed.

(** ** Extraction from an SQLite table *)

Lemma limit_offset_lookup (chunk_size offset : Z) (rows : list (list pyvalue)) (i : nat) :
  (0 ≤ chunk_size)%Z →
  limit_offset chunk_size offset rows !! i =
    if decide (i < Z.to_nat chunk_size)%nat then rows !! (Z.to_nat offset + i)%nat else None.
Proof.
  intros Hc. unfold limit_offset.
  rewrite (proj2 (Z.ltb_ge _ _)) by done.
  case_decide as Hi.
  - by rewrite lookup_take_lt, lookup_drop.
  - rewrite lookup_take_ge; [done|lia].
Qed.

Lemma select_row_lookup (t : SqliteTable) (tname : string) (row : list pyvalue)
    (j : nat) (cname ctype : string) (v : pyvalue) :
  tbl_columns t !! j = Some (cname, ctype) →
  row !! j = Some v →
  select_row ((λ c, MkColumnInfo tname c.1 c.2) <$> tbl_columns t) row !! j
    = Some (cname, if decide (typeof v = PyStr.lower ctype) then v else PNone).
Proof.
  intros Hc Hv. unfold select_row.
  rewrite lookup_zip_with, list_lookup_fmap, Hc, Hv. cbn.
  unfold case_expr. cbn. do 2 f_equal.
  destruct (decide (typeof v = PyStr.lower ctype)) as [Heq|Hne].
  - by rewrite decide_False by (intros ?; done).
  - by rewrite decide_True.
Qed.

Lemma mixed_type_query_eq (db : gmap string SqliteTable) (tname : string)
    (chunk_size offset : Z) (t : SqliteTable) :
  db !! tname = Some t →
  tbl_columns t ≠ [] →
  mixed_type_query db tname chunk_size offset
    = inr (select_row ((λ c, MkColumnInfo tname c.1 c.2) <$> tbl_columns t)
             <$> limit_offset chunk_size offset (tbl_rows t)).
Proof.
  intros Hdb Hcols. unfold mixed_type_query, table_info. rewrite Hdb.
  by destruct (tbl_columns t).
Qed.

(** The test that the extraction query applies, as the code has it: the
    chunk has one row per stored row of the window and one cell per
    declared column, under the column's name; a cell is the stored value
    when [typeof] of it is, letter for letter, the column's declared type
    lowercased, and null otherwise. For a non-negative chunk size and
    offset the window is the rows [offset, offset + chunk_size) of the
    table. *)
Theorem mixed_type_query_cells (db : gmap string SqliteTable) (tname : string)
    (chunk_size offset : Z) (t : SqliteTable) :
  db !! tname = Some t →
  tbl_columns t ≠ [] →
  ∃ out,
    mixed_type_query db tname chunk_size offset = inr out ∧
    length out = length (limit_offset chunk_size offset (tbl_rows t)) ∧
    (∀ i row,
       limit_offset chunk_size offset (tbl_rows t) !! i = Some row →
       ∃ orow,
         out !! i = Some orow ∧
         length orow = (length (tbl_columns t) `min` length row)%nat ∧
         ∀ j cname ctype v,
           tbl_columns t !! j = Some (cname, ctype) →
           row !! j = Some v →
           orow !! j = Some (cname, if decide (typeof v = PyStr.lower ctype)
                                    then v else PNone)) ∧
    ((0 ≤ chunk_size)%Z → (0 ≤ offset)%Z →
     ∀ i, limit_offset chunk_size offset (tbl_rows t) !! i =
          if decide (i < Z.to_nat chunk_size)%nat
          then tbl_rows t !! (Z.to_nat offset + i)%nat else None).
Proof.
  intros Hdb Hcols. eexists. split; [by apply mixed_type_query_eq|].
  split; [by rewrite length_fmap|]. split.
  - intros i row Hrow. eexists. split; [by rewrite list_lookup_fmap, Hrow|].
    split.
    + unfold select_row. by rewrite length_zip_with, length_fmap.
    + intros j cname ctype v Hj Hv. by apply select_row_lookup.
  - intros Hchunk _ i. by apply limit_offset_lookup.
Qed.

(** A table with an INTEGER column holding a text value in its second
    row: that cell comes out null, the others as stored. *)
Lemma mixed_type_query_cells_witness :
  ∃ out orow,
    mixed_type_query
      {[ "Image" := MkSqliteTable [("ImageNumber", "INTEGER"); ("Well", "TEXT")]
                      [ [PInt 1; PStr "A01"]; [PStr "x"; PStr "A02"]; [PInt 3; PStr "A03"] ] ]}
      "Image" 2 0 = inr out ∧
    out !! 1%nat = Some orow ∧
    orow !! 0%nat = Some ("ImageNumber", PNone) ∧
    orow !! 1%nat = Some ("Well", PStr "A02").
Proof.
  destruct (mixed_type_query_cells
    {[ "Image" := MkSqliteTable [("ImageNumber", "INTEGER"); ("Well", "TEXT")]
                    [ [PInt 1; PStr "A01"]; [PStr "x"; PStr "A02"]; [PInt 3; PStr "A03"] ] ]}
    "Image" 2 0
    (MkSqliteTable [("ImageNumber", "INTEGER"); ("Well", "TEXT")]
       [ [PInt 1; PStr "A01"]; [PStr "x"; PStr "A02"]; [PInt 3; PStr "A03"] ]))
    as (out & Hout & _ & Hcells & _).
  - reflexivity.
  - discriminate.
  - destruct (Hcells 1%nat [PStr "x"; PStr "A02"] eq_refl) as (orow & Hrow & _ & Hcell).
    exists out, orow. split; [exact Hout|]. split; [exact Hrow|]. split.
    + exact (Hcell 0%nat "ImageNumber" "INTEGER" (PStr "x") eq_refl eq_refl).
    + exact (Hcell 1%nat "Well" "TEXT" (PStr "A02") eq_refl eq_refl).
Defined.

(** The CASE of a column whose declared type, lowercased, is not the name
    of a storage class yields null for every stored value. *)
Lemma case_expr_other_spelling (col : ColumnInfo) (v : pyvalue) :
  PyStr.lower (column_type col) ∉ ["null"; "integer"; "real"; "text"; "blob"] →
  case_expr col v = PNone.
Proof.
  intros Hnot. unfold case_expr. case_decide as Heq; [done|].
  exfalso. apply Hnot. rewrite <- Heq.
  destruct v; cbn; set_solver.
Qed.

(** C1 on the code: a table declared with the columns ImageNumber INTEGER,
    Count BIGINT, Intensity FLOAT and Well VARCHAR(10), holding one row of
    an integer, an integer, a real and a text: every cell has the storage
    class of its column's declared type. The extraction writes the first
    cell as stored and null for the three others: the test compares
    [typeof], which answers integer, real or text, with the declared type
    as it is spelled, bigint, float or varchar(10). *)
Theorem sqlite_extract_nulls_matching_cells :
  let image :=
    MkSqliteTable
      [ ("ImageNumber", "INTEGER"); ("Count", "BIGINT");
        ("Intensity", "FLOAT"); ("Well", "VARCHAR(10)") ]
      [ [ PInt 1; PInt 7; PFloat 4602678819172646912; PStr "A01" ] ] in
  let db : gmap string SqliteTable := {[ "Image" := image ]} in
  let st := MkState {[ "/data/plate.sqlite" := SqliteFile db ]} [] in
  typeof <$> [ PInt 1; PInt 7; PFloat 4602678819172646912; PStr "A01" ]
    = [ "integer"; "integer"; "real"; "text" ] ∧
  mixed_type_query db "Image" 10 0
    = inr [ [ ("ImageNumber", PInt 1); ("Count", PNone);
              ("Intensity", PNone); ("Well", PNone) ] ] ∧
  _sqlite_mixed_type_query_to_parquet "/data/plate.sqlite" "Image" 10 0
      "/data/image.parquet" st
    = (MkState {[ "/data/plate.sqlite" := SqliteFile db;
                  "/data/image.parquet" :=
                    ParquetFile [ MkColumn "ImageNumber" Int64 [PInt 1];
                                  MkColumn "Count" NullType [PNone];
                                  MkColumn "Intensity" NullType [PNone];
                                  MkColumn "Well" NullType [PNone] ] ]}
         [ EvWrite "/data/image.parquet" ],
       inr "/data/image.parquet").
Proof. repeat split; vm_compute; reflexivity. Qed.


(** ** The column sort key and the stable sort by it *)

Section SortedByKey.
Context {A : Type} (key : A → nat).

Lemma insert_by_key_perm (x : A) (l : list A) : insert_by_key key x l ≡ₚ x :: l.
Proof.
  induction l as [|y l IH]; [done|]. cbn [insert_by_key].
  destruct (key x <=? key y)%nat; [done|].
  rewrite IH. apply perm_swap.
Qed.

Lemma sorted_perm (l : list A) : sorted key l ≡ₚ l.
Proof.
  induction l as [|x l IH]; [done|].
  unfold sorted in *. cbn [foldr]. by rewrite insert_by_key_perm, IH.
Qed.

Lemma insert_by_key_sorted (x : A) (l : list A) :
  StronglySorted (λ a b, key a ≤ key b)%nat l →
  StronglySorted (λ a b, key a ≤ key b)%nat (insert_by_key key x l).
Proof.
  induction 1 as [|y l Hl IH Hy]; [by repeat constructor|].
  cbn [insert_by_key]. destruct (key x <=? key y)%nat eqn:Hle.
  - apply Nat.leb_le in Hle. constructor; [by constructor|].
    constructor; [done|]. eapply Forall_impl; [exact Hy|]. cbn. lia.
  - apply Nat.leb_gt in Hle. constructor; [done|].
    rewrite insert_by_key_perm. constructor; [lia|done].
Qed.

Lemma sorted_sorted (l : list A) :
  StronglySorted (λ a b, key a ≤ key b)%nat (sorted key l).
Proof.
  induction l as [|x l IH]; [constructor|].
  unfold sorted in *. cbn [foldr]. by apply insert_by_key_sorted.
Qed.

Lemma strongly_sorted_lookup (R : A → A → Prop) (l : list A) (i j : nat) (a b : A) :
  StronglySorted R l → (i < j)%nat → l !! i = Some a → l !! j = Some b → R a b.
Proof.
  intros Hs. revert i j. induction Hs as [|x l Hl IH Hx]; intros i j Hij Hi Hj; [done|].
  destruct j as [|j]; [lia|]. cbn in Hj.
  destruct i as [|i]; cbn in Hi.
  - injection Hi as <-. eapply Forall_forall in Hx; [exact Hx|].
    by eapply list_elem_of_lookup_2.
  - eapply (IH i j); [lia|done..].
Qed.

Lemma insert_by_key_filter (k : nat) (x : A) (l : list A) :
  filter (λ y, key y = k) (insert_by_key key x l) = filter (λ y, key y = k) (x :: l).
Proof.
  induction l as [|y l IH]; [done|]. cbn [insert_by_key].
  destruct (key x <=? key y)%nat eqn:Hle; [done|].
  apply Nat.leb_gt in Hle.
  rewrite (filter_cons _ y), IH, !(filter_cons _ x), !(filter_cons _ y).
  destruct (decide (key x = k)), (decide (key y = k)); try done. lia.
Qed.

(** The sort is stable: columns of equal key keep their source order. *)
Lemma sorted_stable (k : nat) (l : list A) :
  filter (λ y, key y = k) (sorted key l) = filter (λ y, key y = k) l.
Proof.
  induction l as [|x l IH]; [done|].
  unfold sorted in *. cbn [foldr].
  by rewrite insert_by_key_filter, !(filter_cons _ x), IH.
Qed.

End SortedByKey.

Lemma startswith_comparable (l p q : string) :
  PyStr.startswith l p = true → PyStr.startswith l q = true →
  PyStr.startswith p q = true ∨ PyStr.startswith q p = true.
Proof.
  revert p q. induction l as [|c l IH]; intros p q Hp Hq.
  - destruct p; [|done]. right. by destruct q.
  - destruct p as [|a p]; [right; by destruct q|].
    destruct q as [|b q]; [by left|].
    cbn in Hp, Hq |- *.
    destruct (decide (a = c)) as [->|]; [|done].
    destruct (decide (b = c)) as [->|]; [|done].
    rewrite !decide_True by done. by apply IH.
Qed.

Lemma first_prefix_lookup (l : string) (k i : nat) (ps : list string) (p : string) :
  ps !! i = Some p →
  PyStr.startswith l p = true →
  (∀ j q, (j < i)%nat → ps !! j = Some q → PyStr.startswith l q = false) →
  first_prefix l k ps = Some (k + i)%nat.
Proof.
  revert k i. induction ps as [|q ps IH]; intros k i Hi Hp Hmin; [done|].
  cbn [first_prefix]. destruct i as [|i]; cbn in Hi.
  - injection Hi as ->. rewrite Hp. f_equal. lia.
  - rewrite (Hmin 0%nat q); [|lia|done].
    rewrite (IH (S k) i); [f_equal; lia|done|done|].
    intros j r Hj Hr. apply (Hmin (S j)); [lia|done].
Qed.

(** The entity prefixes exclude one another: a name starts with at most
    one of them. *)
Lemma sort_later_exclusive (l : string) (i j : nat) (p q : string) :
  sort_later !! i = Some p → sort_later !! j = Some q →
  PyStr.startswith l p = true → PyStr.startswith l q = true → i = j.
Proof.
  intros Hi Hj Hp Hq.
  destruct (startswith_comparable l p q Hp Hq) as [H|H];
    do 5 (try destruct i as [|i]); try done;
    do 5 (try destruct j as [|j]); try done;
    cbn in Hi, Hj; simplify_eq; done.
Qed.

Lemma column_sort_first (v : string) (i : nat) :
  sort_first !! i = Some (PyStr.lower v) → _column_sort v = i.
Proof.
  intros Hi. unfold _column_sort. cbn zeta.
  do 7 (try destruct i as [|i]); try done; cbn in Hi; injection Hi as <-; done.
Qed.

Lemma column_sort_not_first (v : string) :
  PyStr.lower v ∉ sort_first →
  _column_sort v =
    if PyStr.contains (PyStr.lower v) sort_middle then 6%nat
    else if existsb (PyStr.startswith (PyStr.lower v)) sort_later
         then default 11%nat (first_prefix (PyStr.lower v) 7 sort_later)
         else 11%nat.
Proof.
  intros Hnot. unfold _column_sort, PyStr.in_list. cbn zeta.
  by rewrite bool_decide_eq_false_2.
Qed.

(** What [write_parquet] leaves at the destination: the table of the
    record as it stands, columns in their source order. *)
Lemma write_parquet_file (r : record) (dest_path : string) (unique_name : bool)
    (t : Table) (st : state) :
  table r = Some t →
  files (write_parquet r dest_path unique_name st).1
    !! to_string (write_destination r dest_path unique_name) = Some (ParquetFile t).
Proof.
  intros Ht. unfold write_parquet. rewrite Ht. cbn. apply lookup_insert_eq.
Qed.

(** C3, as the claim states it, fails: the writer of
    [src/pycytominer_transform/convert.py] serialises the columns in source
    order, where the comparator would put ImageNumber first. *)
Lemma write_parquet_keeps_source_order :
  let t := [ MkColumn "Cells_AreaShape_Area" Int64 [PInt 10];
             MkColumn "ImageNumber" Int64 [PInt 1] ] in
  let r := MkRecord (of_string "/data/plate1/cells.csv") (Some t) None in
  files (write_parquet r "dest" false (MkState ∅ [])).1 !! "dest/cells.parquet"
    = Some (ParquetFile t) ∧
  column_names t = ["Cells_AreaShape_Area"; "ImageNumber"] ∧
  sorted_columns (column_names t) = ["ImageNumber"; "Cells_AreaShape_Area"].
Proof. repeat split; vm_compute; reflexivity. Qed.

(** C3 (amended). Sorting column names with [_column_sort] as the key (its
    documented use) gives a deterministic order that is a stable
    rearrangement of the source order by ascending key, where the key puts
    the identifier columns first in their fixed order (table number, image
    number, object number; indices 0 to 5 of [sort_first], matched on the
    lowercased name), then every other column containing "metadata" (6),
    then the other columns starting with image, cytoplasm, cells, nuclei
    (7 to 10, by which prefix matches), and all remaining columns last
    (11). [write_parquet] itself writes the table of the record as it is,
    in source order. *)
Theorem column_sort_order (names : list string) :
  sorted_columns names ≡ₚ names ∧
  (∀ i j a b, (i < j)%nat →
     sorted_columns names !! i = Some a → sorted_columns names !! j = Some b →
     (_column_sort a ≤ _column_sort b)%nat) ∧
  (∀ k, filter (λ x, _column_sort x = k) (sorted_columns names)
        = filter (λ x, _column_sort x = k) names) ∧
  (∀ v i, sort_first !! i = Some (PyStr.lower v) → _column_sort v = i) ∧
  (∀ v, PyStr.lower v ∉ sort_first →
        PyStr.contains (PyStr.lower v) sort_middle = true →
        _column_sort v = 6%nat) ∧
  (∀ v i p, PyStr.lower v ∉ sort_first →
        PyStr.contains (PyStr.lower v) sort_middle = false →
        sort_later !! i = Some p →
        PyStr.startswith (PyStr.lower v) p = true →
        _column_sort v = (7 + i)%nat) ∧
  (∀ v, PyStr.lower v ∉ sort_first →
        PyStr.contains (PyStr.lower v) sort_middle = false →
        (∀ p, p ∈ sort_later → PyStr.startswith (PyStr.lower v) p = false) →
        _column_sort v = 11%nat) ∧
  (∀ r dest_path unique_name t st,
     table r = Some t →
     files (write_parquet r dest_path unique_name st).1
       !! to_string (write_destination r dest_path unique_name) = Some (ParquetFile t)).
Proof.
  split; [apply sorted_perm|].
  split; [intros i j a b Hij Ha Hb;
          exact (strongly_sorted_lookup (λ x y, _column_sort x ≤ _column_sort y)%nat
                   _ i j a b (sorted_sorted _column_sort names) Hij Ha Hb)|].
  split; [intros k; apply sorted_stable|].
  split; [apply column_sort_first|].
  split; [|split; [|split]].
  - intros v Hnot Hmid. by rewrite column_sort_not_first, Hmid.
  - intros v i p Hnot Hmid Hi Hp. rewrite column_sort_not_first, Hmid by done.
    assert (existsb (PyStr.startswith (PyStr.lower v)) sort_later = true) as ->.
    { apply existsb_exists. exists p. split; [|done].
      apply list_elem_of_In. by eapply list_elem_of_lookup_2. }
    rewrite (first_prefix_lookup _ 7 i sort_later p); [done..|].
    intros j q Hj Hq. destruct (PyStr.startswith (PyStr.lower v) q) eqn:Hsq; [|done].
    pose proof (sort_later_exclusive _ _ _ _ _ Hi Hq Hp Hsq). lia.
  - intros v Hnot Hmid Hnone. rewrite column_sort_not_first, Hmid by done.
    destruct (existsb _ sort_later) eqn:Hex; [|done].
    apply existsb_exists in Hex as (p & Hin & Hp).
    apply list_elem_of_In in Hin. by rewrite Hnone in Hp.
  - intros r dest_path unique_name t st Ht. by apply write_parquet_file.
Qed.

Lemma column_sort_order_witness :
  _column_sort "Metadata_ImageNumber" = 3%nat ∧
  _column_sort "Image_Metadata_Well" = 6%nat ∧
  _column_sort "Cells_AreaShape_Area" = 9%nat ∧
  _column_sort "AreaShape_Area" = 11%nat.
Proof.
  destruct (column_sort_order []) as (_ & _ & _ & Hfirst & Hmid & Hlater & Hlast & _).
  split; [|split; [|split]].
  - apply Hfirst. reflexivity.
  - apply Hmid; [not_in_list|reflexivity].
  - apply (Hlater _ 2%nat "cells"); [not_in_list|reflexivity..].
  - apply Hlast; [not_in_list|reflexivity|].
    intros p Hp. vm_compute in Hp.
      repeat (apply elem_of_cons in Hp as [->|Hp]; [reflexivity|]).
      by apply not_elem_of_nil in Hp.
Defined.

(** ** The monad of effects *)

Lemma run_bind {A B} (m : M A) (k : A → M B) (st : state) :
  (m ≫= k) st = match m st with
                | (st', inr x) => k x st'
                | (st', inl e) => (st', inl e)
                end.
Proof. reflexivity. Qed.

Lemma run_fmap {A B} (f : A → B) (m : M A) (st : state) :
  (f <$> m) st = match m st with
                 | (st', inr x) => (st', inr (f x))
                 | (st', inl e) => (st', inl e)
                 end.
Proof. unfold fmap, M_fmap, bind. by destruct (m st) as [st' [e|x]]. Qed.

Lemma run_mret {A} (x : A) (st : state) : (mret x : M A) st = (st, inr x).
Proof. reflexivity. Qed.

Lemma for_each_cons {A B} (f : A → M B) (x : A) (l : list A) (st : state) :
  for_each f (x :: l) st =
    match f x st with
    | (st1, inr y) =>
        match for_each f l st1 with
        | (st2, inr ys) => (st2, inr (y :: ys))
        | (st2, inl e) => (st2, inl e)
        end
    | (st1, inl e) => (st1, inl e)
    end.
Proof.
  cbn [for_each]. rewrite run_bind. destruct (f x st) as [st1 [e|y]]; [done|].
  rewrite run_bind. by destruct (for_each f l st1) as [st2 [e|ys]].
Qed.

(** Every element of the result of a loop that ended well was returned by
    the body on the element at the same place. *)
Lemma for_each_inv {A B} (f : A → M B) (l : list A) (st st' : state) (ys : list B) :
  for_each f l st = (st', inr ys) →
  Forall2 (λ x y, ∃ s1 s2, f x s1 = (s2, inr y)) l ys.
Proof.
  revert st ys. induction l as [|x l IH]; intros st ys Hrun.
  - injection Hrun as _ <-. constructor.
  - rewrite for_each_cons in Hrun.
    destruct (f x st) as [st1 [e|y]] eqn:Hx; [done|].
    destruct (for_each f l st1) as [st2 [e|ys']] eqn:Hl; [done|].
    injection Hrun as -> <-. constructor; [by eauto|]. by eapply IH.
Qed.

(** A loop whose body neither fails nor touches the state. *)
Lemma for_each_pure {A B} (f : A → M B) (h : A → B) (l : list A) (st : state) :
  Forall (λ x, f x st = (st, inr (h x))) l →
  for_each f l st = (st, inr (h <$> l)).
Proof.
  induction 1 as [|x l Hx _ IH]; [done|].
  rewrite for_each_cons, Hx. cbv beta iota. by rewrite IH.
Qed.

Lemma for_items_run {A B} (f : string → A → M B) (m : gmap string A) (st : state) :
  for_items f m st =
    match for_each (λ kv, v ← f kv.1 kv.2; mret (kv.1, v)) (map_to_list m) st with
    | (st', inr l) => (st', inr (list_to_map l))
    | (st', inl e) => (st', inl e)
    end.
Proof. unfold for_items. by rewrite run_fmap. Qed.

Lemma for_items_inv {A B} (f : string → A → M B) (m : gmap string A)
    (st st' : state) (out : gmap string B) :
  for_items f m st = (st', inr out) →
  ∀ k v, m !! k = Some v → ∃ s1 s2 w, f k v s1 = (s2, inr w) ∧ out !! k = Some w.
Proof.
  rewrite for_items_run.
  destruct (for_each _ (map_to_list m) st) as [st1 [e|l]] eqn:Hrun; [done|].
  intros [= _ <-] k v Hk.
  apply for_each_inv in Hrun.
  assert (l.*1 = (map_to_list m).*1) as Hkeys.
  { clear Hk. induction Hrun as [|[k1 v1] [k2 w2] l1 l2 (s1 & s2 & Hy) _ IH]; [done|].
    cbn. f_equal; [|done]. cbn in Hy. rewrite run_bind in Hy.
    destruct (f k1 v1 s1) as [s3 [e|w]]; [done|]. by injection Hy as _ <- _. }
  apply elem_of_map_to_list in Hk.
  apply list_elem_of_lookup in Hk as [i Hi].
  destruct (Forall2_lookup_l _ _ _ _ _ Hrun Hi) as ([k' w] & Hw & s1 & s2 & Hy).
  cbn in Hy. rewrite run_bind in Hy.
  destruct (f k v s1) as [s3 [e|w']] eqn:Hf; [done|].
  injection Hy as Hs Hk' Hw'. subst s2 k' w. exists s1, s3, w'. split; [done|].
  apply elem_of_list_to_map_1.
  - rewrite Hkeys. apply NoDup_fst_map_to_list.
  - by eapply list_elem_of_lookup_2.
Qed.

Lemma for_items_pure {A B} (f : string → A → M B) (h : A → B) (m : gmap string A)
    (st : state) :
  (∀ k v, m !! k = Some v → f k v st = (st, inr (h v))) →
  for_items f m st = (st, inr (h <$> m)).
Proof.
  intros Hf. rewrite for_items_run.
  rewrite (for_each_pure _ (prod_map id h)).
  - by rewrite list_to_map_fmap, list_to_map_to_list.
  - apply Forall_forall. intros [k v] Hkv%elem_of_map_to_list.
    cbn. rewrite run_bind, (Hf k v) by done. done.
Qed.

(** ** Concatenation of record groups *)

Lemma concat_records_step_small (dest_path : option string) (g : list record) (st : state) :
  (length g < 2)%nat → concat_records_step dest_path g st = (st, inr (Plain g)).
Proof.
  intros Hlen. unfold concat_records_step.
  by rewrite (proj2 (Nat.ltb_lt _ _) Hlen).
Qed.

(** What holds of a record group of fewer than two members in
    [concat_records]: the loop body for it returns the group as it is,
    without any effect on the files (nothing created, nothing deleted, no
    event); the result of the stage holds the same records under the same
    key; and when every group is that small the whole stage returns its
    input and leaves the files as they were. What the concatenation of
    another group does to the files is not bounded by this. *)
Theorem concat_records_small_group_unchanged
    (records : gmap string (list record)) (dest_path : option string) (st : state) :
  (∀ g, (length g < 2)%nat →
        concat_records_step dest_path g st = (st, inr (Plain g))) ∧
  (∀ st' out k g,
     concat_records records dest_path st = (st', inr out) →
     records !! k = Some g → (length g < 2)%nat →
     out !! k = Some g) ∧
  ((∀ k g, records !! k = Some g → (length g < 2)%nat) →
   concat_records records dest_path st = (st, inr records)).
Proof.
  split; [intros g Hg; by apply concat_records_step_small|]. split.
  - intros st' out k g Hrun Hk Hlen.
    unfold concat_records in Hrun. rewrite run_bind in Hrun.
    destruct (for_items _ records st) as [st1 [e|slots]] eqn:Hslots; [done|].
    destruct (for_items_inv _ _ _ _ _ Hslots k g Hk) as (s1 & s2 & w & Hstep & Hw).
    cbn beta in Hstep. rewrite concat_records_step_small in Hstep by done.
    injection Hstep as _ <-.
    destruct (for_items_inv _ _ _ _ _ Hrun k (Plain g) Hw) as (s3 & s4 & w' & Hres & Hout).
    cbn in Hres. by injection Hres as _ <-.
  - intros Hall. unfold concat_records. rewrite run_bind.
    rewrite (for_items_pure _ Plain).
    + rewrite (for_items_pure _ (λ v, match v with Plain g => g | Future _ => [] end)).
      * f_equal. f_equal. rewrite <- map_fmap_compose. apply map_fmap_id.
      * intros k v Hv. apply lookup_fmap_Some in Hv as (g & <- & _). done.
    + intros k g Hk. apply concat_records_step_small. by eapply Hall.
Qed.

(** A group of one written file: the record comes back as it went in and
    the state is the one before. *)
Lemma concat_records_small_group_unchanged_witness :
  concat_records
    {[ "image.csv" := [ MkRecord (of_string "/data/p1/image.csv") None
                          (Some (of_string "dest/image.parquet")) ] ]}
    (Some "dest") (MkState ∅ [])
  = (MkState ∅ [],
     inr {[ "image.csv" := [ MkRecord (of_string "/data/p1/image.csv") None
                               (Some (of_string "dest/image.parquet")) ] ]}).
Proof.
  apply (proj2 (proj2 (concat_records_small_group_unchanged _ _ _))).
  intros k g Hk. apply lookup_singleton_Some in Hk as [_ <-]. cbn. lia.
Defined.

(** C10 on the code: with the targets a.cells and cells, the source
    /data/x/a.cells.csv is a group of one and /data/a/p1/cells.csv,
    /data/a/p2/cells.csv a group of two. [to_parquet] writes the artifact
    of the group of one at dest/a.cells.parquet; the merged file of the
    group of two is named after the grandparent directory a and the stem
    cells, dest/a.cells.parquet as well. The concatenation stage returns
    normally, with the record of the group of one as it was, but the file
    that record names has been removed and then written again with the
    rows of the other group. *)
Theorem concat_records_replaces_small_group_artifact :
  let pa := of_string "/data/x/a.cells.csv" in
  let p1 := of_string "/data/a/p1/cells.csv" in
  let p2 := of_string "/data/a/p2/cells.csv" in
  let ta := [ MkColumn "ObjectNumber" Int64 [PInt 7] ] in
  let t1 := [ MkColumn "ObjectNumber" Int64 [PInt 1] ] in
  let t2 := [ MkColumn "ObjectNumber" Int64 [PInt 2] ] in
  let small := MkRecord pa None (Some (of_string "dest/a.cells.parquet")) in
  let r1 := MkRecord p1 None (Some (of_string "dest/p1.cells.parquet")) in
  let r2 := MkRecord p2 None (Some (of_string "dest/p2.cells.parquet")) in
  let merged := MkRecord (of_string "/data/a/cells") None
                  (Some (of_string "dest/a.cells.parquet")) in
  let sources : gmap string file :=
    {[ to_string pa := CsvFile ta; to_string p1 := CsvFile t1;
       to_string p2 := CsvFile t2 ]} in
  let written := MkState {[ "dest/a.cells.parquet" := ParquetFile ta;
                            "dest/p1.cells.parquet" := ParquetFile t1;
                            "dest/p2.cells.parquet" := ParquetFile t2 ]} [] in
  (let chunks :=
     to_parquet {[ "a.cells.csv" := [ MkRecord pa None None ];
                   "cells.csv" := [ MkRecord p1 None None; MkRecord p2 None None ] ]}
       "dest" false (MkState sources []) in
   chunks.2 = inr {[ "a.cells.csv" := [small]; "cells.csv" := [r1; r2] ]} ∧
   files chunks.1 !! "dest/a.cells.parquet" = Some (ParquetFile ta)) ∧
  concat_records {[ "a.cells.csv" := [small]; "cells.csv" := [r1; r2] ]}
      (Some "dest") written
    = (MkState {[ "dest/a.cells.parquet" :=
                    ParquetFile [ MkColumn "ObjectNumber" Int64 [PInt 1; PInt 2] ] ]}
         [ EvUnlink "dest/a.cells.parquet";
           EvRead "dest/p1.cells.parquet"; EvOpenWriter "dest/a.cells.parquet";
           EvRead "dest/p1.cells.parquet"; EvAppend "dest/a.cells.parquet" t1;
           EvUnlink "dest/p1.cells.parquet";
           EvRead "dest/p2.cells.parquet"; EvAppend "dest/a.cells.parquet" t2;
           EvUnlink "dest/p2.cells.parquet";
           EvCloseWriter "dest/a.cells.parquet" ],
       inr {[ "a.cells.csv" := [small]; "cells.csv" := [merged] ]}) ∧
  (let done := convert [ MkEntry pa true; MkEntry p1 true; MkEntry p2 true ]
                 "dest" "parquet" None (Some ["a.cells"; "cells"]) true
                 (MkState sources []) in
   done.2 = inr {[ "a.cells.csv" := [small]; "cells.csv" := [merged] ]} ∧
   files done.1 !! "dest/a.cells.parquet"
     = Some (ParquetFile [ MkColumn "ObjectNumber" Int64 [PInt 1; PInt 2] ])).
Proof. repeat split; vm_compute; reflexivity. Qed.



(** ** Tables: schemas, projection, appending *)

Lemma column_names_schema (t : Table) : column_names t = (schema t).*1.
Proof. unfold column_names, schema. by rewrite <- list_fmap_compose. Qed.

Lemma schema_append_rows (a b : Table) :
  schema a = schema b → schema (append_rows a b) = schema a.
Proof.
  revert b. induction a as [|ca a IH]; intros [|cb b] Heq; try done.
  injection Heq as _ _ Heq. unfold append_rows in *. cbn. f_equal. by apply IH.
Qed.

Lemma schema_empty_like (t : Table) : schema (empty_like t) = schema t.
Proof. unfold schema, empty_like. by rewrite <- list_fmap_compose. Qed.

Lemma schema_foldl_append_rows (t0 : Table) (ts : list Table) :
  Forall (λ t, schema t = schema t0) ts →
  schema (foldl append_rows t0 ts) = schema t0.
Proof.
  revert t0. induction ts as [|t ts IH]; intros t0 Hall; [done|].
  apply Forall_cons in Hall as [Ht Hts]. cbn [foldl].
  rewrite IH; [by apply schema_append_rows|].
  eapply Forall_impl; [exact Hts|]. cbn. intros t' ->.
  symmetry. by apply schema_append_rows.
Qed.

Lemma fmap_nodup_lookup_inj {A B} (f : A → B) (l : list A) (i j : nat) (x y : A) :
  NoDup (f <$> l) → l !! i = Some x → l !! j = Some y → f x = f y → i = j.
Proof.
  intros Hnd Hi Hj Hf. eapply NoDup_lookup; [exact Hnd| |].
  - by rewrite list_lookup_fmap, Hi.
  - by rewrite list_lookup_fmap, Hj, Hf.
Qed.

(** In a table whose column names are distinct, looking a field of the
    schema up by name finds the column of that name and type. *)
Lemma find_column_field (t : Table) (n : string) (ty : DataType) :
  NoDup (column_names t) → (n, ty) ∈ schema t →
  ∃ c, find_column n t = Some c ∧ col_name c = n ∧ col_type c = ty.
Proof.
  intros Hnd Hin. unfold schema in Hin.
  apply list_elem_of_fmap in Hin as (c & [= -> ->] & Hc).
  apply list_elem_of_lookup in Hc as [i Hi].
  unfold find_column.
  destruct (list_find (λ c0, col_name c0 = col_name c) t) as [[j c']|] eqn:Hfind.
  - apply list_find_Some in Hfind as (Hj & Hname & _).
    assert (j = i) as -> by (by eapply (fmap_nodup_lookup_inj col_name t)).
    rewrite Hi in Hj. injection Hj as <-. by exists c.
  - apply list_find_None in Hfind. eapply Forall_lookup_1 in Hfind; [|exact Hi]. done.
Qed.

(** Projecting a table onto the column names of another of the same
    fields, in whatever order, gives the schema of that other table. *)
Lemma select_permuted (t0 t : Table) :
  NoDup (column_names t0) → schema t ≡ₚ schema t0 →
  ∃ t', select (column_names t0) t = Some t' ∧ schema t' = schema t0.
Proof.
  intros Hnd Hperm.
  assert (NoDup (column_names t)) as Hnd'.
  { rewrite column_names_schema in *. by rewrite Hperm. }
  assert (∀ fields : list (string * DataType),
            fields ⊆ schema t0 →
            ∃ t', mapM (λ n, find_column n t) fields.*1 = Some t' ∧ schema t' = fields)
    as Hgen.
  { induction fields as [|[n ty] fields IH]; intros Hsub.
    - exists []. done.
    - destruct IH as (t' & Ht' & Hs'); [set_solver|].
      destruct (find_column_field t n ty) as (c & Hc & Hn & Hty); [done| |].
      { rewrite Hperm. apply Hsub. left. }
      exists (c :: t'). split.
      + cbn. rewrite Hc. cbn. by rewrite Ht'.
      + change (schema (c :: t')) with ((col_name c, col_type c) :: schema t').
        by rewrite Hn, Hty, Hs'. }
  unfold select. rewrite column_names_schema. by apply Hgen.
Qed.

(** ** The primitives of the streaming concatenation *)

Lemma read_table_run (path : string) (columns : option (list string)) (st : state) :
  read_table path columns st =
    (MkState (files st) (trace st ++ [EvRead path]),
     match files st !! path with
     | Some (ParquetFile t) =>
         match columns with
         | None => inr t
         | Some names =>
             match select names t with
             | Some t' => inr t'
             | None => inl ArrowInvalid
             end
         end
     | Some _ => inl ArrowInvalid
     | None => inl FileNotFoundError
     end).
Proof.
  unfold read_table. rewrite !run_bind. cbn.
  destruct (files st !! path) as [[t|t| |db]|]; try done.
  destruct columns as [names|]; [|done].
  by destruct (select names t).
Qed.

Lemma unlink_run (path : string) (st : state) :
  unlink path st =
    match files st !! path with
    | Some _ => (MkState (delete path (files st)) (trace st ++ [EvUnlink path]), inr ())
    | None => (st, inl FileNotFoundError)
    end.
Proof.
  unfold unlink. rewrite !run_bind. cbn.
  by destruct (files st !! path).
Qed.

Lemma write_table_run (w : writer) (t : Table) (st : state) :
  write_table w t st =
    if decide (schema t = w_schema w)
    then (MkState (files st) (trace st ++ [EvAppend (w_path w) t]),
          inr (MkWriter (w_path w) (w_schema w) (append_rows (w_rows w) t)))
    else (st, inl ValueError).
Proof. unfold write_table. by case_decide. Qed.

Lemma open_writer_run (path : string) (basis : Table) (st : state) :
  open_writer path basis st =
    (MkState (<[path := PartialParquet]> (files st)) (trace st ++ [EvOpenWriter path]),
     inr (MkWriter path (schema basis) (empty_like basis))).
Proof. reflexivity. Qed.

Lemma close_writer_run (w : writer) (st : state) :
  close_writer w st =
    (MkState (<[w_path w := ParquetFile (w_rows w)]> (files st))
       (trace st ++ [EvCloseWriter (w_path w)]), inr ()).
Proof. reflexivity. Qed.

Lemma release_on_error_run {A} (w : writer) (m : M A) (st : state) :
  release_on_error w m st =
    match m st with
    | (st', inl e) => (released w st', inl e)
    | (st', inr x) => (st', inr x)
    end.
Proof. reflexivity. Qed.

Lemma append_members_cons (w : writer) (columns : list string) (tbl : string)
    (rest : list string) (st : state) :
  append_members w columns (tbl :: rest) st =
    match read_table tbl (Some columns) st with
    | (st1, inr t) =>
        match write_table w t st1 with
        | (st2, inr w') =>
            match unlink tbl st2 with
            | (st3, inr _) => append_members w' columns rest st3
            | (st3, inl e) => (released w' st3, inl e)
            end
        | (st2, inl e) => (released w st2, inl e)
        end
    | (st1, inl e) => (released w st1, inl e)
    end.
Proof.
  cbn [append_members]. rewrite run_bind, release_on_error_run.
  destruct (read_table tbl (Some columns) st) as [st1 [e|t]]; [done|].
  rewrite run_bind, release_on_error_run.
  destruct (write_table w t st1) as [st2 [e|w']]; [done|].
  rewrite run_bind, release_on_error_run.
  by destruct (unlink tbl st2) as [st3 [e|[]]].
Qed.

(** The loop on members that are there, distinct, and of the writer's
    fields: it ends well, every member file is gone afterwards, no other
    path is touched, and the writer keeps its schema. *)
Lemma append_members_ok (columns : list string) (sch : list (string * DataType))
    (tables : list string) (tabs : list Table) :
  ∀ (w : writer) (st : state),
    NoDup tables →
    Forall2 (λ p t, files st !! p = Some (ParquetFile t) ∧
                    ∃ t', select columns t = Some t' ∧ schema t' = sch) tables tabs →
    w_schema w = sch → schema (w_rows w) = sch →
    ∃ w' st',
      append_members w columns tables st = (st', inr w') ∧
      w_path w' = w_path w ∧ schema (w_rows w') = sch ∧
      (∀ p, p ∈ tables → files st' !! p = None) ∧
      (∀ q, q ∉ tables → files st' !! q = files st !! q).
Proof.
  revert tabs. induction tables as [|p tables IH]; intros tabs w st Hnd Hall Hsch Hrows.
  - exists w, st. repeat split; try done. intros p Hp. by apply not_elem_of_nil in Hp.
  - apply Forall2_cons_inv_l in Hall as (t & tabs' & (Hp & t' & Hsel & Ht') & Hall & ->).
    apply NoDup_cons in Hnd as [Hnotin Hnd].
    rewrite append_members_cons, read_table_run, Hp, Hsel.
    rewrite write_table_run, decide_True by congruence.
    rewrite unlink_run. cbn [files trace]. rewrite Hp.
    match goal with
    | |- context [append_members ?w1 _ _ ?s] =>
        destruct (IH tabs' w1 s)
          as (w' & st' & Hrun & Hpath & Hschema & Hgone & Hkept); [exact Hnd| |exact Hsch| |]
    end.
    + apply Forall2_same_length_lookup in Hall as [Hlen Hall].
      apply Forall2_same_length_lookup. split; [done|].
      intros i q tq Hq Htq. destruct (Hall i q tq Hq Htq) as [Hfile Hsq].
      split; [|done]. cbn. rewrite lookup_delete_ne; [done|].
      intros ->. apply Hnotin. by eapply list_elem_of_lookup_2.
    + cbn. rewrite schema_append_rows; congruence.
    + exists w', st'. split; [exact Hrun|]. split; [done|]. split; [done|]. split.
      * intros q [->|Hq]%elem_of_cons; [|by apply Hgone].
        rewrite Hkept by done. cbn. apply lookup_delete_eq.
      * intros q Hq. apply not_elem_of_cons in Hq as [Hne Hq].
        rewrite Hkept by done. cbn. by apply lookup_delete_ne.
Qed.

Lemma forallb_schema_Forall (t0 : Table) (ts : list Table) :
  forallb (λ t, bool_decide (schema t = schema t0)) ts = true
  ↔ Forall (λ t, schema t = schema t0) ts.
Proof.
  rewrite forallb_forall, Forall_forall. split; intros H t Ht.
  - apply list_elem_of_In in Ht. apply H in Ht. by apply bool_decide_eq_true in Ht.
  - apply bool_decide_eq_true. apply H. by apply list_elem_of_In.
Qed.

Lemma collect_key_run {A} (get : record → option A) (g : list record) (l : list A)
    (st : state) :
  Forall2 (λ r x, get r = Some x) g l → collect_key get g st = (st, inr l).
Proof.
  intros Hall. unfold collect_key.
  by rewrite (proj2 (mapM_Some get g l) Hall).
Qed.

(** The streaming concatenation of written member files that are there,
    pairwise distinct, other than the merged file, and whose schemas are
    rearrangements of the first member's. *)
Lemma concat_record_group_streaming (first : record) (rest : list record)
    (dest_path : option string) (st : state) (dests : list Path)
    (t0 : Table) (tabs : list Table) :
  Forall2 (λ r d, table r = None ∧ destination_path r = Some d) (first :: rest) dests →
  Forall2 (λ d t, files st !! to_string d = Some (ParquetFile t)) dests (t0 :: tabs) →
  NoDup (to_string <$> dests) →
  to_string (concat_destination dest_path (source_path first)) ∉ to_string <$> dests →
  NoDup (column_names t0) →
  Forall (λ t, schema t ≡ₚ schema t0) tabs →
  ∃ st' out,
    concat_record_group (first :: rest) dest_path st
      = (st', inr [ MkRecord (concat_source_path (source_path first)) None
                      (Some (concat_destination dest_path (source_path first))) ]) ∧
    files st' !! to_string (concat_destination dest_path (source_path first))
      = Some (ParquetFile out) ∧
    column_names out = column_names t0 ∧
    schema out = schema t0 ∧
    ∀ d, d ∈ dests → files st' !! to_string d = None.
Proof.
  intros Hrecs Hfiles Hnd Hdest Hcols Hperm.
  set (destination := to_string (concat_destination dest_path (source_path first))) in *.
  destruct dests as [|d0 dests']; [by apply Forall2_cons_nil_inv in Hrecs|].
  pose proof Hrecs as Hrecs0. apply Forall2_cons_1 in Hrecs0 as [[Htab Hd0] _].
  pose proof Hfiles as Hfiles0. apply Forall2_cons_1 in Hfiles0 as [Hf0 _].
  (* the state after the removal of a stale merged file *)
  assert (∃ st1, (if bool_decide (is_Some (files st !! destination))
                  then unlink destination else mret ()) st = (st1, inr ())
                 ∧ files st1 = delete destination (files st)) as (st1 & Hclean & Hst1).
  { case_bool_decide as Hex.
    - rewrite unlink_run. destruct Hex as [f Hf]. rewrite Hf. eauto.
    - exists st. split; [done|]. symmetry. apply delete_id.
      by apply eq_None_not_Some. }
  assert (∀ d, d ∈ d0 :: dests' → to_string d ≠ destination) as Hne.
  { intros d Hd Heq. apply Hdest. rewrite <- Heq. by apply list_elem_of_fmap_2. }
  unfold concat_record_group. rewrite Htab, Hd0. cbv zeta. fold destination.
  rewrite run_bind. cbn [get_files]. cbv beta iota.
  rewrite run_bind, Hclean.
  rewrite run_bind, read_table_run, Hst1.
  rewrite lookup_delete_ne by (apply not_eq_sym, Hne; left).
  rewrite Hf0.
  rewrite run_bind, open_writer_run.
  rewrite run_bind, release_on_error_run, (collect_key_run _ _ (d0 :: dests')).
  2:{ eapply Forall2_impl; [exact Hrecs|]. by intros r d [_ ?]. }
  rewrite run_bind.
  match goal with
  | |- context [append_members ?w _ _ ?s] =>
      destruct (append_members_ok (column_names t0) (schema t0)
                  (to_string <$> d0 :: dests') (t0 :: tabs) w s)
        as (w' & st' & Hrun & Hpath & Hschema & Hgone & Hkept)
  end.
  - exact Hnd.
  - apply Forall2_fmap_l.
    apply Forall2_same_length_lookup in Hfiles as [Hlen Hfiles].
    apply Forall2_same_length_lookup. split; [done|].
    intros i d t Hd Ht. split.
    + cbn. rewrite lookup_insert_ne, lookup_delete_ne
        by (apply not_eq_sym, Hne; by eapply list_elem_of_lookup_2).
      by eapply Hfiles.
    + apply select_permuted; [done|].
      destruct i as [|i]; [by injection Ht as <-|].
      cbn in Ht. eapply Forall_lookup_1 in Hperm; [exact Hperm|exact Ht].
  - done.
  - cbn. apply schema_empty_like.
  - rewrite Hrun, run_bind, close_writer_run, Hpath. cbn [w_path].
    eexists _, (w_rows w'). split; [reflexivity|].
    cbn [files]. split; [apply lookup_insert_eq|].
    split; [by rewrite !column_names_schema, Hschema|]. split; [done|].
    intros d Hd. rewrite lookup_insert_ne by (apply not_eq_sym, Hne, Hd).
    apply Hgone. by apply list_elem_of_fmap_2.
Qed.

(** The in-memory concatenation: [pa.concat_tables] on the tables of the
    members. *)
Lemma concat_record_group_in_memory (first : record) (rest : list record)
    (dest_path : option string) (st : state) (t0 : Table) (tabs : list Table) :
  Forall2 (λ r t, table r = Some t) (first :: rest) (t0 :: tabs) →
  concat_record_group (first :: rest) dest_path st =
    (st, if forallb (λ t, bool_decide (schema t = schema t0)) tabs
         then inr [ MkRecord (concat_source_path (source_path first))
                      (Some (foldl append_rows t0 tabs)) None ]
         else inl ArrowInvalid).
Proof.
  intros Hall. pose proof Hall as Hall0. apply Forall2_cons_1 in Hall0 as [Ht0 _].
  unfold concat_record_group. rewrite Ht0. cbv zeta.
  rewrite run_bind, (collect_key_run _ _ (t0 :: tabs)) by done.
  cbn [concat_tables]. by destruct (forallb _ tabs).
Qed.

(** The in-memory branch does not project the members on the columns of
    the first one, as the streaming branch does: two members holding
    in-memory tables with the same columns in another order are not
    concatenated, [pa.concat_tables] refuses the second schema (the same
    tables reach that point through [convert] with destination "arrow"). *)
Lemma concat_in_memory_permuted_fails :
  let t1 := [ MkColumn "ImageNumber" Int64 [PInt 1]; MkColumn "Well" Utf8 [PStr "A01"] ] in
  let t2 := [ MkColumn "Well" Utf8 [PStr "B02"]; MkColumn "ImageNumber" Int64 [PInt 2] ] in
  let p1 := of_string "/data/plate1/image.csv" in
  let p2 := of_string "/data/plate2/image.csv" in
  let st := MkState {[ to_string p1 := CsvFile t1; to_string p2 := CsvFile t2 ]} [] in
  column_names t2 ≡ₚ column_names t1 ∧
  (concat_record_group [ MkRecord p1 (Some t1) None; MkRecord p2 (Some t2) None ] None st).2
    = inl ArrowInvalid ∧
  (convert [ MkEntry p1 true; MkEntry p2 true ] "dest" "arrow" None None true st).2
    = inl ArrowInvalid.
Proof.
  split; [apply perm_swap|]. split; vm_compute; reflexivity.
Qed.

(** C2, as the claim states it, fails: two written files with the same
    column names, one column being of another type in the second file, are
    not concatenated; the writer, created against the schema of the first
    file, refuses the table of the second. *)
Lemma concat_streaming_type_mismatch_fails :
  let t1 := [ MkColumn "ImageNumber" Int64 [PInt 1]; MkColumn "Well" Utf8 [PStr "A01"] ] in
  let t2 := [ MkColumn "Well" Utf8 [PStr "B02"]; MkColumn "ImageNumber" Float64 [PFloat 0] ] in
  let p1 := of_string "/data/plate1/image.csv" in
  let p2 := of_string "/data/plate2/image.csv" in
  let d1 := of_string "dest/plate1.image.parquet" in
  let d2 := of_string "dest/plate2.image.parquet" in
  let written := MkState {[ to_string d1 := ParquetFile t1;
                            to_string d2 := ParquetFile t2 ]} [] in
  column_names t2 ≡ₚ column_names t1 ∧
  (concat_record_group [ MkRecord p1 None (Some d1); MkRecord p2 None (Some d2) ]
     (Some "dest") written).2
    = inl ValueError.
Proof.
  split; [apply perm_swap|]. vm_compute; reflexivity.
Qed.

(** C2 (amended). In streaming mode (members are written columnar files,
    present, pairwise distinct and other than the merged file) a record
    group whose members' schemas, column names with their types, are
    rearrangements of the first member's (of distinct column names) is
    concatenated into a single artifact, the merged file, whose column
    order is the first member's, and every member file is gone afterwards.
    In in-memory mode a group whose members all have the first member's
    schema, in the first member's order, is concatenated into a single
    table with that column order. *)
Theorem concat_record_group_column_order (first : record) (rest : list record)
    (dest_path : option string) (st : state) (t0 : Table) (tabs : list Table) :
  (∀ dests,
     Forall2 (λ r d, table r = None ∧ destination_path r = Some d) (first :: rest) dests →
     Forall2 (λ d t, files st !! to_string d = Some (ParquetFile t)) dests (t0 :: tabs) →
     NoDup (to_string <$> dests) →
     to_string (concat_destination dest_path (source_path first)) ∉ to_string <$> dests →
     NoDup (column_names t0) →
     Forall (λ t, schema t ≡ₚ schema t0) tabs →
     ∃ st' out,
       concat_record_group (first :: rest) dest_path st
         = (st', inr [ MkRecord (concat_source_path (source_path first)) None
                         (Some (concat_destination dest_path (source_path first))) ]) ∧
       files st' !! to_string (concat_destination dest_path (source_path first))
         = Some (ParquetFile out) ∧
       column_names out = column_names t0 ∧
       ∀ d, d ∈ dests → files st' !! to_string d = None) ∧
  (Forall2 (λ r t, table r = Some t) (first :: rest) (t0 :: tabs) →
   Forall (λ t, schema t = schema t0) tabs →
   ∃ out,
     concat_record_group (first :: rest) dest_path st
       = (st, inr [ MkRecord (concat_source_path (source_path first)) (Some out) None ]) ∧
     column_names out = column_names t0).
Proof.
  split.
  - intros dests Hrecs Hfiles Hnd Hdest Hcols Hperm.
    destruct (concat_record_group_streaming first rest dest_path st dests t0 tabs)
      as (st' & out & Hrun & Hfile & Hnames & _ & Hgone); try done.
    by exists st', out.
  - intros Hall Hsame. rewrite (concat_record_group_in_memory _ _ _ _ t0 tabs) by done.
    rewrite (proj2 (forallb_schema_Forall t0 tabs)) by done.
    eexists. split; [reflexivity|].
    by rewrite !column_names_schema, schema_foldl_append_rows.
Qed.

(** Two written files with the same two columns in opposite orders. *)
Lemma concat_record_group_column_order_witness :
  ∃ st' out,
    concat_record_group
      [ MkRecord (of_string "/data/plate1/image.csv") None
          (Some (of_string "dest/plate1.image.parquet"));
        MkRecord (of_string "/data/plate2/image.csv") None
          (Some (of_string "dest/plate2.image.parquet")) ]
      (Some "dest")
      (MkState {[ "dest/plate1.image.parquet" :=
                    ParquetFile [ MkColumn "ImageNumber" Int64 [PInt 1];
                                  MkColumn "Well" Utf8 [PStr "A01"] ];
                  "dest/plate2.image.parquet" :=
                    ParquetFile [ MkColumn "Well" Utf8 [PStr "B02"];
                                  MkColumn "ImageNumber" Int64 [PInt 2] ] ]} [])
    = (st', inr [ MkRecord (of_string "/data/image") None
                    (Some (of_string "dest/data.image.parquet")) ]) ∧
    files st' !! "dest/data.image.parquet" = Some (ParquetFile out) ∧
    column_names out = ["ImageNumber"; "Well"].
Proof.
  destruct (proj1 (concat_record_group_column_order
    (MkRecord (of_string "/data/plate1/image.csv") None
       (Some (of_string "dest/plate1.image.parquet")))
    [ MkRecord (of_string "/data/plate2/image.csv") None
        (Some (of_string "dest/plate2.image.parquet")) ]
    (Some "dest")
    (MkState {[ "dest/plate1.image.parquet" :=
                  ParquetFile [ MkColumn "ImageNumber" Int64 [PInt 1];
                                MkColumn "Well" Utf8 [PStr "A01"] ];
                "dest/plate2.image.parquet" :=
                  ParquetFile [ MkColumn "Well" Utf8 [PStr "B02"];
                                MkColumn "ImageNumber" Int64 [PInt 2] ] ]} [])
    [ MkColumn "ImageNumber" Int64 [PInt 1]; MkColumn "Well" Utf8 [PStr "A01"] ]
    [ [ MkColumn "Well" Utf8 [PStr "B02"]; MkColumn "ImageNumber" Int64 [PInt 2] ] ])
    [ of_string "dest/plate1.image.parquet"; of_string "dest/plate2.image.parquet" ])
    as (st' & out & Hrun & Hfile & Hnames & _).
  - repeat constructor.
  - repeat constructor.
  - repeat constructor; not_in_list.
  - not_in_list.
  - repeat constructor; not_in_list.
  - repeat constructor.
  - exists st', out. repeat split; assumption.
Defined.


(** ** Order of appending and removing in the streaming concatenation *)

(** Whatever its outcome, the loop removes a file only directly after it
    has read that file and appended its rows to the writer. *)
Lemma append_members_trace (columns : list string) (tables : list string) :
  ∀ (w : writer) (st st' : state) (r : result writer),
    append_members w columns tables st = (st', r) →
    ∃ (handled : list (string * Table)) (tail : list event),
      trace st' = (trace st ++ (handled ≫= member_events (w_path w)) ++ tail)%list ∧
      (handled.*1 `prefix_of` tables) ∧
      no_unlink tail.
Proof.
  induction tables as [|p tables IH]; intros w st st' r Hrun.
  - injection Hrun as <- _. exists [], []. cbn. rewrite app_nil_r.
    repeat split; [done|constructor].
  - rewrite append_members_cons, read_table_run in Hrun.
    set (st1 := MkState (files st) (trace st ++ [EvRead p])) in *.
    assert (∀ e, (released w st1, @inl exn writer e) = (st', r) →
            ∃ (handled : list (string * Table)) (tail : list event),
              trace st' = (trace st ++ (handled ≫= member_events (w_path w)) ++ tail)%list ∧
              (handled.*1 `prefix_of` (p :: tables)) ∧ no_unlink tail) as Hfail.
    { intros e [= <- _]. exists [], [EvRead p; EvCloseWriter (w_path w)]. cbn.
      rewrite <- app_assoc. repeat split; [apply prefix_nil|]. by repeat constructor. }
    destruct (files st !! p) as [[t|t| |db]|] eqn:Hp; try (by eapply Hfail).
    destruct (select columns t) as [t'|]; [|by eapply Hfail].
    rewrite write_table_run in Hrun. case_decide; [|by eapply Hfail].
    rewrite unlink_run in Hrun. cbn [files trace st1] in Hrun. rewrite Hp in Hrun.
    apply IH in Hrun as (handled & tail & Htr & Hpre & Htail). cbn in Htr.
    exists ((p, t') :: handled), tail. split; [|split; [|done]].
    + rewrite Htr. cbn. by rewrite <- !app_assoc.
    + cbn. by apply prefix_cons.
Qed.

(** The loop creates no file. *)
Lemma append_members_absent (columns : list string) (tables : list string) :
  ∀ (w w' : writer) (st st' : state) (q : string),
    files st !! q = None → q ∉ tables →
    append_members w columns tables st = (st', inr w') →
    files st' !! q = None.
Proof.
  induction tables as [|p tables IH]; intros w w' st st' q Hq Hout Hrun.
  - by injection Hrun as <- _.
  - apply not_elem_of_cons in Hout as [Hne Hout].
    rewrite append_members_cons, read_table_run in Hrun.
    destruct (files st !! p) as [[t|t| |db]|] eqn:Hp; try done.
    destruct (select columns t) as [t'|]; [|done].
    rewrite write_table_run in Hrun. case_decide; [|done].
    rewrite unlink_run in Hrun. cbn [files trace] in Hrun. rewrite Hp in Hrun.
    eapply IH; [|exact Hout|exact Hrun]. cbn. by rewrite lookup_delete_ne.
Qed.

(** A loop that ends well met no member at the path the open writer
    holds, and has removed every member. *)
Lemma append_members_success (columns : list string) (dest : string)
    (tables : list string) :
  ∀ (w w' : writer) (st st' : state),
    files st !! dest = Some PartialParquet →
    append_members w columns tables st = (st', inr w') →
    (dest ∉ tables) ∧ (∀ p, p ∈ tables → files st' !! p = None) ∧ w_path w' = w_path w.
Proof.
  induction tables as [|p tables IH]; intros w w' st st' Hdest Hrun.
  - injection Hrun as <- <-. repeat split; [apply not_elem_of_nil|].
    intros p Hp. by apply not_elem_of_nil in Hp.
  - rewrite append_members_cons, read_table_run in Hrun.
    destruct (decide (p = dest)) as [->|Hne]; [by rewrite Hdest in Hrun|].
    destruct (files st !! p) as [[t|t| |db]|] eqn:Hp; try done.
    destruct (select columns t) as [t'|]; [|done].
    rewrite write_table_run in Hrun. case_decide; [|done].
    rewrite unlink_run in Hrun. cbn [files trace] in Hrun. rewrite Hp in Hrun.
    pose proof Hrun as Hrun'.
    apply IH in Hrun as (Hnotin & Hgone & Hpath).
    2:{ cbn. by rewrite lookup_delete_ne. }
    split; [|split; [|done]].
    + apply not_elem_of_cons. split; [congruence|done].
    + intros q [->|Hq]%elem_of_cons; [|by apply Hgone].
      destruct (decide (p ∈ tables)) as [Hin|Hout]; [by apply Hgone|].
      eapply append_members_absent; [|exact Hout|exact Hrun'].
      cbn. apply lookup_delete_eq.
Qed.

(** After a streaming concatenation that completed, no member file is
    left. *)
Lemma concat_record_group_removes_members (first : record) (rest : list record)
    (dest_path : option string) (st st' : state) (out : list record) (d0 : Path) :
  table first = None → destination_path first = Some d0 →
  concat_record_group (first :: rest) dest_path st = (st', inr out) →
  ∀ r d, r ∈ first :: rest → destination_path r = Some d →
         files st' !! to_string d = None.
Proof.
  intros Htab Hd0 Hrun r d Hr Hd.
  unfold concat_record_group in Hrun. rewrite Htab, Hd0 in Hrun. cbv zeta in Hrun.
  set (destination := to_string (concat_destination dest_path (source_path first))) in *.
  rewrite run_bind in Hrun. cbn [get_files] in Hrun. cbv beta iota in Hrun.
  rewrite run_bind in Hrun.
  destruct ((if bool_decide (is_Some (files st !! destination))
             then unlink destination else mret ()) st) as [st1 [e|[]]]; [done|].
  rewrite run_bind in Hrun.
  destruct (read_table (to_string d0) None st1) as [st2 [e|basis]]; [done|].
  rewrite run_bind, open_writer_run in Hrun.
  rewrite run_bind, release_on_error_run in Hrun. unfold collect_key in Hrun at 1.
  destruct (mapM destination_path (first :: rest)) as [dests|] eqn:Hdests; [|done].
  cbn [mret M_ret ret] in Hrun. rewrite run_bind in Hrun.
  match type of Hrun with
  | context [append_members ?w _ _ ?s] =>
      destruct (append_members w (column_names basis) (to_string <$> dests) s)
        as [st3 [e|w']] eqn:Hloop; [done|]
  end.
  apply (append_members_success _ destination) in Hloop as (Hnotin & Hgone & Hpath);
    [|cbn; apply lookup_insert_eq].
  rewrite run_bind, close_writer_run in Hrun. injection Hrun as <- _.
  assert (d ∈ dests) as Hin.
  { apply mapM_Some in Hdests. apply list_elem_of_lookup in Hr as [i Hi].
    destruct (Forall2_lookup_l _ _ _ _ _ Hdests Hi) as (d' & Hd' & Heq).
    rewrite Hd in Heq. injection Heq as <-. by eapply list_elem_of_lookup_2. }
  cbn [files]. rewrite Hpath. cbn [w_path]. rewrite lookup_insert_ne.
  - apply Hgone. by apply list_elem_of_fmap_2.
  - intros Heq. apply Hnotin. rewrite Heq. by apply list_elem_of_fmap_2.
Qed.

(** C9 on the code: with the sources /data/a/a/cells.csv and
    /data/a/b/cells.csv the merged file is named like the chunk file of the
    first source (the grandparent and the parent directory have the same
    name). [to_parquet] writes the two chunk files; the concatenation then
    removes the file at the merged path, a member whose rows have not been
    appended, and fails on reading it. With the members the other way
    round the same file is removed first, the other member is appended and
    removed, and the concatenation fails on the file it is itself
    writing: both chunk files are gone, and the file that the released
    writer leaves holds the rows of the second source only. *)
Theorem concat_unlinks_member_before_append :
  let pa := of_string "/data/a/a/cells.csv" in
  let pb := of_string "/data/a/b/cells.csv" in
  let ta := [ MkColumn "ObjectNumber" Int64 [PInt 1] ] in
  let tb := [ MkColumn "ObjectNumber" Int64 [PInt 2] ] in
  let ra := MkRecord pa None (Some (of_string "dest/a.cells.parquet")) in
  let rb := MkRecord pb None (Some (of_string "dest/b.cells.parquet")) in
  let sources := MkState {[ to_string pa := CsvFile ta; to_string pb := CsvFile tb ]} [] in
  let written := MkState {[ "dest/a.cells.parquet" := ParquetFile ta;
                            "dest/b.cells.parquet" := ParquetFile tb ]} [] in
  (to_parquet {[ "cells.csv" := [ MkRecord pa None None; MkRecord pb None None ] ]}
     "dest" false sources).2 = inr {[ "cells.csv" := [ra; rb] ]} ∧
  concat_record_group [ra; rb] (Some "dest") written
    = (MkState {[ "dest/b.cells.parquet" := ParquetFile tb ]}
         [ EvUnlink "dest/a.cells.parquet"; EvRead "dest/a.cells.parquet" ],
       inl FileNotFoundError) ∧
  concat_record_group [rb; ra] (Some "dest") written
    = (MkState {[ "dest/a.cells.parquet" := ParquetFile tb ]}
         [ EvUnlink "dest/a.cells.parquet"; EvRead "dest/b.cells.parquet";
           EvOpenWriter "dest/a.cells.parquet"; EvRead "dest/b.cells.parquet";
           EvAppend "dest/a.cells.parquet" tb; EvUnlink "dest/b.cells.parquet";
           EvRead "dest/a.cells.parquet"; EvCloseWriter "dest/a.cells.parquet" ],
       inl ArrowInvalid).
Proof. repeat split; vm_compute; reflexivity. Qed.


(** ** Destinations chosen by [to_parquet] *)

Lemma map_task_inv {A B} (task : A → M B) (l : list A) (st st' : state) (out : list B) :
  map_task task l st = (st', inr out) →
  Forall2 (λ x y, ∃ s1 s2, task x s1 = (s2, inr y)) l out.
Proof.
  unfold map_task. rewrite run_bind.
  destruct (for_each _ l st) as [st1 [e|futures]] eqn:Hsub; [done|].
  intros Hres. apply for_each_inv in Hsub. apply for_each_inv in Hres.
  revert out Hres. induction Hsub as [|x fut l futs (s1 & s2 & Hx) _ IH];
    intros out Hres.
  - by apply Forall2_nil_inv_l in Hres as ->.
  - apply Forall2_cons_inv_l in Hres as (y & out' & (s3 & s4 & Hy) & Hout & ->).
    constructor; [|by apply IH].
    unfold submit in Hx. destruct (task x s1) as [s5 r] eqn:Htask.
    injection Hx as <- <-. unfold future_result in Hy. injection Hy as _ ->.
    by exists s1, s5.
Qed.

Lemma read_csv_inv (r r' : record) (s1 s2 : state) :
  read_csv r s1 = (s2, inr r') → source_path r' = source_path r.
Proof.
  unfold read_csv. rewrite !run_bind. cbn.
  destruct (files s1 !! to_string (source_path r)) as [[t|t| |db]|]; try done.
  by intros [= _ <-].
Qed.

Lemma write_parquet_inv (r r' : record) (dest_path : string) (unique_name : bool)
    (s1 s2 : state) :
  write_parquet r dest_path unique_name s1 = (s2, inr r') →
  source_path r' = source_path r ∧
  destination_path r' = Some (write_destination r dest_path unique_name).
Proof.
  unfold write_parquet. rewrite !run_bind. cbn.
  destruct (table r); [|done]. by intros [= _ <-].
Qed.

(** What [to_parquet] makes of one group, when it ends well: one written
    record per member, each at the destination computed from its source
    path and the size of the group. *)
Lemma to_parquet_group_destinations (dest_path gname : string) (g out : list record)
    (st st' : state) :
  to_parquet_group dest_path gname g st = (st', inr out) →
  length out = length g ∧
  ∀ r', r' ∈ out →
    ∃ r, r ∈ g ∧ source_path r' = source_path r ∧
         destination_path r' = Some (write_destination r' dest_path (needs_unique_name g)).
Proof.
  unfold to_parquet_group. rewrite run_bind.
  assert (∀ g1 s1, length g1 = length g →
            Forall2 (λ r r1, source_path r1 = source_path r) g g1 →
            map_task (λ r, write_parquet r dest_path (needs_unique_name g1)) g1 s1
              = (st', inr out) →
            length out = length g ∧
            ∀ r', r' ∈ out →
              ∃ r, r ∈ g ∧ source_path r' = source_path r ∧
                   destination_path r' = Some (write_destination r' dest_path (needs_unique_name g)))
    as Hwrite.
  { intros g1 s1 Hlen Hsrc Hrun. apply map_task_inv in Hrun.
    split; [by rewrite <- (Forall2_length _ _ _ Hrun)|].
    intros r' Hr'. apply list_elem_of_lookup in Hr' as [i Hi].
    destruct (Forall2_lookup_r _ _ _ _ _ Hrun Hi) as (r1 & Hr1 & s2 & s3 & Hw).
    destruct (Forall2_lookup_r _ _ _ _ _ Hsrc Hr1) as (r & Hr & Hsp).
    apply write_parquet_inv in Hw as [Hsp' Hd].
    exists r. split; [by eapply list_elem_of_lookup_2|]. split; [congruence|].
    rewrite Hd. f_equal. unfold write_destination, needs_unique_name.
    by rewrite Hsp', Hlen. }
  case_decide as Hcount.
  - unfold read_files. case_decide; [|done].
    destruct (map_task read_csv g st) as [s1 [e|g1]] eqn:Hread; [done|].
    apply map_task_inv in Hread. apply Hwrite.
    + symmetry. by eapply Forall2_length.
    + eapply Forall2_impl; [exact Hread|]. cbn. intros r r1 (s2 & s3 & Hr).
      by eapply read_csv_inv.
  - apply Hwrite; [done|]. by apply Forall_Forall2_diag, Forall_true.
Qed.

(** C8. In [to_parquet] the members of a record group are written under
    the filename <parent-dir>.<stem>.parquet exactly when the group has two
    or more members, and under <stem>.parquet exactly when it has one: so
    for the destination computed for each member, and so for the
    destination recorded in each record that the stage returns. *)
Theorem destination_filename_by_group_size
    (dest_path record_group_name : string) (record_group : list record) :
  Forall (λ r, well_formed (source_path r)) record_group →
  (∀ r, r ∈ record_group →
     (name (write_destination r dest_path (needs_unique_name record_group))
        = name (parent (source_path r)) ++ "." ++ stem (source_path r) ++ ".parquet"
      ↔ (2 ≤ length record_group)%nat) ∧
     (name (write_destination r dest_path (needs_unique_name record_group))
        = stem (source_path r) ++ ".parquet"
      ↔ length record_group = 1%nat)) ∧
  (∀ st st' out,
     to_parquet_group dest_path record_group_name record_group st = (st', inr out) →
     length out = length record_group ∧
     ∀ r', r' ∈ out →
       ∃ d, destination_path r' = Some d ∧
            (name d = name (parent (source_path r')) ++ "." ++ stem (source_path r')
                        ++ ".parquet"
             ↔ (2 ≤ length record_group)%nat) ∧
            (name d = stem (source_path r') ++ ".parquet"
             ↔ length record_group = 1%nat)).
Proof.
  intros Hwf. split.
  - intros r Hr. apply write_destination_by_group_size.
    + intros ->. by apply not_elem_of_nil in Hr.
    + by eapply Forall_forall in Hwf.
  - intros st st' out Hrun.
    apply to_parquet_group_destinations in Hrun as [Hlen Hout].
    split; [done|]. intros r' Hr'.
    destruct (Hout r' Hr') as (r & Hr & Hsp & Hd).
    eexists. split; [exact Hd|].
    apply write_destination_by_group_size.
    + intros ->. by apply not_elem_of_nil in Hr.
    + rewrite Hsp. by eapply Forall_forall in Hwf.
Qed.

(** Two plates with a cells.csv each, and a group of one image.csv. *)
Lemma destination_filename_by_group_size_witness :
  name (write_destination (MkRecord (of_string "/data/plate1/cells.csv") None None) "dest"
          (needs_unique_name
             [ MkRecord (of_string "/data/plate1/cells.csv") None None;
               MkRecord (of_string "/data/plate2/cells.csv") None None ]))
    = "plate1.cells.parquet".
Proof.
  apply (proj1 (proj1 (destination_filename_by_group_size "dest" "cells.csv"
                         [ MkRecord (of_string "/data/plate1/cells.csv") None None;
                           MkRecord (of_string "/data/plate2/cells.csv") None None ]
                         ltac:(repeat constructor; apply of_string_well_formed))
                  (MkRecord (of_string "/data/plate1/cells.csv") None None)
                  ltac:(left))).
  cbn. lia.
Defined.


(** ** Worked examples *)

(** A chunk of two rows extracted and written: the text value stored in
    the INTEGER column comes out null, and the column is an integer column
    in the written file. *)
Example extract_chunk_to_parquet :
  let db : gmap string SqliteTable :=
    {[ "Image" := MkSqliteTable [("ImageNumber", "INTEGER"); ("Well", "TEXT")]
                    [ [PInt 1; PStr "A01"]; [PStr "x"; PStr "A02"]; [PInt 3; PStr "A03"] ] ]} in
  let st := MkState {[ "plate.sqlite" := SqliteFile db ]} [] in
  let run := _sqlite_mixed_type_query_to_parquet "plate.sqlite" "Image" 2 0 "chunk-0.parquet" st in
  run.2 = inr "chunk-0.parquet" ∧
  files run.1 !! "chunk-0.parquet"
    = Some (ParquetFile [ MkColumn "ImageNumber" Int64 [PInt 1; PNone];
                          MkColumn "Well" Utf8 [PStr "A01"; PStr "A02"] ]).
Proof. split; vm_compute; reflexivity. Qed.

(** Two plates with a cells.csv each, of two and three rows and with the
    columns in different orders, converted to parquet with concatenation:
    one merged file of five rows in the column order of the first plate,
    and no chunk file left. *)
Example convert_two_plates :
  let t1 := [ MkColumn "ObjectNumber" Int64 [PInt 1; PInt 2];
              MkColumn "Cells_Area" Int64 [PInt 10; PInt 20] ] in
  let t2 := [ MkColumn "Cells_Area" Int64 [PInt 30; PInt 40; PInt 50];
              MkColumn "ObjectNumber" Int64 [PInt 1; PInt 2; PInt 3] ] in
  let entries := [ MkEntry (of_string "/data/run/plate1/cells.csv") true;
                   MkEntry (of_string "/data/run/plate2/cells.csv") true ] in
  let st := MkState {[ "/data/run/plate1/cells.csv" := CsvFile t1;
                       "/data/run/plate2/cells.csv" := CsvFile t2 ]} [] in
  let run := convert entries "dest" "parquet" None None true st in
  run.2 = inr {[ "cells.csv" := [ MkRecord (of_string "/data/run/cells") None
                                    (Some (of_string "dest/run.cells.parquet")) ] ]} ∧
  files run.1 !! "dest/run.cells.parquet"
    = Some (ParquetFile
              [ MkColumn "ObjectNumber" Int64 [PInt 1; PInt 2; PInt 1; PInt 2; PInt 3];
                MkColumn "Cells_Area" Int64 [PInt 10; PInt 20; PInt 30; PInt 40; PInt 50] ]) ∧
  files run.1 !! "dest/plate1.cells.parquet" = None ∧
  files run.1 !! "dest/plate2.cells.parquet" = None.
Proof. repeat split; vm_compute; reflexivity. Qed.


(** * Further properties of the code *)

(** ** Gathering: errors and the shape of the groups *)

(** X1. With a target list, [get_source_filepaths] raises only the
    missing-input error, and raises it exactly when no entry is an
    eligible file. *)
Theorem get_source_filepaths_error (entries : list dir_entry) (ts : list string) (e : exn) :
  get_source_filepaths entries (Some ts) = inl e
  ↔ e = NoInputData ∧ eligible_records ts entries = [].
Proof.
  unfold get_source_filepaths. rewrite gather_files_Some.
  destruct (eligible_records ts entries) as [|r l]; cbn.
  - split; [by intros [= <-] | by intros [-> _]].
  - split; [done | by intros [_ ?]].
Qed.

Lemma gather_files_None (entries : list dir_entry) :
  gather_files None entries =
    if existsb entry_is_file entries then inl TypeError else inr [].
Proof.
  induction entries as [|e es IH]; [done|].
  cbn [gather_files existsb]. unfold is_target.
  destruct (entry_is_file e); [done|]. cbn. rewrite IH.
  by destruct (existsb entry_is_file es).
Qed.

(** X2. Handed [None] for the targets, [get_source_filepaths] never
    returns: it raises TypeError as soon as the tree holds a file, and the
    missing-input error when it holds none. *)
Theorem get_source_filepaths_None (entries : list dir_entry) :
  get_source_filepaths entries None =
    inl (if existsb entry_is_file entries then TypeError else NoInputData).
Proof.
  unfold get_source_filepaths. rewrite gather_files_None.
  by destruct (existsb entry_is_file entries).
Qed.

Lemma concat_filter_by_name (records : list record) (names : list string) :
  NoDup names →
  (∀ r, r ∈ records → name (source_path r) ∈ names) →
  concat ((λ n, filter (λ r, name (source_path r) = n) records) <$> names) ≡ₚ records.
Proof.
  intros Hnd. induction records as [|r records IH]; intros Hcover.
  - clear. induction names as [|n names IH]; [done|]. cbn. by rewrite IH.
  - assert (name (source_path r) ∈ names) as Hin by (apply Hcover; left).
    transitivity
      (r :: concat ((λ n, filter (λ r0, name (source_path r0) = n) records) <$> names)).
    2:{ f_equiv. apply IH. intros r' Hr'. apply Hcover. by right. }
    clear IH Hcover. revert Hin.
    induction Hnd as [|n names Hn Hnd IHn]; intros Hin.
    + by apply not_elem_of_nil in Hin.
    + cbn [fmap list_fmap concat]. rewrite filter_cons.
      destruct (decide (name (source_path r) = n)) as [Heq|Hne].
      * cbn. f_equiv. f_equiv.
        assert (∀ l : list string, name (source_path r) ∉ l →
                  (λ n0, filter (λ r0, name (source_path r0) = n0) (r :: records)) <$> l
                  = (λ n0, filter (λ r0, name (source_path r0) = n0) records) <$> l) as Hsame.
        { intros l Hl. apply list_fmap_ext. intros i m Hm.
          rewrite filter_cons, decide_False; [done|].
          intros <-. apply Hl. by eapply list_elem_of_lookup_2. }
        rewrite Hsame; [done|]. by rewrite Heq.
      * apply elem_of_cons in Hin as [?|Hin]; [done|].
        rewrite (IHn Hin). symmetry. apply Permutation_middle.
Qed.

(** X3. The groups that [get_source_filepaths] returns split the eligible
    files: taken together the groups hold every eligible file once, and
    each member of a group bears the group's key as its filename. *)
Theorem get_source_filepaths_partition (entries : list dir_entry) (ts : list string)
    (groups : gmap string (list record)) :
  get_source_filepaths entries (Some ts) = inr groups →
  concat ((map_to_list groups).*2) ≡ₚ eligible_records ts entries ∧
  (∀ k g, groups !! k = Some g → Forall (λ r, name (source_path r) = k) g).
Proof.
  unfold get_source_filepaths. rewrite gather_files_Some.
  destruct (length (eligible_records ts entries) <? 1)%nat; [done|].
  intros [= <-]. set (records := eligible_records ts entries). split.
  - unfold group_records.
    set (names := list_to_set _ : gset string).
    rewrite map_to_list_to_map.
    2:{ rewrite <- list_fmap_compose. replace (fst ∘ _) with (@id string) by done.
        rewrite list_fmap_id. apply NoDup_elements. }
    rewrite <- list_fmap_compose. apply concat_filter_by_name.
    + apply NoDup_elements.
    + intros r Hr. apply elem_of_elements, elem_of_list_to_set.
      apply list_elem_of_fmap. by exists r.
  - intros k g. rewrite lookup_group_records. cbn zeta. case_decide; [done|].
    intros [= <-]. apply Forall_forall. by intros r [? _]%list_elem_of_filter.
Qed.

Lemma get_source_filepaths_partition_witness :
  ∃ groups,
    get_source_filepaths
      [ MkEntry (of_string "/data/p1/image.csv") true;
        MkEntry (of_string "/data/p1/cells.csv") true;
        MkEntry (of_string "/data/p2/image.csv") true ]
      (Some DEFAULT_TARGETS) = inr groups ∧
    length (concat ((map_to_list groups).*2)) = 3%nat.
Proof.
  eexists. split; [vm_compute; reflexivity|].
  rewrite (proj1 (get_source_filepaths_partition
    [ MkEntry (of_string "/data/p1/image.csv") true;
      MkEntry (of_string "/data/p1/cells.csv") true;
      MkEntry (of_string "/data/p2/image.csv") true ] DEFAULT_TARGETS _
    ltac:(vm_compute; reflexivity))).
  reflexivity.
Defined.


(** ** Datatype inference and filtering: edge behaviour *)

Lemma lower_ascii_idemp (c : ascii) :
  PyStr.lower_ascii (PyStr.lower_ascii c) = PyStr.lower_ascii c.
Proof. destruct c as [[] [] [] [] [] [] [] []]; reflexivity. Qed.

Lemma lower_idemp (s : string) : PyStr.lower (PyStr.lower s) = PyStr.lower s.
Proof.
  induction s as [|c s IH]; [done|].
  cbn [PyStr.lower]. by rewrite lower_ascii_idemp, IH.
Qed.

Lemma suffix_set_lower {V} (records : gmap string V) (s : string) :
  s ∈ suffix_set records → PyStr.lower s = s ∧ ∃ k, k ∈ dom records ∧ key_suffix k = s.
Proof.
  unfold suffix_set. intros (k & -> & Hk)%elem_of_map. split; [|by eauto].
  unfold key_suffix. apply lower_idemp.
Qed.

Lemma suffix_set_empty {V} (records : gmap string V) :
  suffix_set records = ∅ ↔ records = ∅.
Proof.
  unfold suffix_set. split.
  - intros Hempty. apply dom_empty_inv_L. apply set_eq. intros k.
    split; [|set_solver]. intros Hk.
    assert (key_suffix k ∈ (set_map key_suffix (dom records) : gset string)) as Hin
      by (apply elem_of_map; eauto).
    rewrite Hempty in Hin. set_solver.
  - intros ->. by rewrite dom_empty_L, set_map_empty.
Qed.

(** X4. [infer_source_datatype] raises IndexError exactly when it is given
    no group at all and no datatype to check: the inference then indexes
    an empty list of suffixes. *)
Theorem infer_source_datatype_index_error {V} (records : gmap string V)
    (target : option string) :
  infer_source_datatype records target = inl IndexError
  ↔ target = None ∧ records = ∅.
Proof.
  unfold infer_source_datatype. rewrite suffixes_elements.
  destruct target as [t|].
  - split; [case_bool_decide; discriminate | by intros [[=] _]].
  - rewrite <- suffix_set_empty.
    destruct (elements (suffix_set records)) as [|s l] eqn:Hel.
    + apply elements_empty_inv in Hel. apply leibniz_equiv in Hel.
      cbn. by split.
    + split.
      * destruct (1 <? length (s :: l))%nat; discriminate.
      * intros [_ Hempty]. rewrite Hempty, elements_empty in Hel. done.
Qed.

Lemma infer_source_datatype_inferred {V} (records : gmap string V) (s : string) :
  infer_source_datatype records None = inr s →
  PyStr.lower s = s ∧ ∃ k, k ∈ dom records ∧ key_suffix k = s.
Proof.
  unfold infer_source_datatype. rewrite suffixes_elements.
  destruct (1 <? length (elements (suffix_set records)))%nat; [done|].
  destruct (elements (suffix_set records) !! 0%nat) as [s'|] eqn:Hs; [|done].
  intros [= <-]. apply suffix_set_lower, elem_of_elements.
  by eapply list_elem_of_lookup_2.
Qed.

(** X5. The requested datatype is compared as it is with the lowercased
    suffixes: a request that is not all lower case is always refused as
    unavailable, whatever the files; and a datatype that is inferred is a
    lowercased suffix of one of the keys. *)
Theorem infer_source_datatype_case {V} (records : gmap string V) :
  (∀ t, PyStr.lower t ≠ t →
        infer_source_datatype records (Some t) = inl UnavailableDatatype) ∧
  (∀ s, infer_source_datatype records None = inr s →
        PyStr.lower s = s ∧ ∃ k, k ∈ dom records ∧ key_suffix k = s).
Proof.
  split.
  - intros t Ht. unfold infer_source_datatype. rewrite suffixes_elements.
    rewrite bool_decide_eq_true_2; [done|].
    intros Hin%elem_of_elements. by apply suffix_set_lower in Hin as [? _].
  - apply infer_source_datatype_inferred.
Qed.

Lemma infer_source_datatype_case_witness :
  infer_source_datatype ({[ "image.csv" := () ]} : gmap string ()) (Some "CSV")
    = inl UnavailableDatatype.
Proof.
  apply (proj1 (infer_source_datatype_case ({[ "image.csv" := () ]} : gmap string ()))).
  discriminate.
Defined.

(** X6. What [gather_records] returns is a restriction of the grouping:
    there is one datatype, the requested one if any and a lowercased
    suffix otherwise, such that every returned key has exactly that
    extension (as [Path.suffix] reads it), and every returned group is the
    whole group of that filename among the eligible files. *)
Theorem gather_records_groups (entries : list dir_entry) (source_datatype : option string)
    (targets : option (list string)) (out : gmap string (list record)) :
  gather_records entries source_datatype targets = inr out →
  ∃ dt,
    (∀ t, source_datatype = Some t → dt = t) ∧
    (source_datatype = None → PyStr.lower dt = dt) ∧
    ∀ k g, out !! k = Some g →
      suffix (of_string k) = "." ++ dt ∧
      g ≠ [] ∧
      g = filter (λ r, name (source_path r) = k)
            (eligible_records (default DEFAULT_TARGETS targets) entries).
Proof.
  unfold gather_records.
  replace (match targets with Some ts => ts | None => DEFAULT_TARGETS end)
    with (default DEFAULT_TARGETS targets) by (by destruct targets).
  set (ts := default DEFAULT_TARGETS targets).
  unfold get_source_filepaths. rewrite gather_files_Some. fold ts.
  destruct (length (eligible_records ts entries) <? 1)%nat; [done|].
  destruct (infer_source_datatype _ source_datatype) as [e|dt] eqn:Hinfer; [done|].
  intros [= <-]. exists dt. split; [|split].
  - intros t ->. unfold infer_source_datatype in Hinfer.
    case_bool_decide; [done|]. by injection Hinfer as <-.
  - intros ->. by apply infer_source_datatype_inferred in Hinfer as [? _].
  - intros k g Hk. unfold filter_source_filepaths in Hk.
    apply map_lookup_filter_Some in Hk as [Hk Hsuffix]. cbn in Hsuffix.
    rewrite lookup_group_records in Hk. cbn zeta in Hk.
    case_decide; [done|]. by injection Hk as <-.
Qed.

Lemma gather_records_groups_witness :
  ∃ dt, ∀ k g,
    ({[ "image.csv" := [ MkRecord (of_string "/data/p1/image.csv") None None ] ]}
       : gmap string (list record)) !! k = Some g →
    suffix (of_string k) = "." ++ dt.
Proof.
  destruct (gather_records_groups
              [ MkEntry (of_string "/data/p1/image.csv") true;
                MkEntry (of_string "/data/p1/notes.txt") true ] None None
              ({[ "image.csv" := [ MkRecord (of_string "/data/p1/image.csv") None None ] ]}
                 : gmap string (list record)))
    as (dt & _ & _ & Hkeys).
  - vm_compute. reflexivity.
  - exists dt. intros k g Hk. by destruct (Hkeys k g Hk).
Defined.

Lemma group_records_single (records : list record) (k : string) :
  records ≠ [] →
  Forall (λ r, name (source_path r) = k) records →
  group_records records = {[ k := records ]}.
Proof.
  intros Hne Hall. apply map_eq. intros k'.
  rewrite lookup_group_records. cbn zeta.
  destruct (decide (k' = k)) as [->|Hk].
  - rewrite lookup_singleton_eq, filter_all_id by done. by rewrite decide_False.
  - rewrite lookup_singleton_ne by done.
    rewrite filter_none_nil; [done|].
    eapply Forall_impl; [exact Hall|]. cbn. congruence.
Qed.

(** X7. Files whose extension is not all lower case are gathered and then
    silently dropped: when the eligible files all bear one filename whose
    extension differs from its lowercased suffix, [gather_records] with no
    requested datatype infers the lowercased suffix, filters on it, and
    returns an empty mapping, with no error. *)
Theorem gather_records_drops_uppercase (entries : list dir_entry)
    (targets : option (list string)) (k : string) :
  eligible_records (default DEFAULT_TARGETS targets) entries ≠ [] →
  Forall (λ r, name (source_path r) = k)
         (eligible_records (default DEFAULT_TARGETS targets) entries) →
  suffix (of_string k) ≠ "." ++ key_suffix k →
  gather_records entries None targets = inr ∅.
Proof.
  intros Hne Hall Hsuffix. unfold gather_records.
  replace (match targets with Some ts => ts | None => DEFAULT_TARGETS end)
    with (default DEFAULT_TARGETS targets) by (by destruct targets).
  set (ts := default DEFAULT_TARGETS targets) in *.
  unfold get_source_filepaths. rewrite gather_files_Some.
  destruct (eligible_records ts entries) as [|r l] eqn:Hrec; [done|].
  cbn [length Nat.ltb Nat.leb]. rewrite <- Hrec in *.
  rewrite (group_records_single _ k) by done.
  assert (infer_source_datatype ({[k := eligible_records ts entries]} : gmap string _) None
          = inr (key_suffix k)) as ->.
  { unfold infer_source_datatype, suffixes.
    by rewrite dom_singleton_L, set_map_singleton_L, elements_singleton. }
  unfold filter_source_filepaths. by rewrite map_filter_singleton_False.
Qed.

Lemma gather_records_drops_uppercase_witness :
  gather_records [ MkEntry (of_string "/data/p1/IMAGE.CSV") true ] None None = inr ∅.
Proof.
  apply (gather_records_drops_uppercase _ None "IMAGE.CSV").
  - vm_compute. discriminate.
  - vm_compute. repeat constructor.
  - vm_compute. discriminate.
Defined.


(** ** Relating the state before and after a loop *)

Section Frame.
Context (R : state → state → Prop) `{!Reflexive R, !Transitive R}.

Lemma for_each_frame {A B} (f : A → M B) (l : list A) (st : state) :
  (∀ x s, x ∈ l → R s (f x s).1) → R st (for_each f l st).1.
Proof.
  revert st. induction l as [|x l IH]; intros st Hf; [done|].
  rewrite for_each_cons.
  pose proof (Hf x st ltac:(left)) as Hx.
  destruct (f x st) as [st1 [e|y]]; [done|]. cbn in Hx.
  assert (R st1 (for_each f l st1).1) as Hl
    by (apply IH; intros x' s Hx'; apply Hf; by right).
  destruct (for_each f l st1) as [st2 [e|ys]]; cbn in *; by etrans.
Qed.

Lemma map_task_frame {A B} (task : A → M B) (l : list A) (st : state) :
  (∀ x s, x ∈ l → R s (task x s).1) → R st (map_task task l st).1.
Proof.
  intros Htask. unfold map_task. rewrite run_bind.
  assert (R st (for_each (λ x, submit (task x)) l st).1) as Hsub.
  { apply for_each_frame. intros x s Hx. unfold submit.
    specialize (Htask x s Hx). by destruct (task x s). }
  destruct (for_each _ l st) as [st1 [e|futures]]; [done|]. cbn in Hsub.
  etrans; [exact Hsub|]. apply for_each_frame. by intros fut s _.
Qed.

Lemma for_items_frame {A B} (f : string → A → M B) (m : gmap string A) (st : state) :
  (∀ k v s, m !! k = Some v → R s (f k v s).1) → R st (for_items f m st).1.
Proof.
  intros Hf. rewrite for_items_run.
  assert (R st (for_each (λ kv, v ← f kv.1 kv.2; mret (kv.1, v)) (map_to_list m) st).1)
    as Hall.
  { apply for_each_frame. intros [k v] s Hkv%elem_of_map_to_list. cbn.
    rewrite run_bind. specialize (Hf k v s Hkv).
    by destruct (f k v s) as [s' [e|w]]. }
  by destruct (for_each _ (map_to_list m) st) as [st1 [e|l]].
Qed.

End Frame.


(** ** Reading and writing single files *)

Lemma read_csv_run (r : record) (st : state) :
  read_csv r st =
    (MkState (files st) (trace st ++ [EvRead (to_string (source_path r))]),
     match files st !! to_string (source_path r) with
     | Some (CsvFile t) => inr (MkRecord (source_path r) (Some t) (destination_path r))
     | Some _ => inl ArrowInvalid
     | None => inl FileNotFoundError
     end).
Proof.
  unfold read_csv. rewrite !run_bind. cbn.
  by destruct (files st !! to_string (source_path r)) as [[t|t| |db]|].
Qed.

Lemma read_files_frame (record_group_name : string) (record_group : list record)
    (st : state) :
  same_files st (read_files record_group_name record_group st).1.
Proof.
  unfold read_files. case_decide; [|done].
  apply (map_task_frame same_files). intros r s _. by rewrite read_csv_run.
Qed.

(** A loop that changes no file returns, for each element, what its body
    returns on the files of the start. *)
Lemma map_task_inv_same_files {A B} (task : A → M B) (l : list A) (st st' : state)
    (out : list B) :
  (∀ x s, same_files s (task x s).1) →
  map_task task l st = (st', inr out) →
  Forall2 (λ x y, ∃ s1 s2, files s1 = files st ∧ task x s1 = (s2, inr y)) l out.
Proof.
  intros Hframe. unfold map_task. rewrite run_bind.
  destruct (for_each _ l st) as [st1 [e|futures]] eqn:Hsub; [done|].
  intros Hres. apply for_each_inv in Hres.
  assert (Forall2 (λ x fut, ∃ s1 s2, files s1 = files st ∧ task x s1 = (s2, fut)) l futures)
    as Hfut.
  { clear Hres. revert st st1 futures Hsub.
    induction l as [|x l IH]; intros st st1 futures Hsub.
    - injection Hsub as _ <-. constructor.
    - rewrite for_each_cons in Hsub. unfold submit at 1 in Hsub.
      pose proof (Hframe x st) as Hx.
      destruct (task x st) as [s2 r] eqn:Htask. cbn in Hx.
      destruct (for_each _ l s2) as [s3 [e|futs]] eqn:Hl; [done|].
      injection Hsub as _ <-. constructor; [by exists st, s2|].
      eapply Forall2_impl; [by eapply IH|].
      cbn. intros x' fut (s1 & s1' & Hfiles & Hrun). exists s1, s1'.
      split; [|done]. unfold same_files in Hx. congruence. }
  clear Hsub. revert out Hres.
  induction Hfut as [|x fut l futs (s1 & s2 & Hfiles & Hx) _ IH]; intros out Hres.
  - by apply Forall2_nil_inv_l in Hres as ->.
  - apply Forall2_cons_inv_l in Hres as (y & out' & (s3 & s4 & Hy) & Hout & ->).
    constructor; [|by apply IH].
    unfold future_result in Hy. injection Hy as _ ->. by exists s1, s2.
Qed.

Lemma read_files_inv (record_group_name : string) (record_group : list record)
    (st st' : state) (out : list record) :
  read_files record_group_name record_group st = (st', inr out) →
  suffix (of_string record_group_name) = ".csv" ∧
  Forall2 (λ r r', source_path r' = source_path r ∧
                   destination_path r' = destination_path r ∧
                   ∃ t, table r' = Some t ∧
                        files st !! to_string (source_path r) = Some (CsvFile t))
          record_group out.
Proof.
  unfold read_files. case_decide as Hcsv; [|done].
  intros Hrun. split; [done|].
  apply map_task_inv_same_files in Hrun; [|intros r s; by rewrite read_csv_run].
  eapply Forall2_impl; [exact Hrun|]. cbn.
  intros r r' (s1 & s2 & Hfiles & Hread). rewrite read_csv_run, Hfiles in Hread.
  destruct (files st !! to_string (source_path r)) as [[t|t| |db]|]; try done.
  injection Hread as _ <-. eauto.
Qed.

(** X8. [read_files] changes no file, whatever its outcome. For a group
    whose name does not end in .csv it raises UnboundLocalError before
    reading anything. When it returns, it returns the members in order,
    each with its source path and destination as before and with the
    table that its source file holds. *)
Theorem read_files_spec (record_group_name : string) (record_group : list record)
    (st : state) :
  files (read_files record_group_name record_group st).1 = files st ∧
  (suffix (of_string record_group_name) ≠ ".csv" →
   read_files record_group_name record_group st = (st, inl UnboundLocalError)) ∧
  (∀ st' out,
     read_files record_group_name record_group st = (st', inr out) →
     suffix (of_string record_group_name) = ".csv" ∧
     Forall2 (λ r r', source_path r' = source_path r ∧
                      destination_path r' = destination_path r ∧
                      ∃ t, table r' = Some t ∧
                           files st !! to_string (source_path r) = Some (CsvFile t))
             record_group out).
Proof.
  split; [apply read_files_frame|]. split.
  - intros Hsuffix. unfold read_files. by rewrite decide_False.
  - intros st' out. apply read_files_inv.
Qed.

Lemma read_files_spec_witness :
  read_files "cells.sqlite" [ MkRecord (of_string "/data/p1/cells.sqlite") None None ]
    (MkState ∅ []) = (MkState ∅ [], inl UnboundLocalError).
Proof.
  apply (proj1 (proj2 (read_files_spec "cells.sqlite"
                         [ MkRecord (of_string "/data/p1/cells.sqlite") None None ]
                         (MkState ∅ [])))).
  vm_compute. discriminate.
Defined.

(** X9. A record with a table is written and can be read back:
    [write_parquet] returns the record without its table and with the
    destination, and [parquet.read_table] on that destination gives the
    table that was written. A record without a table raises KeyError and
    no file is written. *)
Theorem write_parquet_round_trip (r : record) (dest_path : string) (unique_name : bool)
    (st : state) :
  (∀ t, table r = Some t →
     ∃ st',
       write_parquet r dest_path unique_name st
         = (st', inr (MkRecord (source_path r) None
                        (Some (write_destination r dest_path unique_name)))) ∧
       (read_table (to_string (write_destination r dest_path unique_name)) None st').2
         = inr t) ∧
  (table r = None →
   (write_parquet r dest_path unique_name st).2 = inl KeyError ∧
   files (write_parquet r dest_path unique_name st).1 = files st).
Proof.
  split.
  - intros t Ht. unfold write_parquet. rewrite Ht. eexists. split; [reflexivity|].
    rewrite read_table_run. cbn. by rewrite lookup_insert_eq.
  - intros Ht. unfold write_parquet. by rewrite Ht.
Qed.

Lemma write_parquet_round_trip_witness :
  ∃ st',
    write_parquet
      (MkRecord (of_string "/data/p1/cells.csv")
         (Some [ MkColumn "ObjectNumber" Int64 [PInt 1] ]) None)
      "dest" false (MkState ∅ [])
    = (st', inr (MkRecord (of_string "/data/p1/cells.csv") None
                   (Some (of_string "dest/cells.parquet")))) ∧
    (read_table "dest/cells.parquet" None st').2
      = inr [ MkColumn "ObjectNumber" Int64 [PInt 1] ].
Proof.
  exact (proj1 (write_parquet_round_trip
                  (MkRecord (of_string "/data/p1/cells.csv")
                     (Some [ MkColumn "ObjectNumber" Int64 [PInt 1] ]) None)
                  "dest" false (MkState ∅ []))
               [ MkColumn "ObjectNumber" Int64 [PInt 1] ] eq_refl).
Defined.


(** ** The shape of what concatenation returns *)

Lemma for_items_dom {A B} (f : string → A → M B) (m : gmap string A)
    (st st' : state) (out : gmap string B) :
  for_items f m st = (st', inr out) → dom out = dom m.
Proof.
  rewrite for_items_run.
  destruct (for_each _ (map_to_list m) st) as [st1 [e|l]] eqn:Hrun; [done|].
  intros [= _ <-]. apply for_each_inv in Hrun.
  assert (l.*1 = (map_to_list m).*1) as Hkeys.
  { induction Hrun as [|[k1 v1] [k2 w2] l1 l2 (s1 & s2 & Hy) _ IH]; [done|].
    cbn. f_equal; [|done]. cbn in Hy. rewrite run_bind in Hy.
    destruct (f k1 v1 s1) as [s3 [e|w]]; [done|]. by injection Hy as _ <- _. }
  rewrite dom_list_to_map_L, Hkeys.
  rewrite <- (list_to_map_to_list m) at 2. by rewrite dom_list_to_map_L.
Qed.

Lemma append_members_path (columns : list string) (tables : list string) :
  ∀ (w w' : writer) (st st' : state),
    append_members w columns tables st = (st', inr w') → w_path w' = w_path w.
Proof.
  induction tables as [|p tables IH]; intros w w' st st' Hrun.
  - by injection Hrun as _ <-.
  - rewrite append_members_cons, read_table_run in Hrun.
    destruct (files st !! p) as [[t|t| |db]|] eqn:Hp; try done.
    destruct (select columns t) as [t'|]; [|done].
    rewrite write_table_run in Hrun. case_decide; [|done].
    rewrite unlink_run in Hrun. cbn [files trace] in Hrun. rewrite Hp in Hrun.
    by apply IH in Hrun.
Qed.

(** A concatenation on in-memory tables leaves the state as it is. *)
Lemma concat_record_group_in_memory_frame (first : record) (rest : list record)
    (dest_path : option string) (st : state) :
  is_Some (table first) →
  (concat_record_group (first :: rest) dest_path st).1 = st.
Proof.
  intros [t Ht]. unfold concat_record_group. rewrite Ht. cbv zeta.
  rewrite run_bind. unfold collect_key.
  destruct (mapM table (first :: rest)) as [tables|]; [|done].
  cbn. by destruct (concat_tables tables).
Qed.

(** What a concatenation that ended well returns: one record, whose
    source path is made of the first member's, with a table in in-memory
    mode, with the merged file as destination in streaming mode. *)
Lemma concat_record_group_inv (record_group : list record) (dest_path : option string)
    (st st' : state) (out : list record) :
  concat_record_group record_group dest_path st = (st', inr out) →
  ∃ first r,
    head record_group = Some first ∧ out = [r] ∧
    source_path r = concat_source_path (source_path first) ∧
    match table first with
    | Some _ => is_Some (table r) ∧ destination_path r = None
    | None =>
        table r = None ∧
        destination_path r =
          (λ _, concat_destination dest_path (source_path first)) <$> destination_path first
    end.
Proof.
  destruct record_group as [|first rest]; [done|].
  unfold concat_record_group. intros Hrun. exists first.
  destruct (table first) as [t0|] eqn:Htab.
  - cbv zeta in Hrun. rewrite run_bind in Hrun. unfold collect_key in Hrun.
    destruct (mapM table (first :: rest)) as [tables|]; [|done].
    cbn in Hrun. destruct (concat_tables tables) as [t|]; [|done].
    injection Hrun as _ <-. eexists. repeat split; eauto.
  - destruct (destination_path first) as [d0|] eqn:Hd0.
    + cbv zeta in Hrun.
      set (destination := to_string (concat_destination dest_path (source_path first))) in *.
      rewrite run_bind in Hrun. cbn [get_files] in Hrun. cbv beta iota in Hrun.
      rewrite run_bind in Hrun.
      destruct ((if bool_decide (is_Some (files st !! destination))
                 then unlink destination else mret ()) st) as [st1 [e|[]]]; [done|].
      rewrite run_bind in Hrun.
      destruct (read_table (to_string d0) None st1) as [st2 [e|basis]]; [done|].
      rewrite run_bind, open_writer_run in Hrun.
      rewrite run_bind, release_on_error_run in Hrun. unfold collect_key in Hrun at 1.
      destruct (mapM destination_path (first :: rest)) as [dests|]; [|done].
      cbn [mret M_ret ret] in Hrun. rewrite run_bind in Hrun.
      match type of Hrun with
      | context [append_members ?w _ _ ?s] =>
          destruct (append_members w (column_names basis) (to_string <$> dests) s)
            as [st3 [e|w']]; [done|]
      end.
      rewrite run_bind, close_writer_run in Hrun. injection Hrun as _ <-.
      eexists. repeat split; eauto.
    + injection Hrun as _ <-. eexists. repeat split; eauto.
Qed.

(** X10. When [concat_records] returns, its result has the keys of its
    input, and every group of two or more members has become a single
    record, whose source path is the parent's parent directory of the
    first member with the first member's stem. *)
Theorem concat_records_shape (records : gmap string (list record))
    (dest_path : option string) (st st' : state) (out : gmap string (list record)) :
  concat_records records dest_path st = (st', inr out) →
  dom out = dom records ∧
  ∀ k g, records !! k = Some g → (2 ≤ length g)%nat →
    ∃ first r, head g = Some first ∧ out !! k = Some [r] ∧
               source_path r = concat_source_path (source_path first).
Proof.
  intros Hrun. unfold concat_records in Hrun. rewrite run_bind in Hrun.
  destruct (for_items _ records st) as [st1 [e|slots]] eqn:Hslots; [done|].
  split.
  - apply for_items_dom in Hslots. apply for_items_dom in Hrun. congruence.
  - intros k g Hk Hlen.
    destruct (for_items_inv _ _ _ _ _ Hslots k g Hk) as (s1 & s2 & w & Hstep & Hw).
    destruct (for_items_inv _ _ _ _ _ Hrun k w Hw) as (s3 & s4 & g' & Hres & Hout).
    cbn beta in Hstep. unfold concat_records_step in Hstep.
    rewrite (proj2 (Nat.ltb_ge _ _)) in Hstep by lia.
    rewrite run_fmap in Hstep. unfold submit in Hstep.
    destruct (concat_record_group g dest_path s1) as [s5 res] eqn:Hgroup.
    injection Hstep as _ <-. cbn in Hres. unfold future_result in Hres.
    injection Hres as _ ->.
    apply concat_record_group_inv in Hgroup as (first & r & Hhead & -> & Hsrc & _).
    by exists first, r.
Qed.

Lemma concat_records_shape_witness :
  ∃ st' out r,
    concat_records
      {[ "cells.csv" :=
           [ MkRecord (of_string "/p1/cells.csv")
               (Some [ MkColumn "ObjectNumber" Int64 [PInt 1] ]) None;
             MkRecord (of_string "/p2/cells.csv")
               (Some [ MkColumn "ObjectNumber" Int64 [PInt 2] ]) None ] ]}
      None (MkState ∅ []) = (st', inr out) ∧
    dom out = {[ "cells.csv" ]} ∧
    out !! "cells.csv" = Some [r] ∧
    to_string (source_path r) = "//cells".
Proof.
  destruct (concat_records
      {[ "cells.csv" :=
           [ MkRecord (of_string "/p1/cells.csv")
               (Some [ MkColumn "ObjectNumber" Int64 [PInt 1] ]) None;
             MkRecord (of_string "/p2/cells.csv")
               (Some [ MkColumn "ObjectNumber" Int64 [PInt 2] ]) None ] ]}
      None (MkState ∅ [])) as [st' [e|out]] eqn:Hrun.
  - vm_compute in Hrun. discriminate Hrun.
  - destruct (concat_records_shape _ _ _ _ _ Hrun) as [Hdom Hgroups].
    destruct (Hgroups "cells.csv" _ (lookup_singleton_eq _ _) ltac:(cbn; lia))
      as (first & r & Hhead & Hout & Hsrc).
    injection Hhead as <-.
    exists st', out, r. split; [reflexivity|].
    split; [rewrite Hdom; apply dom_singleton_L|]. split; [exact Hout|].
    rewrite Hsrc. reflexivity.
Defined.

Lemma to_arrow_frame (records : gmap string (list record)) (concat : bool)
    (st : state) :
  same_files st (to_arrow records concat st).1.
Proof.
  unfold to_arrow. rewrite run_bind.
  assert (same_files st (for_items read_files records st).1) as Hread.
  { apply (for_items_frame same_files). intros k g s _. apply read_files_frame. }
  destruct (for_items read_files records st) as [st1 [e|read]] eqn:Hrun; [done|].
  cbn in Hread. destruct concat; [|done].
  etrans; [exact Hread|]. unfold concat_records. rewrite run_bind.
  assert (same_files st1
            (for_items (λ _ g, concat_records_step None g) read st1).1) as Hstep.
  { apply (for_items_frame same_files). intros k g s Hk.
    unfold concat_records_step. destruct (length g <? 2)%nat eqn:Hlen; [done|].
    rewrite run_fmap. unfold submit.
    (* the members were read: the first one holds a table *)
    assert (∃ first rest, g = first :: rest ∧ is_Some (table first))
      as (first & rest & -> & Htab).
    { assert (∃ s0 s0' g0, read_files k g0 s0 = (s0', inr g)) as (s0 & s0' & g0 & Hg).
      { assert (dom read = dom records) as Hdom by (by eapply for_items_dom).
        assert (is_Some (records !! k)) as [g0 Hg0].
        { apply elem_of_dom. rewrite <- Hdom. apply elem_of_dom. eauto. }
        destruct (for_items_inv _ _ _ _ _ Hrun k g0 Hg0) as (s0 & s0' & w & Hw & Hkw).
        rewrite Hk in Hkw. injection Hkw as <-. eauto. }
      apply read_files_inv in Hg as [_ Hall].
      destruct g as [|first rest]; [done|].
      apply Forall2_cons_inv_r in Hall as (r0 & g0' & (_ & _ & t & Ht & _) & _ & _).
      exists first, rest. split; [done|]. by exists t. }
    pose proof (concat_record_group_in_memory_frame first rest None s Htab) as Hframe.
    destruct (concat_record_group (first :: rest) None s) as [s' res].
    cbn in *. by subst. }
  destruct (for_items _ read st1) as [st2 [e|slots]]; [done|]. cbn in Hstep.
  etrans; [exact Hstep|].
  apply (for_items_frame same_files). intros k v s _. by destruct v.
Qed.

(** X11. [to_arrow] reads only: whatever the records, the flag and the
    outcome, the files after it are the files before it; nothing is
    written, replaced or removed. *)
Theorem to_arrow_same_files (records : gmap string (list record)) (concat : bool)
    (st : state) :
  files (to_arrow records concat st).1 = files st.
Proof. apply to_arrow_frame. Qed.


(** ** What [convert] can read *)

Lemma gather_records_fresh (entries : list dir_entry) (source_datatype : option string)
    (targets : option (list string)) (out : gmap string (list record))
    (k : string) (g : list record) :
  gather_records entries source_datatype targets = inr out →
  out !! k = Some g →
  g ≠ [] ∧ Forall (λ r, table r = None) g.
Proof.
  unfold gather_records, get_source_filepaths. rewrite gather_files_Some.
  set (ts := match targets with Some ts => ts | None => DEFAULT_TARGETS end).
  destruct (length (eligible_records ts entries) <? 1)%nat; [done|].
  destruct (infer_source_datatype _ source_datatype) as [e|dt]; [done|].
  intros [= <-] Hk. unfold filter_source_filepaths in Hk.
  apply map_lookup_filter_Some in Hk as [Hk _].
  rewrite lookup_group_records in Hk. cbn zeta in Hk.
  case_decide as Hne; [done|]. injection Hk as <-. split; [done|].
  apply Forall_forall. intros r [_ Hr]%list_elem_of_filter.
  unfold eligible_records in Hr. by apply list_elem_of_fmap in Hr as (e & -> & _).
Qed.

(** X12. [convert] reads nothing but CSV: when it returns, every group it
    gathered has a name ending in .csv. A gathered group of any other
    extension (a requested datatype such as sqlite or parquet) makes the
    conversion raise, for either destination datatype. *)
Theorem convert_reads_only_csv (entries : list dir_entry) (dest_path dest_datatype : string)
    (source_datatype : option string) (targets : option (list string)) (concat : bool)
    (st st' : state) (out : gmap string (list record)) :
  convert entries dest_path dest_datatype source_datatype targets concat st
    = (st', inr out) →
  ∃ gathered,
    gather_records entries source_datatype targets = inr gathered ∧
    ∀ k, k ∈ dom gathered → suffix (of_string k) = ".csv".
Proof.
  unfold convert. rewrite run_bind. unfold lift.
  change (gather_records entries source_datatype
            (Some match targets with Some ts => ts | None => DEFAULT_TARGETS end))
    with (gather_records entries source_datatype targets).
  destruct (gather_records entries source_datatype targets) as [e|gathered] eqn:Hg; [done|].
  intros Hrun. exists gathered. split; [done|].
  intros k [g Hk]%elem_of_dom.
  destruct (gather_records_fresh _ _ _ _ k g Hg Hk) as [Hne Hfresh].
  case_decide as Harrow; [|case_decide as Hparquet; [|done]].
  - unfold to_arrow in Hrun. rewrite run_bind in Hrun.
    destruct (for_items read_files gathered st) as [s1 [e|read]] eqn:Hread; [done|].
    destruct (for_items_inv _ _ _ _ _ Hread k g Hk) as (s2 & s3 & w & Hw & _).
    by apply read_files_inv in Hw as [? _].
  - unfold to_parquet in Hrun. rewrite run_bind in Hrun.
    destruct (for_items (to_parquet_group dest_path) gathered st)
      as [s1 [e|written]] eqn:Hwrite; [done|].
    destruct (for_items_inv _ _ _ _ _ Hwrite k g Hk) as (s2 & s3 & w & Hw & _).
    unfold to_parquet_group in Hw. rewrite run_bind in Hw.
    rewrite decide_True in Hw.
    + destruct (read_files k g s2) as [s4 [e|g']] eqn:Hread; [done|].
      by apply read_files_inv in Hread as [? _].
    + rewrite filter_none_nil.
      * destruct g; [done|]. cbn. lia.
      * eapply Forall_impl; [exact Hfresh|]. cbn. intros r -> [t Ht]. done.
Qed.

Lemma convert_reads_only_csv_witness :
  ∃ gathered,
    gather_records [ MkEntry (of_string "/data/p1/image.csv") true ] None None
      = inr gathered ∧
    ∀ k, k ∈ dom gathered → suffix (of_string k) = ".csv".
Proof.
  destruct (convert [ MkEntry (of_string "/data/p1/image.csv") true ] "dest" "arrow"
              None None true
              (MkState {[ "/data/p1/image.csv" :=
                            CsvFile [ MkColumn "ImageNumber" Int64 [PInt 1] ] ]} []))
    as [st' [e|out]] eqn:Hrun.
  - vm_compute in Hrun. discriminate Hrun.
  - exact (convert_reads_only_csv _ _ _ _ _ _ _ _ _ Hrun).
Defined.


(** ** The rows of a merged artifact *)

Lemma column_data_append_rows (n : string) (a b : Table) :
  schema a = schema b →
  column_data n (append_rows a b) = (column_data n a ++ column_data n b)%list.
Proof.
  revert b. induction a as [|ca a IH]; intros [|cb b] Heq; try done.
  injection Heq as Hname _ Heq. unfold append_rows in *. cbn.
  rewrite <- Hname. case_decide; [done|]. by apply IH.
Qed.

Lemma column_data_empty_like (n : string) (t : Table) : column_data n (empty_like t) = [].
Proof.
  induction t as [|c t IH]; [done|]. cbn. by case_decide.
Qed.

Lemma column_data_foldl (n : string) (acc : Table) (ts : list Table) :
  Forall (λ t, schema t = schema acc) ts →
  column_data n (foldl append_rows acc ts)
    = (column_data n acc ++ concat (column_data n <$> ts))%list.
Proof.
  revert acc. induction ts as [|t ts IH]; intros acc Hall.
  - cbn. by rewrite app_nil_r.
  - apply Forall_cons in Hall as [Ht Hts]. cbn [foldl fmap list_fmap concat].
    rewrite IH.
    + rewrite column_data_append_rows by done. by rewrite <- app_assoc.
    + eapply Forall_impl; [exact Hts|]. cbn. intros t' ->.
      symmetry. by apply schema_append_rows.
Qed.

Lemma find_column_data (n : string) (t : Table) (c : Column) :
  find_column n t = Some c → col_name c = n ∧ column_data n t = col_data c.
Proof.
  unfold find_column. induction t as [|c0 t IH]; [done|].
  cbn. case_decide as Hn.
  - by intros [= <-].
  - destruct (list_find (λ c1, col_name c1 = n) t) as [[i c1]|]; [|done].
    cbn. intros [= <-]. by apply IH.
Qed.

Lemma select_column_data (names : list string) (t t' : Table) (n : string) :
  select names t = Some t' → n ∈ names → column_data n t' = column_data n t.
Proof.
  unfold select. revert t'. induction names as [|m names IH]; intros t' Hsel Hn.
  - by apply not_elem_of_nil in Hn.
  - cbn in Hsel. destruct (find_column m t) as [c|] eqn:Hc; [|done]. cbn in Hsel.
    destruct (mapM (λ n0, find_column n0 t) names) as [t''|] eqn:Hrest; [|done].
    injection Hsel as <-. apply find_column_data in Hc as [Hname Hdata].
    cbn [column_data]. rewrite Hname. case_decide as Hm.
    + by rewrite <- Hm.
    + apply elem_of_cons in Hn as [->|Hn]; [congruence|]. by apply IH.
Qed.

(** X13. In-memory concatenation keeps every row: when it returns, the
    merged table has the first member's schema, and each of its columns
    holds the values of that column in the first member, then in the
    second, and so on. *)
Theorem concat_in_memory_rows (first : record) (rest : list record)
    (dest_path : option string) (st st' : state) (out : list record)
    (t0 : Table) (tabs : list Table) :
  Forall2 (λ r t, table r = Some t) (first :: rest) (t0 :: tabs) →
  concat_record_group (first :: rest) dest_path st = (st', inr out) →
  ∃ r merged,
    out = [r] ∧ table r = Some merged ∧ schema merged = schema t0 ∧
    ∀ n, column_data n merged = concat (column_data n <$> (t0 :: tabs)).
Proof.
  intros Hall Hrun.
  rewrite (concat_record_group_in_memory _ _ _ _ t0 tabs) in Hrun by done.
  destruct (forallb _ tabs) eqn:Hsame; [|done].
  apply forallb_schema_Forall in Hsame. injection Hrun as _ <-.
  eexists _, _. split; [reflexivity|]. split; [reflexivity|].
  split; [by apply schema_foldl_append_rows|].
  intros n. by rewrite column_data_foldl.
Qed.

Lemma concat_in_memory_rows_witness :
  ∃ r merged,
    (concat_record_group
       [ MkRecord (of_string "/data/run/p1/cells.csv")
           (Some [ MkColumn "ObjectNumber" Int64 [PInt 1; PInt 2] ]) None;
         MkRecord (of_string "/data/run/p2/cells.csv")
           (Some [ MkColumn "ObjectNumber" Int64 [PInt 3] ]) None ]
       None (MkState ∅ [])).2 = inr [r] ∧
    table r = Some merged ∧
    column_data "ObjectNumber" merged = [PInt 1; PInt 2; PInt 3].
Proof.
  destruct (concat_record_group
       [ MkRecord (of_string "/data/run/p1/cells.csv")
           (Some [ MkColumn "ObjectNumber" Int64 [PInt 1; PInt 2] ]) None;
         MkRecord (of_string "/data/run/p2/cells.csv")
           (Some [ MkColumn "ObjectNumber" Int64 [PInt 3] ]) None ]
       None (MkState ∅ [])) as [st' [e|out]] eqn:Hrun.
  - vm_compute in Hrun. discriminate Hrun.
  - pose proof (λ H, concat_in_memory_rows _ _ _ _ _ _
                [ MkColumn "ObjectNumber" Int64 [PInt 1; PInt 2] ]
                [ [ MkColumn "ObjectNumber" Int64 [PInt 3] ] ] H Hrun) as Hthm.
    destruct Hthm as (r & merged & -> & Htab & _ & Hdata); [repeat constructor|].
    exists r, merged. split; [reflexivity|]. split; [exact Htab|].
    exact (Hdata "ObjectNumber").
Defined.

(** The rows that a loop that ended well has appended: the members'
    tables, each projected on the asked columns and of the writer's
    schema. *)
Lemma append_members_rows (columns : list string) (tables : list string)
    (tabs : list Table) :
  ∀ (w w' : writer) (st st' : state),
    NoDup tables →
    Forall2 (λ p t, files st !! p = Some (ParquetFile t)) tables tabs →
    append_members w columns tables st = (st', inr w') →
    ∃ projected,
      Forall2 (λ t t', select columns t = Some t' ∧ schema t' = w_schema w) tabs projected ∧
      w_rows w' = foldl append_rows (w_rows w) projected.
Proof.
  revert tabs. induction tables as [|p tables IH]; intros tabs w w' st st' Hnd Hall Hrun.
  - apply Forall2_nil_inv_l in Hall as ->. injection Hrun as _ <-.
    exists []. split; [constructor|done].
  - apply Forall2_cons_inv_l in Hall as (t & tabs' & Hp & Hall & ->).
    apply NoDup_cons in Hnd as [Hnotin Hnd].
    rewrite append_members_cons, read_table_run, Hp in Hrun.
    destruct (select columns t) as [t'|] eqn:Hsel; [|done].
    rewrite write_table_run in Hrun. case_decide as Hschema; [|done].
    rewrite unlink_run in Hrun. cbn [files trace] in Hrun. rewrite Hp in Hrun.
    eapply IH in Hrun as (projected & Hproj & Hrows); [|done|].
    + exists (t' :: projected). split; [by constructor|]. by rewrite Hrows.
    + apply Forall2_same_length_lookup in Hall as [Hlen Hall].
      apply Forall2_same_length_lookup. split; [done|].
      intros i q tq Hq Htq. cbn. rewrite lookup_delete_ne; [by eapply Hall|].
      intros ->. apply Hnotin. by eapply list_elem_of_lookup_2.
Qed.

(** X14. Streaming concatenation keeps every row: when it returns on
    member files that are there, pairwise distinct and other than the
    merged file, the merged file holds, for each column of the first
    member, the values of that column in the first member's file, then in
    the second's, and so on, whatever the column order of the members. *)
Theorem concat_streaming_rows (first : record) (rest : list record)
    (dest_path : option string) (st st' : state) (out : list record)
    (dests : list Path) (t0 : Table) (tabs : list Table) :
  Forall2 (λ r d, table r = None ∧ destination_path r = Some d) (first :: rest) dests →
  Forall2 (λ d t, files st !! to_string d = Some (ParquetFile t)) dests (t0 :: tabs) →
  NoDup (to_string <$> dests) →
  to_string (concat_destination dest_path (source_path first)) ∉ to_string <$> dests →
  concat_record_group (first :: rest) dest_path st = (st', inr out) →
  ∃ merged,
    files st' !! to_string (concat_destination dest_path (source_path first))
      = Some (ParquetFile merged) ∧
    schema merged = schema t0 ∧
    ∀ n, n ∈ column_names t0 →
         column_data n merged = concat (column_data n <$> (t0 :: tabs)).
Proof.
  intros Hrecs Hfiles Hnd Hdest Hrun.
  set (destination := to_string (concat_destination dest_path (source_path first))) in *.
  destruct dests as [|d0 dests']; [by apply Forall2_cons_nil_inv in Hrecs|].
  pose proof Hrecs as Hrecs0. apply Forall2_cons_1 in Hrecs0 as [[Htab Hd0] _].
  pose proof Hfiles as Hfiles0. apply Forall2_cons_1 in Hfiles0 as [Hf0 _].
  assert (∃ st1, (if bool_decide (is_Some (files st !! destination))
                  then unlink destination else mret ()) st = (st1, inr ())
                 ∧ files st1 = delete destination (files st)) as (st1 & Hclean & Hst1).
  { case_bool_decide as Hex.
    - rewrite unlink_run. destruct Hex as [f Hf]. rewrite Hf. eauto.
    - exists st. split; [done|]. symmetry. apply delete_id.
      by apply eq_None_not_Some. }
  assert (∀ d, d ∈ d0 :: dests' → to_string d ≠ destination) as Hne.
  { intros d Hd Heq. apply Hdest. rewrite <- Heq. by apply list_elem_of_fmap_2. }
  unfold concat_record_group in Hrun. rewrite Htab, Hd0 in Hrun. cbv zeta in Hrun.
  fold destination in Hrun.
  rewrite run_bind in Hrun. cbn [get_files] in Hrun. cbv beta iota in Hrun.
  rewrite run_bind, Hclean in Hrun.
  rewrite run_bind, read_table_run, Hst1 in Hrun.
  rewrite lookup_delete_ne in Hrun by (apply not_eq_sym, Hne; left).
  rewrite Hf0 in Hrun.
  rewrite run_bind, open_writer_run in Hrun.
  rewrite run_bind, release_on_error_run, (collect_key_run _ _ (d0 :: dests')) in Hrun.
  2:{ eapply Forall2_impl; [exact Hrecs|]. by intros r d [_ ?]. }
  rewrite run_bind in Hrun.
  match type of Hrun with
  | context [append_members ?w _ _ ?s] =>
      destruct (append_members w (column_names t0) (to_string <$> d0 :: dests') s)
        as [st3 [e|w']] eqn:Hloop; [done|]
  end.
  pose proof (append_members_path _ _ _ _ _ _ Hloop) as Hpath.
  apply (append_members_rows _ _ (t0 :: tabs)) in Hloop as (projected & Hproj & Hrows);
    [|done|].
  2:{ apply Forall2_fmap_l.
      apply Forall2_same_length_lookup in Hfiles as [Hlen Hfiles].
      apply Forall2_same_length_lookup. split; [done|].
      intros i d t Hd Ht. cbn. rewrite lookup_insert_ne, lookup_delete_ne
        by (apply not_eq_sym, Hne; by eapply list_elem_of_lookup_2).
      by eapply Hfiles. }
  rewrite run_bind, close_writer_run in Hrun. injection Hrun as <- _.
  cbn [w_schema w_rows w_path] in *.
  exists (w_rows w'). rewrite Hpath. cbn [files]. split; [apply lookup_insert_eq|].
  assert (Forall (λ t, schema t = schema (empty_like t0)) projected) as Hsch.
  { rewrite schema_empty_like. clear -Hproj.
    induction Hproj as [|t t' ts ts' [_ ?] _ IH]; by constructor. }
  split.
  - rewrite Hrows, schema_foldl_append_rows by done. apply schema_empty_like.
  - intros n Hn. rewrite Hrows, column_data_foldl, column_data_empty_like by done.
    cbn [app]. f_equal. clear -Hproj Hn.
    induction Hproj as [|t t' ts ts' [Hsel _] _ IH]; [done|].
    cbn. f_equal; [|done]. by eapply select_column_data.
Qed.

Lemma concat_streaming_rows_witness :
  ∃ merged,
    files (concat_record_group
             [ MkRecord (of_string "/data/run/p1/cells.csv") None
                 (Some (of_string "dest/p1.cells.parquet"));
               MkRecord (of_string "/data/run/p2/cells.csv") None
                 (Some (of_string "dest/p2.cells.parquet")) ]
             (Some "dest")
             (MkState {[ "dest/p1.cells.parquet" :=
                           ParquetFile [ MkColumn "ObjectNumber" Int64 [PInt 1];
                                         MkColumn "Area" Int64 [PInt 10] ];
                         "dest/p2.cells.parquet" :=
                           ParquetFile [ MkColumn "Area" Int64 [PInt 20];
                                         MkColumn "ObjectNumber" Int64 [PInt 2] ] ]} [])).1
      !! "dest/run.cells.parquet" = Some (ParquetFile merged) ∧
    column_data "Area" merged = [PInt 10; PInt 20].
Proof.
  destruct (concat_record_group
             [ MkRecord (of_string "/data/run/p1/cells.csv") None
                 (Some (of_string "dest/p1.cells.parquet"));
               MkRecord (of_string "/data/run/p2/cells.csv") None
                 (Some (of_string "dest/p2.cells.parquet")) ]
             (Some "dest")
             (MkState {[ "dest/p1.cells.parquet" :=
                           ParquetFile [ MkColumn "ObjectNumber" Int64 [PInt 1];
                                         MkColumn "Area" Int64 [PInt 10] ];
                         "dest/p2.cells.parquet" :=
                           ParquetFile [ MkColumn "Area" Int64 [PInt 20];
                                         MkColumn "ObjectNumber" Int64 [PInt 2] ] ]} []))
    as [st' [e|out]] eqn:Hrun.
  - vm_compute in Hrun. discriminate Hrun.
  - pose proof (λ H1 H2 H3 H4, concat_streaming_rows _ _ _ _ _ _
                [ of_string "dest/p1.cells.parquet"; of_string "dest/p2.cells.parquet" ]
                [ MkColumn "ObjectNumber" Int64 [PInt 1]; MkColumn "Area" Int64 [PInt 10] ]
                [ [ MkColumn "Area" Int64 [PInt 20]; MkColumn "ObjectNumber" Int64 [PInt 2] ] ]
                H1 H2 H3 H4 Hrun) as Hthm.
    destruct Hthm as (merged & Hfile & _ & Hdata);
      [repeat constructor | repeat constructor
       | repeat constructor; not_in_list | not_in_list |].
    exists merged. split; [exact Hfile|].
    apply (Hdata "Area"). right. left.
Defined.


(** X15. The merged file of a streaming concatenation is named after the
    first member alone: <grandparent directory>.<stem>.parquet, whatever
    the other members and the destination directory. *)
Theorem concat_destination_name (dest_path : option string) (first : Path) :
  well_formed first →
  name (concat_destination dest_path first)
    = name (parent (parent first)) ++ "." ++ stem first ++ ".parquet".
Proof.
  intros Hwf. unfold concat_destination.
  pose proof (stem_well_formed _ Hwf) as Hstem.
  pose proof (name_well_formed _ (parent_well_formed _ (parent_well_formed _ Hwf))) as Hpar.
  replace (fmt_opt dest_path ++ "/" ++ name (parent (parent first)) ++ "."
             ++ stem first ++ ".parquet")
    with (fmt_opt dest_path ++ "/" ++ ((name (parent (parent first)) ++ "."
             ++ stem first) ++ ".parquet"))
    by (by rewrite !string_app_assoc).
  rewrite name_of_string_app.
  - by rewrite !string_app_assoc.
  - rewrite !contains_slash_app, Hpar, Hstem. done.
  - apply append_parquet_ne.
  - apply append_parquet_ne.
Qed.

Lemma concat_destination_name_witness :
  name (concat_destination (Some "dest") (of_string "/data/run/plate1/cells.csv"))
    = "run.cells.parquet".
Proof.
  exact (concat_destination_name (Some "dest") (of_string "/data/run/plate1/cells.csv")
           (of_string_well_formed _)).
Defined.

(** ** Extraction from SQLite: chunks and the written file *)

(** X16. Consecutive chunks tile the table: for a non-negative offset and
    chunk sizes, the chunk at [offset] of size [n] followed by the chunk
    at [offset + n] of size [m] is the chunk at [offset] of size [n + m],
    and a chunk has [n] rows or, at the end of the table, the rows that
    are left. *)
Theorem mixed_type_query_chunks (db : gmap string SqliteTable) (tname : string)
    (n m offset : Z) (t : SqliteTable) :
  db !! tname = Some t →
  tbl_columns t ≠ [] →
  (0 ≤ n)%Z → (0 ≤ m)%Z → (0 ≤ offset)%Z →
  ∃ a b,
    mixed_type_query db tname n offset = inr a ∧
    mixed_type_query db tname m (offset + n) = inr b ∧
    mixed_type_query db tname (n + m) offset = inr (a ++ b)%list ∧
    length a = (Z.to_nat n `min` (length (tbl_rows t) - Z.to_nat offset))%nat.
Proof.
  intros Hdb Hcols Hn Hm Hoff.
  rewrite !(mixed_type_query_eq db tname _ _ t) by done.
  eexists _, _. split; [reflexivity|]. split; [reflexivity|]. split.
  - f_equal. rewrite <- fmap_app. f_equal. unfold limit_offset.
    rewrite !(proj2 (Z.ltb_ge _ _)) by lia.
    rewrite Z2Nat.inj_add by lia.
    rewrite <- (take_drop (Z.to_nat n)
                  (take (Z.to_nat n + Z.to_nat m) (drop (Z.to_nat offset) (tbl_rows t)))).
    f_equal.
    + rewrite take_take. f_equal. lia.
    + rewrite <- take_drop_commute, drop_drop.
      f_equal. f_equal. lia.
  - rewrite length_fmap. unfold limit_offset.
    rewrite (proj2 (Z.ltb_ge _ _)) by lia.
    by rewrite length_take, length_drop.
Qed.

Lemma mixed_type_query_chunks_witness :
  ∃ a b,
    mixed_type_query
      {[ "Image" := MkSqliteTable [("ImageNumber", "INTEGER")]
                      [ [PInt 1]; [PInt 2]; [PInt 3] ] ]} "Image" 2 0 = inr a ∧
    mixed_type_query
      {[ "Image" := MkSqliteTable [("ImageNumber", "INTEGER")]
                      [ [PInt 1]; [PInt 2]; [PInt 3] ] ]} "Image" 2 2 = inr b ∧
    length a = 2%nat.
Proof.
  destruct (mixed_type_query_chunks
              {[ "Image" := MkSqliteTable [("ImageNumber", "INTEGER")]
                              [ [PInt 1]; [PInt 2]; [PInt 3] ] ]} "Image" 2 2 0
              (MkSqliteTable [("ImageNumber", "INTEGER")] [ [PInt 1]; [PInt 2]; [PInt 3] ]))
    as (a & b & Ha & Hb & _ & Hlen); [reflexivity|discriminate|lia|lia|lia|].
  exists a, b. split; [exact Ha|]. split; [exact Hb|]. exact Hlen.
Defined.











(** ** More on the column sort key *)

Lemma index_of_bound (x : string) (l : list string) (i : nat) :
  PyStr.index_of x l = Some i → (i < length l)%nat.
Proof.
  revert i. induction l as [|y l IH]; intros i; [done|].
  cbn. case_decide; [intros [= <-]; lia|].
  destruct (PyStr.index_of x l) as [j|]; [|done].
  intros [= <-]. specialize (IH j eq_refl). lia.
Qed.

Lemma first_prefix_bound (value_lower : string) (k i : nat) (l : list string) :
  first_prefix value_lower k l = Some i → (k ≤ i < k + length l)%nat.
Proof.
  revert k. induction l as [|v l IH]; intros k; [done|].
  cbn. destruct (PyStr.startswith value_lower v); [intros [= <-]; lia|].
  intros Hi%IH. lia.
Qed.

(** X18. The sort key of a column is an index from 0 to 11, and it
    depends on the name only up to the case of its ASCII letters. *)
Theorem column_sort_range_case (value : string) :
  (_column_sort value ≤ 11)%nat ∧
  _column_sort (PyStr.lower value) = _column_sort value.
Proof.
  split.
  - unfold _column_sort. cbv zeta.
    destruct (PyStr.in_list _ sort_first).
    + destruct (PyStr.index_of _ sort_first) as [i|] eqn:Hi; [|cbn; lia].
      apply index_of_bound in Hi. cbn in *. lia.
    + destruct (PyStr.contains _ sort_middle); [cbn; lia|].
      destruct (existsb _ sort_later); [|cbn; lia].
      destruct (first_prefix _ _ sort_later) as [i|] eqn:Hi; [|cbn; lia].
      apply first_prefix_bound in Hi. cbn in *. lia.
  - unfold _column_sort. by rewrite lower_idemp.
Qed.

Section SortedTwice.
Context {A : Type} (key : A → nat).

Lemma insert_by_key_least (x : A) (l : list A) :
  Forall (λ y, key x ≤ key y)%nat l → insert_by_key key x l = x :: l.
Proof.
  destruct 1 as [|y l Hy _]; [done|].
  cbn. by rewrite (proj2 (Nat.leb_le _ _) Hy).
Qed.

Lemma sorted_of_sorted (l : list A) :
  StronglySorted (λ a b, key a ≤ key b)%nat l → sorted key l = l.
Proof.
  induction 1 as [|x l Hl IH Hx]; [done|].
  unfold sorted in *. cbn [foldr]. rewrite IH. by apply insert_by_key_least.
Qed.

End SortedTwice.

(** X19. Column names that are already in key order are left as they
    are by the sort, so sorting twice is sorting once; and the sort
    neither drops nor adds a column. *)
Theorem sorted_columns_idempotent (names : list string) :
  (StronglySorted (λ a b, _column_sort a ≤ _column_sort b)%nat names →
   sorted_columns names = names) ∧
  sorted_columns (sorted_columns names) = sorted_columns names ∧
  length (sorted_columns names) = length names.
Proof.
  split; [apply sorted_of_sorted|]. split.
  - apply sorted_of_sorted, sorted_sorted.
  - by rewrite (sorted_perm _column_sort names).
Qed.

Lemma sorted_columns_idempotent_witness :
  sorted_columns ["ImageNumber"; "Metadata_Well"; "Cells_Area"; "Other"]
    = ["ImageNumber"; "Metadata_Well"; "Cells_Area"; "Other"].
Proof.
  apply (proj1 (sorted_columns_idempotent
                  ["ImageNumber"; "Metadata_Well"; "Cells_Area"; "Other"])).
  repeat constructor; vm_compute; lia.
Defined.


(** ** What [to_parquet] leaves behind *)

Section InvRel.
Context (R : state → state → Prop) `{!Reflexive R, !Transitive R}.

Lemma for_each_inv_rel {A B} (f : A → M B) (l : list A) (st st' : state) (ys : list B) :
  (∀ x s, R s (f x s).1) →
  for_each f l st = (st', inr ys) →
  Forall2 (λ x y, ∃ s1 s2, f x s1 = (s2, inr y) ∧ R s2 st') l ys.
Proof.
  intros Hf. revert st ys. induction l as [|x l IH]; intros st ys Hrun.
  - injection Hrun as _ <-. constructor.
  - rewrite for_each_cons in Hrun.
    destruct (f x st) as [st1 [e|y]] eqn:Hx; [done|].
    pose proof (for_each_frame R f l st1 (λ x' s _, Hf x' s)) as Hrest.
    destruct (for_each f l st1) as [st2 [e|ys']] eqn:Hl; [done|].
    injection Hrun as -> <-. constructor; [by exists st, st1|]. by eapply IH.
Qed.

Lemma for_each_future_result_state {A} (futures : list (result A)) (st : state) :
  (for_each future_result futures st).1 = st.
Proof.
  revert st. induction futures as [|fut futures IH]; intros st; [done|].
  rewrite for_each_cons. unfold future_result at 1.
  destruct fut as [e|y]; [done|]. specialize (IH st).
  by destruct (for_each future_result futures st) as [st2 [e|ys]].
Qed.

Lemma map_task_inv_rel {A B} (task : A → M B) (l : list A) (st st' : state)
    (out : list B) :
  (∀ x s, R s (task x s).1) →
  map_task task l st = (st', inr out) →
  Forall2 (λ x y, ∃ s1 s2, task x s1 = (s2, inr y) ∧ R s2 st') l out.
Proof.
  intros Htask. unfold map_task. rewrite run_bind.
  destruct (for_each _ l st) as [st1 [e|futures]] eqn:Hsub; [done|].
  intros Hres.
  assert (st' = st1) as ->.
  { pose proof (for_each_future_result_state futures st1) as Hst.
    by rewrite Hres in Hst. }
  apply for_each_inv_rel in Hsub.
  2:{ intros x s. unfold submit. specialize (Htask x s). by destruct (task x s). }
  apply for_each_inv in Hres.
  revert out Hres.
  induction Hsub as [|x fut l futs (s1 & s2 & Hx & HR) _ IH]; intros out Hres.
  - by apply Forall2_nil_inv_l in Hres as ->.
  - apply Forall2_cons_inv_l in Hres as (y & out' & (s3 & s4 & Hy) & Hout & ->).
    constructor; [|by apply IH].
    unfold submit in Hx. destruct (task x s1) as [s5 r] eqn:Htask1.
    injection Hx as <- <-. unfold future_result in Hy. injection Hy as _ ->.
    by exists s1, s5.
Qed.

Lemma for_items_inv_rel {A B} (f : string → A → M B) (m : gmap string A)
    (st st' : state) (out : gmap string B) :
  (∀ k v s, R s (f k v s).1) →
  for_items f m st = (st', inr out) →
  ∀ k v, m !! k = Some v →
    ∃ s1 s2 w, f k v s1 = (s2, inr w) ∧ out !! k = Some w ∧ R s2 st'.
Proof.
  intros Hf. rewrite for_items_run.
  destruct (for_each _ (map_to_list m) st) as [st1 [e|l]] eqn:Hrun; [done|].
  intros [= <- <-] k v Hk.
  pose proof (for_each_inv _ _ _ _ _ Hrun) as Hall.
  assert (l.*1 = (map_to_list m).*1) as Hkeys.
  { clear Hk Hrun. induction Hall as [|[k1 v1] [k2 w2] l1 l2 (s1 & s2 & Hy) _ IH]; [done|].
    cbn. f_equal; [|done]. cbn in Hy. rewrite run_bind in Hy.
    destruct (f k1 v1 s1) as [s3 [e|w]]; [done|]. by injection Hy as _ <- _. }
  apply for_each_inv_rel in Hrun.
  2:{ intros [k' v'] s. cbn. rewrite run_bind. specialize (Hf k' v' s).
      by destruct (f k' v' s) as [s' [e|w]]. }
  apply elem_of_map_to_list in Hk.
  apply list_elem_of_lookup in Hk as [i Hi].
  destruct (Forall2_lookup_l _ _ _ _ _ Hrun Hi) as ([k' w] & Hw & s1 & s2 & Hy & HR).
  cbn in Hy. rewrite run_bind in Hy.
  destruct (f k v s1) as [s3 [e|w']] eqn:Hfk; [done|].
  injection Hy as Hs Hk' Hw'. subst s2 k' w. exists s1, s3, w'. split; [done|].
  split; [|done]. apply elem_of_list_to_map_1.
  - rewrite Hkeys. apply NoDup_fst_map_to_list.
  - by eapply list_elem_of_lookup_2.
Qed.

End InvRel.

Lemma same_files_parquet_kept (s s' : state) : same_files s s' → parquet_kept s s'.
Proof. intros Hsame p t Hp. exists t. unfold same_files in Hsame. by rewrite Hsame. Qed.

Lemma write_parquet_run (r : record) (dest_path : string) (unique_name : bool)
    (s : state) :
  write_parquet r dest_path unique_name s =
    match table r with
    | Some t =>
        (MkState (<[to_string (write_destination r dest_path unique_name) := ParquetFile t]>
                    (files s))
           ((trace s ++ [EvMkdir dest_path])
              ++ [EvWrite (to_string (write_destination r dest_path unique_name))]),
         inr (MkRecord (source_path r) None
                (Some (write_destination r dest_path unique_name))))
    | None => (MkState (files s) (trace s ++ [EvMkdir dest_path]), inl KeyError)
    end.
Proof. unfold write_parquet. by destruct (table r). Qed.

Lemma write_parquet_kept (r : record) (dest_path : string) (unique_name : bool)
    (s : state) :
  parquet_kept s (write_parquet r dest_path unique_name s).1.
Proof.
  rewrite write_parquet_run. destruct (table r) as [t|]; [|by apply same_files_parquet_kept].
  cbn [fst files]. intros p t' Hp. cbn [files].
  destruct (decide (to_string (write_destination r dest_path unique_name) = p)) as [<-|Hne].
  - exists t. apply lookup_insert_eq.
  - exists t'. by rewrite lookup_insert_ne.
Qed.

Lemma to_parquet_group_kept (dest_path record_group_name : string)
    (record_group : list record) (s : state) :
  parquet_kept s (to_parquet_group dest_path record_group_name record_group s).1.
Proof.
  unfold to_parquet_group. rewrite run_bind.
  assert (∀ g s0, parquet_kept s0
            (map_task (λ r, write_parquet r dest_path (needs_unique_name g)) g s0).1) as Hw.
  { intros g s0. apply (map_task_frame parquet_kept). intros r s1 _.
    apply write_parquet_kept. }
  case_decide.
  - pose proof (read_files_frame record_group_name record_group s) as Hread.
    apply same_files_parquet_kept in Hread.
    destruct (read_files record_group_name record_group s) as [s1 [e|g1]]; [done|].
    cbn in Hread. etrans; [exact Hread|]. apply Hw.
  - apply Hw.
Qed.

Lemma to_parquet_group_written (dest_path record_group_name : string)
    (record_group out : list record) (s s' : state) :
  to_parquet_group dest_path record_group_name record_group s = (s', inr out) →
  Forall (λ r', table r' = None ∧
                ∃ d t, destination_path r' = Some d ∧
                       files s' !! to_string d = Some (ParquetFile t)) out.
Proof.
  unfold to_parquet_group. rewrite run_bind.
  assert (∀ g s0,
            map_task (λ r, write_parquet r dest_path (needs_unique_name g)) g s0
              = (s', inr out) →
            Forall (λ r', table r' = None ∧
                          ∃ d t, destination_path r' = Some d ∧
                                 files s' !! to_string d = Some (ParquetFile t)) out) as Hw.
  { intros g s0 Hrun. apply (map_task_inv_rel parquet_kept) in Hrun.
    2:{ intros r s1. apply write_parquet_kept. }
    apply Forall_forall. intros r' Hr'. apply list_elem_of_lookup in Hr' as [i Hi].
    destruct (Forall2_lookup_r _ _ _ _ _ Hrun Hi) as (r & _ & s1 & s2 & Hwrite & Hkept).
    rewrite write_parquet_run in Hwrite. destruct (table r) as [t|] eqn:Ht; [|done].
    injection Hwrite as <- <-. split; [done|].
    destruct (Hkept (to_string (write_destination r dest_path (needs_unique_name g))) t)
      as [t' Ht']; [cbn; apply lookup_insert_eq|].
    by eexists _, t'. }
  case_decide.
  - destruct (read_files record_group_name record_group s) as [s1 [e|g1]]; [done|].
    apply Hw.
  - apply Hw.
Qed.

(** X20. When [to_parquet] without concatenation returns, it returns the
    same keys with groups of the same sizes, every returned record has
    given up its table for a destination, and every such destination is a
    complete columnar file at that moment. *)
Theorem to_parquet_written (records : gmap string (list record)) (dest_path : string)
    (st st' : state) (out : gmap string (list record)) :
  to_parquet records dest_path false st = (st', inr out) →
  dom out = dom records ∧
  ∀ k g', out !! k = Some g' →
    (∃ g, records !! k = Some g ∧ length g' = length g) ∧
    Forall (λ r', table r' = None ∧
                  ∃ d t, destination_path r' = Some d ∧
                         files st' !! to_string d = Some (ParquetFile t)) g'.
Proof.
  unfold to_parquet. rewrite run_bind.
  destruct (for_items (to_parquet_group dest_path) records st)
    as [st1 [e|written]] eqn:Hrun; [done|].
  intros [= <- <-].
  pose proof (for_items_dom _ _ _ _ _ Hrun) as Hdom. split; [done|].
  intros k g' Hk.
  assert (is_Some (records !! k)) as [g Hg].
  { apply elem_of_dom. rewrite <- Hdom. apply elem_of_dom. eauto. }
  destruct (for_items_inv_rel parquet_kept _ _ _ _ _
              (λ k0 v s, to_parquet_group_kept dest_path k0 v s) Hrun k g Hg)
    as (s1 & s2 & w & Hgroup & Hw & Hkept).
  rewrite Hk in Hw. injection Hw as <-. split.
  - exists g. split; [done|]. by apply to_parquet_group_destinations in Hgroup as [? _].
  - apply to_parquet_group_written in Hgroup.
    eapply Forall_impl; [exact Hgroup|]. cbn.
    intros r' (Htab & d & t & Hd & Hfile). split; [done|].
    destruct (Hkept _ _ Hfile) as [t' Ht']. by exists d, t'.
Qed.

Lemma to_parquet_written_witness :
  ∃ st' out,
    to_parquet
      {[ "cells.csv" := [ MkRecord (of_string "/data/p1/cells.csv") None None ] ]}
      "dest" false
      (MkState {[ "/data/p1/cells.csv" :=
                    CsvFile [ MkColumn "ObjectNumber" Int64 [PInt 1] ] ]} [])
      = (st', inr out) ∧
    dom out = {[ "cells.csv" ]}.
Proof.
  destruct (to_parquet
      {[ "cells.csv" := [ MkRecord (of_string "/data/p1/cells.csv") None None ] ]}
      "dest" false
      (MkState {[ "/data/p1/cells.csv" :=
                    CsvFile [ MkColumn "ObjectNumber" Int64 [PInt 1] ] ]} []))
    as [st' [e|out]] eqn:Hrun.
  - vm_compute in Hrun. discriminate Hrun.
  - exists st', out. split; [reflexivity|].
    rewrite (proj1 (to_parquet_written _ _ _ _ _ Hrun)). apply dom_singleton_L.
Defined.


(** ** Which conversions write *)

(** X21. Only a conversion to parquet writes: for every other destination
    datatype, "arrow" or one that [convert] does not know, the files after
    [convert] are the files before it, whatever is gathered and whatever
    the outcome. An unknown destination datatype raises once the gathering
    has gone through. *)
Theorem convert_writes_only_parquet (entries : list dir_entry)
    (dest_path dest_datatype : string) (source_datatype : option string)
    (targets : option (list string)) (concat : bool) (st : state) :
  dest_datatype ≠ "parquet" →
  files (convert entries dest_path dest_datatype source_datatype targets concat st).1
    = files st ∧
  (dest_datatype ≠ "arrow" →
   ∀ gathered, gather_records entries source_datatype targets = inr gathered →
     convert entries dest_path dest_datatype source_datatype targets concat st
       = (st, inl UnboundLocalError)).
Proof.
  intros Hparquet. unfold convert. rewrite run_bind. unfold lift.
  change (gather_records entries source_datatype
            (Some match targets with Some ts => ts | None => DEFAULT_TARGETS end))
    with (gather_records entries source_datatype targets).
  destruct (gather_records entries source_datatype targets) as [e|gathered].
  - split; [done|]. by intros _ g [=].
  - case_decide as Harrow.
    + split; [apply to_arrow_frame|done].
    + rewrite decide_False by done. split; [done|]. by intros _ g _.
Qed.

Lemma convert_writes_only_parquet_witness :
  files (convert [ MkEntry (of_string "/data/p1/image.csv") true ] "dest" "feather"
           None None true
           (MkState {[ "/data/p1/image.csv" :=
                         CsvFile [ MkColumn "ImageNumber" Int64 [PInt 1] ] ]} [])).1
    = {[ "/data/p1/image.csv" := CsvFile [ MkColumn "ImageNumber" Int64 [PInt 1] ] ]}.
Proof.
  apply (proj1 (convert_writes_only_parquet
                  [ MkEntry (of_string "/data/p1/image.csv") true ] "dest" "feather"
                  None None true
                  (MkState {[ "/data/p1/image.csv" :=
                                CsvFile [ MkColumn "ImageNumber" Int64 [PInt 1] ] ]} [])
                  ltac:(discriminate))).
Defined.

(** ** Failure and order in the streaming concatenation *)

(** Whatever its outcome, the loop creates no file but the one its writer
    holds. *)
Lemma append_members_creates_nothing (columns : list string) (tables : list string) :
  ∀ (w : writer) (st st' : state) (r : result writer) (q : string),
    q ≠ w_path w → files st !! q = None →
    append_members w columns tables st = (st', r) →
    files st' !! q = None.
Proof.
  induction tables as [|p tables IH]; intros w st st' r q Hq Hnone Hrun.
  - by injection Hrun as <- _.
  - rewrite append_members_cons, read_table_run in Hrun.
    assert (∀ tr, files (released w (MkState (files st) tr)) !! q = None) as Hfail.
    { intros tr. cbn. by rewrite lookup_insert_ne. }
    destruct (files st !! p) as [[t|t| |db]|] eqn:Hp;
      try (injection Hrun as <- _; by apply Hfail).
    destruct (select columns t) as [t'|]; [|injection Hrun as <- _; by apply Hfail].
    rewrite write_table_run in Hrun.
    case_decide; [|injection Hrun as <- _; by apply Hfail].
    rewrite unlink_run in Hrun. cbn [files trace] in Hrun. rewrite Hp in Hrun.
    eapply IH; [| |exact Hrun]; [done|].
    cbn. rewrite lookup_delete_ne; [done|]. intros ->. congruence.
Qed.

(** A loop that fails leaves the file of its writer complete, with the
    rows of the members it has appended: these are the first members, not
    all of them, each read as it was before the loop, projected on the
    columns asked for, and removed. *)
Lemma append_members_failure (columns : list string) (tables : list string) :
  ∀ (w : writer) (st st' : state) (e : exn),
    files st !! w_path w = Some PartialParquet →
    append_members w columns tables st = (st', inl e) →
    ∃ appended : list Table,
      files st' !! w_path w
        = Some (ParquetFile (foldl append_rows (w_rows w) appended)) ∧
      (length appended < length tables)%nat ∧
      Forall2 (λ p t, ∃ full, files st !! p = Some (ParquetFile full) ∧
                              select columns full = Some t ∧
                              schema t = w_schema w ∧
                              files st' !! p = None)
              (take (length appended) tables) appended.
Proof.
  induction tables as [|p tables IH]; intros w st st' e Hdest Hrun; [done|].
  rewrite append_members_cons, read_table_run in Hrun.
  assert (∀ tr e', (released w (MkState (files st) tr), @inl exn writer e') = (st', inl e) →
            ∃ appended : list Table,
              files st' !! w_path w
                = Some (ParquetFile (foldl append_rows (w_rows w) appended)) ∧
              (length appended < length (p :: tables))%nat ∧
              Forall2 (λ p t, ∃ full, files st !! p = Some (ParquetFile full) ∧
                                      select columns full = Some t ∧
                                      schema t = w_schema w ∧
                                      files st' !! p = None)
                      (take (length appended) (p :: tables)) appended) as Hfail.
  { intros tr e' [= <- _]. exists []. cbn. split; [apply lookup_insert_eq|].
    split; [lia|constructor]. }
  destruct (files st !! p) as [[t|t| |db]|] eqn:Hp; try (by eapply Hfail).
  destruct (select columns t) as [t'|] eqn:Hsel; [|by eapply Hfail].
  rewrite write_table_run in Hrun. case_decide as Hsch; [|by eapply Hfail].
  rewrite unlink_run in Hrun. cbn [files trace] in Hrun. rewrite Hp in Hrun.
  assert (p ≠ w_path w) as Hne by (intros ->; congruence).
  pose proof Hrun as Hrun'.
  apply IH in Hrun as (appended & Hfile & Hlen & Hall).
  2:{ cbn. by rewrite lookup_delete_ne. }
  cbn [w_path w_rows w_schema files] in Hfile, Hall.
  exists (t' :: appended). split; [exact Hfile|]. split; [cbn; lia|].
  cbn [length take]. constructor.
  - exists t. repeat split; try done.
    eapply (append_members_creates_nothing _ _ _ _ _ _ p); [|
      |exact Hrun']; [done|]. cbn. apply lookup_delete_eq.
  - eapply Forall2_impl; [exact Hall|].
    intros q tq (full & Hq & ? & ? & ?). exists full. split; [|done].
    by apply lookup_delete_Some in Hq as [_ Hq].
Qed.

(** X22. A streaming concatenation is not atomic: once the first member
    has been read (it is there, a complete columnar file, and not at the
    merged path), any failure, a member that is missing, of another
    schema, or without a destination, leaves at the merged path a complete
    file that is cut short: it has the first member's schema and holds the
    rows of the members appended before the failure only, which are the
    first members of the group, not all of them, and whose own files have
    been removed. *)
Theorem concat_streaming_failure_truncates (first : record) (rest : list record)
    (dest_path : option string) (st st' : state) (e : exn) (d0 : Path) (t0 : Table) :
  table first = None →
  destination_path first = Some d0 →
  files st !! to_string d0 = Some (ParquetFile t0) →
  to_string d0 ≠ to_string (concat_destination dest_path (source_path first)) →
  concat_record_group (first :: rest) dest_path st = (st', inl e) →
  ∃ (members : list record) (appended : list Table),
    files st' !! to_string (concat_destination dest_path (source_path first))
      = Some (ParquetFile (foldl append_rows (empty_like t0) appended)) ∧
    schema (foldl append_rows (empty_like t0) appended) = schema t0 ∧
    (members `prefix_of` first :: rest) ∧
    (length members < length (first :: rest))%nat ∧
    Forall2 (λ r t, ∃ d full,
               destination_path r = Some d ∧
               files st !! to_string d = Some (ParquetFile full) ∧
               select (column_names t0) full = Some t ∧
               files st' !! to_string d = None) members appended.
Proof.
  intros Htab Hd0 Hf0 Hne Hrun.
  set (destination := to_string (concat_destination dest_path (source_path first))) in *.
  assert (∃ st1, (if bool_decide (is_Some (files st !! destination))
                  then unlink destination else mret ()) st = (st1, inr ())
                 ∧ files st1 = delete destination (files st)) as (st1 & Hclean & Hst1).
  { case_bool_decide as Hex.
    - rewrite unlink_run. destruct Hex as [f Hf]. rewrite Hf. eauto.
    - exists st. split; [done|]. symmetry. apply delete_id.
      by apply eq_None_not_Some. }
  unfold concat_record_group in Hrun. rewrite Htab, Hd0 in Hrun. cbv zeta in Hrun.
  fold destination in Hrun.
  rewrite run_bind in Hrun. cbn [get_files] in Hrun. cbv beta iota in Hrun.
  rewrite run_bind, Hclean in Hrun.
  rewrite run_bind, read_table_run, Hst1 in Hrun.
  rewrite lookup_delete_ne in Hrun by done. rewrite Hf0 in Hrun.
  rewrite run_bind, open_writer_run in Hrun.
  rewrite run_bind, release_on_error_run in Hrun. unfold collect_key in Hrun at 1.
  destruct (mapM destination_path (first :: rest)) as [dests|] eqn:Hdests.
  - cbn [mret M_ret ret] in Hrun. rewrite run_bind in Hrun.
    match type of Hrun with
    | context [append_members ?w _ _ ?s] =>
        destruct (append_members w (column_names t0) (to_string <$> dests) s)
          as [st3 [e'|w']] eqn:Hloop
    end.
    2:{ by rewrite run_bind, close_writer_run in Hrun. }
    injection Hrun as <- _.
    apply append_members_failure in Hloop as (appended & Hfile & Hlen & Hall);
      [|cbn; apply lookup_insert_eq].
    cbn [w_path w_rows w_schema files] in Hfile, Hall.
    rewrite length_fmap in Hlen. rewrite <- fmap_take in Hall.
    apply Forall2_fmap_l in Hall.
    apply mapM_Some in Hdests.
    pose proof (Forall2_length _ _ _ Hdests) as Hlen2.
    exists (take (length appended) (first :: rest)), appended.
    split; [exact Hfile|]. split; [|split; [apply prefix_take|split]].
    + rewrite schema_foldl_append_rows; [apply schema_empty_like|].
      rewrite schema_empty_like.
      eapply Forall2_Forall_r; [exact Hall|]. apply Forall_forall.
      by intros d _ t (full & _ & _ & Hs & _).
    + rewrite length_take. lia.
    + eapply Forall2_trans;
        [|exact (Forall2_take _ (first :: rest) dests (length appended) Hdests)|exact Hall].
      cbn. intros r d t Hrd (full & Hfull & Hsel & _ & Hgone).
      exists d, full. repeat split; try done.
      cbn in Hfull.
      destruct (decide (to_string d = destination)) as [Heq|Hneq].
      * rewrite Heq, lookup_insert_eq in Hfull. done.
      * rewrite lookup_insert_ne, lookup_delete_ne in Hfull by done. exact Hfull.
  - injection Hrun as <- _. exists [], []. cbn [foldl length].
    split; [cbn; apply lookup_insert_eq|]. split; [apply schema_empty_like|].
    split; [apply prefix_nil|]. split; [cbn; lia|constructor].
Qed.

(** Two members, the file of the second one missing. *)
Lemma concat_streaming_failure_truncates_witness :
  ∃ st' e (members : list record) (appended : list Table),
    (concat_record_group
       [ MkRecord (of_string "/data/run/p1/cells.csv") None
           (Some (of_string "dest/p1.cells.parquet"));
         MkRecord (of_string "/data/run/p2/cells.csv") None
           (Some (of_string "dest/p2.cells.parquet")) ]
       (Some "dest")
       (MkState {[ "dest/p1.cells.parquet" :=
                     ParquetFile [ MkColumn "ObjectNumber" Int64 [PInt 1] ] ]} []))
    = (st', inl e) ∧
    files st' !! "dest/run.cells.parquet"
      = Some (ParquetFile
                (foldl append_rows
                   (empty_like [ MkColumn "ObjectNumber" Int64 [PInt 1] ]) appended)) ∧
    (length members < 2)%nat ∧
    length appended = length members.
Proof.
  destruct (concat_record_group
       [ MkRecord (of_string "/data/run/p1/cells.csv") None
           (Some (of_string "dest/p1.cells.parquet"));
         MkRecord (of_string "/data/run/p2/cells.csv") None
           (Some (of_string "dest/p2.cells.parquet")) ]
       (Some "dest")
       (MkState {[ "dest/p1.cells.parquet" :=
                     ParquetFile [ MkColumn "ObjectNumber" Int64 [PInt 1] ] ]} []))
    as [st' [e|out]] eqn:Hrun.
  - pose proof (λ H1 H2 H3 H4,
                  concat_streaming_failure_truncates _ _ _ _ _ _
                    (of_string "dest/p1.cells.parquet")
                    [ MkColumn "ObjectNumber" Int64 [PInt 1] ] H1 H2 H3 H4 Hrun) as Hthm.
    destruct Hthm as (members & appended & Hfile & _ & _ & Hlen & Hall);
      [reflexivity | reflexivity | reflexivity | discriminate |].
    exists st', e, members, appended.
    split; [reflexivity|]. split; [exact Hfile|]. split; [exact Hlen|].
    symmetry. exact (Forall2_length _ _ _ Hall).
  - vm_compute in Hrun. discriminate Hrun.
Defined.

(** X23. In a streaming concatenation, whatever its outcome, the only
    file that may be removed before the loop is a stale file at the merged
    path, and every later removal is that of a member, directly after that
    member has been read and its rows appended to the writer of the merged
    file. *)
Theorem concat_streaming_unlink_order (first : record) (rest : list record)
    (dest_path : option string) (st : state) (d0 : Path) :
  table first = None →
  destination_path first = Some d0 →
  ∃ (before : list event) (handled : list (string * Table)) (tail : list event),
    trace (concat_record_group (first :: rest) dest_path st).1
      = (trace st ++ before
           ++ (handled ≫= member_events
                 (to_string (concat_destination dest_path (source_path first))))
           ++ tail)%list ∧
    (∀ p, EvUnlink p ∈ before →
          p = to_string (concat_destination dest_path (source_path first))) ∧
    (∀ pt, pt ∈ handled →
       ∃ r d, r ∈ first :: rest ∧ destination_path r = Some d ∧ pt.1 = to_string d) ∧
    no_unlink tail.
Proof.
  intros Htab Hd0.
  set (destination := to_string (concat_destination dest_path (source_path first))).
  assert (∀ (tr before : list event),
            tr = (trace st ++ before)%list →
            (∀ p, EvUnlink p ∈ before → p = destination) →
            ∃ (before' : list event) (handled : list (string * Table)) (tail : list event),
              tr = (trace st ++ before' ++ (handled ≫= member_events destination) ++ tail)%list ∧
              (∀ p, EvUnlink p ∈ before' → p = destination) ∧
              (∀ pt, pt ∈ handled →
                 ∃ r d, r ∈ first :: rest ∧ destination_path r = Some d ∧ pt.1 = to_string d) ∧
              no_unlink tail) as Hstop.
  { intros tr before -> Hbefore. exists before, [], []. cbn. rewrite app_nil_r.
    repeat split; [done| |constructor]. intros pt Hpt. by apply not_elem_of_nil in Hpt. }
  unfold concat_record_group. rewrite Htab, Hd0. cbv zeta. fold destination.
  rewrite run_bind. cbn [get_files]. cbv beta iota. rewrite run_bind.
  assert (∃ st1 before0,
            (if bool_decide (is_Some (files st !! destination))
             then unlink destination else mret ()) st = (st1, inr ()) ∧
            trace st1 = (trace st ++ before0)%list ∧
            (∀ p, EvUnlink p ∈ before0 → p = destination))
    as (st1 & before0 & -> & Htr1 & Hb0).
  { case_bool_decide as Hex.
    - rewrite unlink_run. destruct Hex as [f Hf]. rewrite Hf.
      eexists _, [EvUnlink destination]. split; [reflexivity|]. split; [done|].
      intros p Hp. apply list_elem_of_singleton in Hp. by injection Hp.
    - exists st, []. split; [done|]. split; [by rewrite app_nil_r|].
      intros p Hp. by apply not_elem_of_nil in Hp. }
  rewrite run_bind, read_table_run.
  assert (∀ p, EvUnlink p ∈ (before0 ++ [EvRead (to_string d0)])%list → p = destination)
    as Hb1.
  { intros p [Hp|Hp]%elem_of_app; [by apply Hb0|].
    by apply list_elem_of_singleton in Hp. }
  destruct (files st1 !! to_string d0) as [[t|basis| |db]|];
    try (cbn [fst trace];
         apply (Hstop _ (before0 ++ [EvRead (to_string d0)])%list);
         [by rewrite Htr1, <- app_assoc | exact Hb1]).
  rewrite run_bind, open_writer_run. cbn [trace files].
  assert (∀ p, EvUnlink p ∈ ((before0 ++ [EvRead (to_string d0)])
                               ++ [EvOpenWriter destination])%list → p = destination)
    as Hb2.
  { intros p [Hp|Hp]%elem_of_app; [by apply Hb1|].
    by apply list_elem_of_singleton in Hp. }
  rewrite run_bind, release_on_error_run. unfold collect_key at 1.
  destruct (mapM destination_path (first :: rest)) as [dests|] eqn:Hdests.
  2:{ cbn [fst trace raise released w_path].
      apply (Hstop _ (((before0 ++ [EvRead (to_string d0)])
                         ++ [EvOpenWriter destination])
                        ++ [EvCloseWriter destination])%list);
        [by rewrite Htr1, <- !app_assoc|].
      intros p [Hp|Hp]%elem_of_app; [by apply Hb2|].
      by apply list_elem_of_singleton in Hp. }
  cbn [mret M_ret ret]. rewrite run_bind.
  match goal with
  | |- context [append_members ?w _ _ ?s] =>
      destruct (append_members w (column_names basis) (to_string <$> dests) s)
        as [st3 r] eqn:Hloop;
      pose proof (append_members_trace _ _ _ _ _ _ Hloop)
        as (handled & tail & Htr3 & Hprefix & Htail)
  end.
  cbn [trace w_path] in Htr3.
  assert (∀ pt, pt ∈ handled →
            ∃ r0 d, r0 ∈ first :: rest ∧ destination_path r0 = Some d ∧ pt.1 = to_string d)
    as Hmembers.
  { intros pt Hpt.
    assert (pt.1 ∈ to_string <$> dests) as Hin.
    { destruct Hprefix as [more ->]. apply elem_of_app. left.
      by apply list_elem_of_fmap_2. }
    apply list_elem_of_fmap in Hin as (d & Hd & Hin).
    apply mapM_Some in Hdests. apply list_elem_of_lookup in Hin as [i Hi].
    destruct (Forall2_lookup_r _ _ _ _ _ Hdests Hi) as (r0 & Hr0 & Hrd).
    exists r0, d. split; [by eapply list_elem_of_lookup_2|]. done. }
  destruct r as [e|w'].
  - cbn [fst]. rewrite Htr3, Htr1.
    exists ((before0 ++ [EvRead (to_string d0)]) ++ [EvOpenWriter destination])%list,
      handled, tail.
    split; [by rewrite <- !app_assoc|]. done.
  - rewrite run_bind, close_writer_run. cbn [fst trace].
    rewrite Htr3, Htr1.
    exists ((before0 ++ [EvRead (to_string d0)]) ++ [EvOpenWriter destination])%list,
      handled, (tail ++ [EvCloseWriter (w_path w')])%list.
    split; [by rewrite <- !app_assoc|]. split; [done|]. split; [done|].
    apply Forall_app. split; [done|]. by repeat constructor.
Qed.

Lemma concat_streaming_unlink_order_witness :
  ∃ (before : list event) (handled : list (string * Table)) (tail : list event),
    trace (concat_record_group
             [ MkRecord (of_string "/data/run/p1/cells.csv") None
                 (Some (of_string "dest/p1.cells.parquet")) ]
             (Some "dest")
             (MkState {[ "dest/p1.cells.parquet" :=
                           ParquetFile [ MkColumn "ObjectNumber" Int64 [PInt 1] ] ]} [])).1
      = (before ++ (handled ≫= member_events "dest/run.cells.parquet") ++ tail)%list ∧
    no_unlink tail.
Proof.
  destruct (concat_streaming_unlink_order
              (MkRecord (of_string "/data/run/p1/cells.csv") None
                 (Some (of_string "dest/p1.cells.parquet"))) []
              (Some "dest")
              (MkState {[ "dest/p1.cells.parquet" :=
                            ParquetFile [ MkColumn "ObjectNumber" Int64 [PInt 1] ] ]} [])
              (of_string "dest/p1.cells.parquet") eq_refl eq_refl)
    as (before & handled & tail & Htr & _ & _ & Htail).
  exists before, handled, tail. split; [exact Htr|exact Htail].
Defined.

(** X24. After a streaming concatenation that has completed, no member
    file is left: every destination recorded in a member of the group is
    absent from the files. *)
Theorem concat_streaming_removes_members (first : record) (rest : list record)
    (dest_path : option string) (st st' : state) (out : list record) (d0 : Path) :
  table first = None → destination_path first = Some d0 →
  concat_record_group (first :: rest) dest_path st = (st', inr out) →
  ∀ r d, r ∈ first :: rest → destination_path r = Some d →
         files st' !! to_string d = None.
Proof. apply concat_record_group_removes_members. Qed.

Lemma concat_streaming_removes_members_witness :
  ∃ st' out,
    concat_record_group
      [ MkRecord (of_string "/data/run/p1/cells.csv") None
          (Some (of_string "dest/p1.cells.parquet")) ]
      (Some "dest")
      (MkState {[ "dest/p1.cells.parquet" :=
                    ParquetFile [ MkColumn "ObjectNumber" Int64 [PInt 1] ] ]} [])
      = (st', inr out) ∧
    files st' !! "dest/p1.cells.parquet" = None.
Proof.
  destruct (concat_record_group
      [ MkRecord (of_string "/data/run/p1/cells.csv") None
          (Some (of_string "dest/p1.cells.parquet")) ]
      (Some "dest")
      (MkState {[ "dest/p1.cells.parquet" :=
                    ParquetFile [ MkColumn "ObjectNumber" Int64 [PInt 1] ] ]} []))
    as [st' [e|out]] eqn:Hrun.
  - vm_compute in Hrun. discriminate Hrun.
  - exists st', out. split; [reflexivity|].
    pose proof (λ H1 H2, concat_streaming_removes_members _ _ _ _ _ _
                           (of_string "dest/p1.cells.parquet") H1 H2 Hrun) as Hthm.
    apply (Hthm eq_refl eq_refl
             (MkRecord (of_string "/data/run/p1/cells.csv") None
                (Some (of_string "dest/p1.cells.parquet")))
             (of_string "dest/p1.cells.parquet"));
      [left | reflexivity].
Defined.


(** ** When destinations do differ *)

Lemma string_app_inv_tail (a b s : string) : a ++ s = b ++ s → a = b.
Proof.
  revert b. induction a as [|c a IH]; intros [|c' b] Heq; try done.
  - apply (f_equal String.length) in Heq.
    rewrite (string_length_app (String c' b)) in Heq.
    change (String.length ("" ++ s)) with (String.length s) in Heq.
    cbn [String.length] in Heq. lia.
  - apply (f_equal String.length) in Heq.
    rewrite (string_length_app (String c a)) in Heq.
    change (String.length ("" ++ s)) with (String.length s) in Heq.
    cbn [String.length] in Heq. lia.
  - change (String c (a ++ s) = String c' (b ++ s)) in Heq.
    injection Heq as -> Heq. f_equal. by apply IH.
Qed.

(** X25. What the naming does achieve: two members of one group (same
    stem) whose parent directories have different names get different
    destinations under the unique naming, and two records of different
    stems get different destinations under the plain naming. *)
Theorem write_destination_distinct (r1 r2 : record) (dest_path : string) :
  well_formed (source_path r1) →
  well_formed (source_path r2) →
  (stem (source_path r1) = stem (source_path r2) →
   name (parent (source_path r1)) ≠ name (parent (source_path r2)) →
   write_destination r1 dest_path true ≠ write_destination r2 dest_path true) ∧
  (stem (source_path r1) ≠ stem (source_path r2) →
   write_destination r1 dest_path false ≠ write_destination r2 dest_path false).
Proof.
  intros Hwf1 Hwf2. split.
  - intros Hstem Hparent Heq. apply (f_equal name) in Heq.
    rewrite !write_destination_name in Heq by done. rewrite Hstem in Heq.
    by apply string_app_inv_tail in Heq.
  - intros Hstem Heq. apply (f_equal name) in Heq.
    rewrite !write_destination_name in Heq by done.
    by apply string_app_inv_tail in Heq.
Qed.

Lemma write_destination_distinct_witness :
  write_destination (MkRecord (of_string "/data/plate1/cells.csv") None None) "dest" true
  ≠ write_destination (MkRecord (of_string "/data/plate2/cells.csv") None None) "dest" true.
Proof.
  apply (proj1 (write_destination_distinct
                  (MkRecord (of_string "/data/plate1/cells.csv") None None)
                  (MkRecord (of_string "/data/plate2/cells.csv") None None) "dest"
                  (of_string_well_formed _) (of_string_well_formed _)));
    [reflexivity | discriminate].
Defined.
